(** * A shallow embedding of the logger facade (yyberi/logger)

    The repository wraps the pino logging backend in a [Logger] class.  Two
    versions of [index.ts] are present:

    - the keyed registry (static [instances: Record<string, Logger>], log
      directory taken from [LOG_DIR]); the test suite and the README
      describe this one.  It is embedded in [Module Keyed].
    - the single-instance version under [src/] (static [instance?: Logger],
      default service name read from [package.json]).  It is embedded in
      [Module Single].

    The constructor, [child], [setLogLevel] and the five leveled methods are
    the same text in both files; they are embedded once, in [Section Logger],
    over a world whose registry component is left generic.

    Conventions of the embedding:

    - A JavaScript string is a [string] whose characters are read as the
      code points U+0000..U+00FF.
    - Objects with identity ([Logger] instances, pino handles) live in
      stores indexed by allocation order; a reference is an index.
    - The backend (pino) is outside the repository.  It is represented by
      the interface the wrapper uses: the factory and [child] return a new
      handle each, [level] is a settable property of a handle, and every
      call made to the backend is appended to a log of calls. *)

From Stdlib Require Import Ascii String.
From stdpp Require Import base option list gmap strings fin_maps relations pretty.

Local Open Scope string_scope.
Local Open Scope list_scope.
Local Open Scope nat_scope.

(** ** JavaScript values passed through the wrapper *)

(** Bindings, base fields and the supplementary arguments of a log call are
    opaque to the wrapper; only [undefined] is ever produced by it (reading
    an absent property). *)
Inductive JsVal : Type :=
| JUndefined
| JNull
| JBool (b : bool)
| JNum (n : Z)
| JStr (s : string).

#[global] Instance JsVal_eq_dec : EqDecision JsVal.
Proof. solve_decision. Defined.

(** A plain object used as a record of fields. *)
Abbreviation JsObj := (gmap string JsVal).

(** [o.k] on a plain object whose prototype chain does not define [k]. *)
Definition get_prop (o : JsObj) (k : string) : JsVal :=
  default JUndefined (o !! k).

(** [process.env.X]: a string or [undefined]. *)
Definition env_val (v : option string) : JsVal :=
  match v with
  | Some s => JStr s
  | None => JUndefined
  end.

(** [x || d] for [x : string | undefined]: the empty string is falsy. *)
Definition or_default (x : option string) (d : string) : string :=
  match x with
  | Some s => if decide (s = "") then d else s
  | None => d
  end.

(** [x ?? d] for [x : string | undefined]: only [undefined] is replaced. *)
Definition nullish_default (x : option string) (d : string) : string :=
  match x with
  | Some s => s
  | None => d
  end.

(** ** [String.prototype.trim] and [toLowerCase] *)

(** White space and line terminators below U+0100: TAB, LF, VT, FF, CR,
    SPACE and NO-BREAK SPACE. *)
Definition is_js_space (c : ascii) : bool :=
  let n := nat_of_ascii c in
  bool_decide (n = 9 ∨ n = 10 ∨ n = 11 ∨ n = 12 ∨ n = 13 ∨ n = 32 ∨ n = 160)%nat.

Fixpoint trimStart (s : string) : string :=
  match s with
  | String c s' => if is_js_space c then trimStart s' else s
  | EmptyString => EmptyString
  end.

(** [trimEnd] drops the longest suffix of white space: a character is kept
    when it is not white space or when something is kept after it. *)
Fixpoint trimEnd (s : string) : string :=
  match s with
  | String c s' =>
      match trimEnd s' with
      | EmptyString => if is_js_space c then EmptyString else String c EmptyString
      | t => String c t
      end
  | EmptyString => EmptyString
  end.

Definition trim (s : string) : string := trimEnd (trimStart s).

(** Lower-case mapping below U+0100: A-Z and the accented capitals
    U+00C0..U+00DE (without the multiplication sign U+00D7) move up by 32. *)
Definition lower_char (c : ascii) : ascii :=
  let n := nat_of_ascii c in
  if bool_decide ((65 ≤ n ∧ n ≤ 90) ∨ (192 ≤ n ∧ n ≤ 222 ∧ n ≠ 215))%nat
  then ascii_of_nat (n + 32)
  else c.

Fixpoint toLowerCase (s : string) : string :=
  match s with
  | String c s' => String (lower_char c) (toLowerCase s')
  | EmptyString => EmptyString
  end.

(** ** [path.join] (POSIX flavour of the Node standard library) *)

(** Segments of a path between ["/"] separators, in order. *)
Fixpoint split_slash (s : string) : list string :=
  match s with
  | EmptyString => [EmptyString]
  | String c s' =>
      if decide (c = "/"%char) then EmptyString :: split_slash s'
      else match split_slash s' with
           | seg :: segs => String c seg :: segs
           | [] => [String c EmptyString]
           end
  end.

(** One step of [normalizeString]: [stack] holds the segments kept so far,
    last one first.  Empty and ["."] segments are skipped; [".."] removes
    the last kept segment unless there is none or it is itself [".."], in
    which case it is kept only when the path may climb above its start. *)
Definition normalize_step (allowAboveRoot : bool) (stack : list string)
    (seg : string) : list string :=
  if decide (seg = "" ∨ seg = ".") then stack
  else if decide (seg = "..") then
    match stack with
    | top :: below =>
        if decide (top = "..") then seg :: stack else below
    | [] => if allowAboveRoot then [seg] else []
    end
  else seg :: stack.

Definition normalizeSegments (allowAboveRoot : bool) (segs : list string)
  : list string :=
  rev (fold_left (normalize_step allowAboveRoot) segs []).

Definition starts_with_slash (p : string) : bool :=
  match p with
  | String c _ => bool_decide (c = "/"%char)
  | EmptyString => false
  end.

Fixpoint ends_with_slash (p : string) : bool :=
  match p with
  | EmptyString => false
  | String c EmptyString => bool_decide (c = "/"%char)
  | String _ p' => ends_with_slash p'
  end.

Definition path_normalize (p : string) : string :=
  if decide (p = "") then "." else
  let isAbsolute := starts_with_slash p in
  let trailingSeparator := ends_with_slash p in
  let body := String.concat "/" (normalizeSegments (negb isAbsolute) (split_slash p)) in
  if decide (body = "") then
    if isAbsolute then "/" else if trailingSeparator then "./" else "."
  else
    let body := if trailingSeparator then body +:+ "/" else body in
    if isAbsolute then "/" +:+ body else body.

(** [path.join(...args)]: the non-empty arguments joined by ["/"], then
    normalized; ["."] when nothing is left. *)
Definition path_join (args : list string) : string :=
  match filter (λ a, a ≠ "") args with
  | [] => "."
  | parts => path_normalize (String.concat "/" parts)
  end.

(** ** Data of [index.ts] *)

(** [enum LogLevel]; at run time a member is its string value. *)
Inductive LogLevel : Type := FATAL | ERROR | WARN | INFO | DEBUG.

#[global] Instance LogLevel_eq_dec : EqDecision LogLevel.
Proof. solve_decision. Defined.

Definition LogLevel_value (l : LogLevel) : string :=
  match l with
  | FATAL => "fatal"
  | ERROR => "error"
  | WARN => "warn"
  | INFO => "info"
  | DEBUG => "debug"
  end.

(** The options object given to [pino-pretty].  The [messageFormat] callback
    is represented by a tag: it renders ["[service|module] message"]. *)
Inductive MessageFormat : Type := ServiceModulePrefix.

Record PrettyOptions : Type := {
  colorize : bool;
  levelFirst : bool;
  translateTime : string;
  singleLine : bool;
  ignore : string;
  messageFormat : MessageFormat;
}.

Inductive Stream : Type := PrettySink (o : PrettyOptions).

(** An entry of [transport.targets]. *)
Record TransportTarget : Type := {
  target : string;
  target_level : string;
  destination : string;
  mkdir : bool;
  sync : bool;
}.

(** The [timestamp] callback of the production configuration, which yields
    [,"timestamp":"<ISO-8601 time of the call>"]. *)
Inductive TimestampFn : Type := IsoTimestamp.

(** The fields of [pino.LoggerOptions] that the wrapper sets; [None] is a
    field left out of the object literal. *)
Record LoggerOptions : Type := {
  opt_transport : option (list TransportTarget);
  opt_level : string;
  opt_timestamp : option TimestampFn;
  opt_messageKey : option string;
  opt_base : JsObj;
}.

(** References: a pino handle and a [Logger] instance are identified by the
    order of their creation. *)
Abbreviation handle := nat.
Abbreviation loc := nat.

(** What the backend is asked to do, in the order of the requests. *)
Inductive Call : Type :=
| CallPino (opts : LoggerOptions) (stream : option Stream) (ret : handle)
| CallChild (h : handle) (bindings : JsObj) (ret : handle)
| CallSetLevel (h : handle) (lvl : string)
| CallEmit (h : handle) (method : LogLevel) (message : string) (args : list JsVal).

(** A [Logger] instance: [private logger] and [private children]. *)
Record LoggerObj : Type := {
  logger : handle;
  children : list loc;
}.

(** The part of [process.env] read when a root is constructed. *)
Record ProcessEnv : Type := {
  NODE_ENV : option string;
  npm_package_version : option string;
}.

(** The state the code runs in.  [registry] is the static member of the
    class ([instances] or [instance]); [levels] holds the [level] property
    of each handle. *)
Record World (R : Type) : Type := mkWorld {
  registry : R;
  objs : list LoggerObj;
  levels : list string;
  calls : list Call;
  env : ProcessEnv;
}.
Arguments mkWorld {R} _ _ _ _ _.
Arguments registry {R} _.
Arguments objs {R} _.
Arguments levels {R} _.
Arguments calls {R} _.
Arguments env {R} _.

(** The outcome of running a method: it returns, it throws (an exception of
    the backend reaches the caller), or the run is [Stuck]: a reference
    points to no object, or the recursion budget of [setLogLevel] is used
    up.  Neither happens in a well-formed world (see [exec_progress]). *)
Inductive Result (R A : Type) : Type :=
| Ok (a : A) (w : World R)
| Throw (e : JsVal) (w : World R)
| Stuck.
Arguments Ok {R A} _ _.
Arguments Throw {R A} _ _.
Arguments Stuck {R A}.

Definition M (R A : Type) : Type := World R → Result R A.

#[global] Instance M_ret {R} : MRet (M R) := λ A a w, Ok a w.
#[global] Instance M_bind {R} : MBind (M R) := λ A B f m w,
  match m w with
  | Ok a w' => f a w'
  | Throw e w' => Throw e w'
  | Stuck => Stuck
  end.

(** [xs.forEach(f)] for a callback that leaves [xs] alone. *)
Fixpoint forEach {R A} (xs : list A) (f : A → M R unit) : M R unit :=
  match xs with
  | [] => mret tt
  | x :: rest => f x;; forEach rest f
  end.

(** Pretty-print stream for development only. *)
Definition prettyStream : Stream :=
  PrettySink {|
    colorize := true;
    levelFirst := true;
    translateTime := "SYS:standard";
    singleLine := true;
    ignore := "service,module";
    messageFormat := ServiceModulePrefix;
  |}.

(** ** The backend interface *)

Section Backend.
Context {R : Type}.

(** When a leveled method of a handle throws, and what: a function of the
    calls made so far and of the call itself.  The factory, [child] and
    the [level] setter are taken to return. *)
Variable emit_throws :
  list Call → handle → LogLevel → string → list JsVal → option JsVal.

Definition record_call (c : Call) (w : World R) : World R :=
  mkWorld (registry w) (objs w) (levels w) (calls w ++ [c]) (env w).

(** [pino(opts, stream)]: a new handle whose level is [opts.level]. *)
Definition pinoFactory (opts : LoggerOptions) (stream : option Stream)
  : M R handle := λ w,
  let h := length (levels w) in
  Ok h (mkWorld (registry w) (objs w) (levels w ++ [opt_level opts])
          (calls w ++ [CallPino opts stream h]) (env w)).

(** [h.child(bindings)]: a new handle that starts at the level of [h]. *)
Definition handle_child (h : handle) (bindings : JsObj) : M R handle := λ w,
  match levels w !! h with
  | Some lvl =>
      let h' := length (levels w) in
      Ok h' (mkWorld (registry w) (objs w) (levels w ++ [lvl])
               (calls w ++ [CallChild h bindings h']) (env w))
  | None => Stuck
  end.

(** [h.level = lvl]. *)
Definition handle_set_level (h : handle) (lvl : string) : M R unit := λ w,
  match levels w !! h with
  | Some _ =>
      Ok tt (mkWorld (registry w) (objs w) (<[h := lvl]> (levels w))
               (calls w ++ [CallSetLevel h lvl]) (env w))
  | None => Stuck
  end.

(** [h.<method>(message, ...args)]. *)
Definition handle_emit (method : LogLevel) (h : handle) (message : string)
    (args : list JsVal) : M R unit := λ w,
  let w' := record_call (CallEmit h method message args) w in
  match emit_throws (calls w) h method message args with
  | Some e => Throw e w'
  | None => Ok tt w'
  end.

Definition handle_fatal := handle_emit FATAL.
Definition handle_error := handle_emit ERROR.
Definition handle_warn := handle_emit WARN.
Definition handle_info := handle_emit INFO.
Definition handle_debug := handle_emit DEBUG.
End Backend.

(** ** [class Logger]: the members shared by both versions of [index.ts] *)

(** The argument of the private constructor:
    [param?: string | pino.Logger]. *)
Inductive Param : Type :=
| ParamUndefined
| ParamString (s : string)
| ParamHandle (h : handle).

Module Logger.
Section Logger.
Context {R : Type}.

(** The two module-level values on which the versions differ. *)
Variable DEFAULT_SERVICE_NAME : string.
Variable prodDestination : string.

Variable emit_throws :
  list Call → handle → LogLevel → string → list JsVal → option JsVal.

Definition get_env : M R ProcessEnv := λ w, Ok (env w) w.

(** Reading the fields of the instance a reference points to. *)
Definition deref (this : loc) : M R LoggerObj := λ w,
  match objs w !! this with
  | Some o => Ok o w
  | None => Stuck
  end.

(** A new instance, with [children = []]. *)
Definition alloc (h : handle) : M R loc := λ w,
  Ok (length (objs w))
     (mkWorld (registry w) (objs w ++ [{| logger := h; children := [] |}])
        (levels w) (calls w) (env w)).

(** [this.children.push(c)]. *)
Definition push_child (this c : loc) : M R unit := λ w,
  match objs w !! this with
  | Some o =>
      Ok tt (mkWorld (registry w)
               (<[this := {| logger := logger o; children := children o ++ [c] |}]> (objs w))
               (levels w) (calls w) (env w))
  | None => Stuck
  end.

(** Production: use transport config to write JSON logs to file only. *)
Definition prodConfig (e : ProcessEnv) (serviceName : string) : LoggerOptions :=
  {| opt_transport :=
       Some [ {| target := "pino/file";
                 target_level := "info";
                 destination := prodDestination;
                 mkdir := true;
                 sync := false |} ];
     opt_level := "info";
     opt_timestamp := Some IsoTimestamp;
     opt_messageKey := Some "message";
     opt_base :=
       <["env" := env_val (NODE_ENV e)]>
         (<["version" := env_val (npm_package_version e)]>
            {["service" := JStr serviceName]}) |}.

(** Development: pretty-print to console. *)
Definition devConfig (serviceName : string) : LoggerOptions :=
  {| opt_transport := None;
     opt_level := "debug";
     opt_timestamp := None;
     opt_messageKey := None;
     opt_base := {["service" := JStr serviceName]} |}.

(** The normalized reading of [NODE_ENV]. *)
Definition normalized_env (e : ProcessEnv) : string :=
  let envRaw := or_default (NODE_ENV e) "" in
  toLowerCase (trim envRaw).

(** [new Logger(param)].  A handle is the only argument that is truthy
    and not a string. *)
Definition constructor (param : Param) : M R loc :=
  match param with
  | ParamHandle h => alloc h
  | _ =>
      let serviceName :=
        match param with
        | ParamString s => s
        | _ => DEFAULT_SERVICE_NAME
        end in
      e ← get_env;
      h ← (if decide (normalized_env e = "production")
           then pinoFactory (prodConfig e serviceName) None
           else pinoFactory (devConfig serviceName) (Some prettyStream));
      alloc h
  end.

(** [child(bindings)]. *)
Definition child (this : loc) (bindings : JsObj) : M R loc :=
  self ← deref this;
  let moduleName := get_prop bindings "name" in
  let rest := delete "name" bindings in
  let childBindings := <["module" := moduleName]> rest in
  childLogger ← handle_child (logger self) childBindings;
  childInstance ← constructor (ParamHandle childLogger);
  push_child this childInstance;;
  mret childInstance.

(** [setLogLevel(level)], with an explicit bound on the nesting of the
    recursive calls. *)
Fixpoint setLogLevel_rec (fuel : nat) (this : loc) (level : LogLevel)
  : M R unit :=
  match fuel with
  | O => λ _, Stuck
  | S fuel' =>
      self ← deref this;
      handle_set_level (logger self) (LogLevel_value level);;
      forEach (children self) (λ c, setLogLevel_rec fuel' c level)
  end.

(** The nesting never exceeds the number of instances. *)
Definition setLogLevel (this : loc) (level : LogLevel) : M R unit := λ w,
  setLogLevel_rec (length (objs w)) this level w.

Definition fatal (this : loc) (message : string) (args : list JsVal)
  : M R unit :=
  self ← deref this; handle_fatal emit_throws (logger self) message args.
Definition error (this : loc) (message : string) (args : list JsVal)
  : M R unit :=
  self ← deref this; handle_error emit_throws (logger self) message args.
Definition warn (this : loc) (message : string) (args : list JsVal)
  : M R unit :=
  self ← deref this; handle_warn emit_throws (logger self) message args.
Definition info (this : loc) (message : string) (args : list JsVal)
  : M R unit :=
  self ← deref this; handle_info emit_throws (logger self) message args.
Definition debug (this : loc) (message : string) (args : list JsVal)
  : M R unit :=
  self ← deref this; handle_debug emit_throws (logger self) message args.
End Logger.
End Logger.

(** ** The keyed registry: [static instances: Record<string, Logger>] *)

(** What [Logger.instances[name]] evaluates to: [undefined], a cached
    [Logger], or a member that the object literal inherits from
    [Object.prototype]. *)
Inductive JsRef : Type :=
| RefUndefined
| RefLogger (l : loc)
| RefInherited (key : string).

#[global] Instance JsRef_eq_dec : EqDecision JsRef.
Proof. solve_decision. Defined.

Definition truthy (r : JsRef) : bool :=
  match r with
  | RefUndefined => false
  | _ => true
  end.

(** The property names every object literal inherits. *)
Definition Object_prototype_keys : list string :=
  [ "constructor"; "__defineGetter__"; "__defineSetter__"; "hasOwnProperty";
    "__lookupGetter__"; "__lookupSetter__"; "isPrototypeOf";
    "propertyIsEnumerable"; "toString"; "valueOf"; "__proto__";
    "toLocaleString" ].

Module Keyed.
(** Default service name. *)
Definition DEFAULT_SERVICE_NAME : string := "@juntu/logger".

Section Keyed.
(** [process.env.LOG_DIR] and [process.cwd()] when the module is loaded. *)
Variable LOG_DIR : option string.
Variable cwd : string.

Definition logDir : string := nullish_default LOG_DIR (path_join [cwd; "logs"]).
Definition logFile : string := path_join [logDir; "app.log"].

Definition constructor : Param → M (gmap string loc) loc :=
  Logger.constructor DEFAULT_SERVICE_NAME logFile.

(** [Logger.instances[name]]: an own property first, then the prototype. *)
Definition get_instance (name : string) : M (gmap string loc) JsRef := λ w,
  Ok (match registry w !! name with
      | Some l => RefLogger l
      | None =>
          if decide (name ∈ Object_prototype_keys) then RefInherited name
          else RefUndefined
      end) w.

(** [Logger.instances[name] = l]. *)
Definition set_instance (name : string) (l : loc) : M (gmap string loc) unit :=
  λ w, Ok tt (mkWorld (<[name := l]> (registry w)) (objs w) (levels w)
                (calls w) (env w)).

(** Return or create a root logger for the given serviceName (or default).
    The assignment is reached only when the lookup gave [undefined], so
    never for an inherited name. *)
Definition getInstance (serviceName : option string)
  : M (gmap string loc) JsRef :=
  let name := or_default serviceName DEFAULT_SERVICE_NAME in
  cached ← get_instance name;
  (if truthy cached then mret tt
   else l ← constructor (ParamString name); set_instance name l);;
  get_instance name.
End Keyed.
End Keyed.

(** ** The single-instance version: [static instance?: Logger] *)

Module Single.
Section Single.
(** [pkg.name] of [package.json] and [__dirname] of the module. *)
Variable pkg_name : option string.
Variable dirname : string.

(** Default service name from package.json. *)
Definition DEFAULT_SERVICE_NAME : string := nullish_default pkg_name "ads-mqtt".

Definition prodDestination : string := path_join [dirname; "../logs/app.log"].

Definition constructor : Param → M (option loc) loc :=
  Logger.constructor DEFAULT_SERVICE_NAME prodDestination.

Definition get_instance : M (option loc) (option loc) := λ w, Ok (registry w) w.

Definition set_instance (l : loc) : M (option loc) unit := λ w,
  Ok tt (mkWorld (Some l) (objs w) (levels w) (calls w) (env w)).

(** Get or create the root singleton logger.  First call may provide
    serviceName. *)
Definition getInstance (serviceName : option string) : M (option loc) loc :=
  cached ← get_instance;
  match cached with
  | Some l => mret l
  | None =>
      l ← constructor (match serviceName with
                       | Some s => ParamString s
                       | None => ParamUndefined
                       end);
      set_instance l;;
      mret l
  end.
End Single.
End Single.

(** ** The tree of instances *)

(** [c] is an entry of the [children] of [p]. *)
Definition is_child (os : list LoggerObj) (p c : loc) : Prop :=
  ∃ o, os !! p = Some o ∧ c ∈ children o.

(** A node and everything below it. *)
Definition descendant (os : list LoggerObj) : relation loc := rtc (is_child os).

(** Depth-first pre-order: a node first, then the pre-orders of its
    children one after the other, in the order of its [children]. *)
Inductive preorder (os : list LoggerObj) : loc → list loc → Prop :=
| preorder_node this self below :
    os !! this = Some self →
    preorder_children os (children self) below →
    preorder os this (this :: below)
with preorder_children (os : list LoggerObj) : list loc → list loc → Prop :=
| preorder_nil : preorder_children os [] []
| preorder_cons c cs first others :
    preorder os c first →
    preorder_children os cs others →
    preorder_children os (c :: cs) (first ++ others).

Scheme preorder_mut := Induction for preorder Sort Prop
  with preorder_children_mut := Induction for preorder_children Sort Prop.

(** Well-formed worlds.  Children are created after their parent and
    exist; every instance wraps an existing handle; no two instances wrap
    the same handle; no instance is listed twice as a child. *)
Definition wf {R} (w : World R) : Prop :=
  Forall (λ p : loc * LoggerObj,
            Forall (λ c, p.1 < c ∧ c < length (objs w)) (children p.2))
         (imap pair (objs w))
  ∧ Forall (λ o, logger o < length (levels w)) (objs w)
  ∧ NoDup (logger <$> objs w)
  ∧ NoDup (concat (children <$> objs w)).

#[global] Instance wf_dec {R} (w : World R) : Decision (wf w).
Proof. unfold wf. apply _. Defined.

(** The world an outcome leaves behind. *)
Definition world_of {R A} (r : Result R A) : option (World R) :=
  match r with
  | Ok _ w | Throw _ w => Some w
  | Stuck => None
  end.

Definition set_env {R} (e : ProcessEnv) (w : World R) : World R :=
  mkWorld (registry w) (objs w) (levels w) (calls w) e.

(** ** Runs of the public interface of the keyed version *)

Abbreviation KWorld := (World (gmap string loc)).

(** [w'] keeps what [w] has: every cached root stays cached under its key,
    an inherited name that is not a key does not become one, and every
    instance keeps its handle and its children, in order, possibly with
    more of them at the end. *)
Definition extends (w w' : KWorld) : Prop :=
  (∀ k l, registry w !! k = Some l → registry w' !! k = Some l)
  ∧ (∀ k, k ∈ Object_prototype_keys →
       registry w !! k = None → registry w' !! k = None)
  ∧ (∀ l o, objs w !! l = Some o →
       ∃ o', objs w' !! l = Some o' ∧ logger o' = logger o
             ∧ children o `prefix_of` children o').

(** The registry key a service name stands for. *)
Definition key_of (s : string) : string :=
  or_default (Some s) Keyed.DEFAULT_SERVICE_NAME.

Module KeyedRun.
Inductive Op : Type :=
| OpGetInstance (serviceName : option string)
| OpChild (this : loc) (bindings : JsObj)
| OpSetLogLevel (this : loc) (level : LogLevel)
| OpFatal (this : loc) (message : string) (args : list JsVal)
| OpError (this : loc) (message : string) (args : list JsVal)
| OpWarn (this : loc) (message : string) (args : list JsVal)
| OpInfo (this : loc) (message : string) (args : list JsVal)
| OpDebug (this : loc) (message : string) (args : list JsVal).

Inductive Value : Type :=
| VRef (r : JsRef)
| VLogger (l : loc)
| VVoid.

(** What a call adds to the [children] of the instance at [l], in world
    [w]: [child] called on [l] adds the instance it creates. *)
Definition appended {R} (op : Op) (w : World R) (l : loc) : list loc :=
  match op with
  | OpChild this _ => if decide (this = l) then [length (objs w)] else []
  | _ => []
  end.

(** The instance a method is called on, if any. *)
Definition receiver (op : Op) : option loc :=
  match op with
  | OpGetInstance _ => None
  | OpChild this _ | OpSetLogLevel this _
  | OpFatal this _ _ | OpError this _ _ | OpWarn this _ _
  | OpInfo this _ _ | OpDebug this _ _ => Some this
  end.

Section KeyedRun.
Variable LOG_DIR : option string.
Variable cwd : string.
Variable emit_throws :
  list Call → handle → LogLevel → string → list JsVal → option JsVal.

Definition child : loc → JsObj → M (gmap string loc) loc :=
  Logger.child Keyed.DEFAULT_SERVICE_NAME (Keyed.logFile LOG_DIR cwd).

Definition exec (op : Op) : M (gmap string loc) Value :=
  match op with
  | OpGetInstance s => r ← Keyed.getInstance LOG_DIR cwd s; mret (VRef r)
  | OpChild this b => l ← child this b; mret (VLogger l)
  | OpSetLogLevel this level => Logger.setLogLevel this level;; mret VVoid
  | OpFatal this m args => Logger.fatal emit_throws this m args;; mret VVoid
  | OpError this m args => Logger.error emit_throws this m args;; mret VVoid
  | OpWarn this m args => Logger.warn emit_throws this m args;; mret VVoid
  | OpInfo this m args => Logger.info emit_throws this m args;; mret VVoid
  | OpDebug this m args => Logger.debug emit_throws this m args;; mret VVoid
  end.

(** One thing happens: a call of the interface returns or throws, or the
    process environment is changed from outside. *)
Inductive step (w : KWorld) : KWorld → Prop :=
| step_call op w' : world_of (exec op w) = Some w' → step w w'
| step_env e : step w (set_env e w).

Definition steps : relation KWorld := rtc step.

(** The world when the module has been loaded. *)
Definition init (e : ProcessEnv) : KWorld := mkWorld ∅ [] [] [] e.

Definition reachable (w : KWorld) : Prop := ∃ e, steps (init e) w.

(** Every cached root exists, and no root is cached under two keys. *)
Definition reg_ok (w : KWorld) : Prop :=
  map_Forall (λ _ l, l < length (objs w)) (registry w)
  ∧ map_Forall (λ k l, map_Forall (λ k' l', l = l' → k = k') (registry w))
               (registry w).

#[global] Instance reg_ok_dec w : Decision (reg_ok w).
Proof. unfold reg_ok. apply _. Defined.
End KeyedRun.
End KeyedRun.

(** ** Notions used to describe a cascade *)

(** The handle of the instance at [m]. *)
Definition handle_at (os : list LoggerObj) (m : loc) : handle :=
  default 0 (logger <$> os !! m).

(** The world after [h.level = lvl] has been run for each [h] of [hs], in
    order. *)
Definition set_levels {R} (hs : list handle) (lvl : string) (w : World R)
  : World R :=
  mkWorld (registry w) (objs w)
    (foldl (λ lv h, <[h := lvl]> lv) (levels w) hs)
    (calls w ++ ((λ h, CallSetLevel h lvl) <$> hs))
    (env w).

(** The part of [wf] a cascade relies on, for [nh] handles. *)
Definition shape_ok (os : list LoggerObj) (nh : nat) : Prop :=
  ∀ p o, os !! p = Some o →
    logger o < nh ∧ ∀ c, c ∈ children o → p < c ∧ c < length os.

(** The directory part of a path made with [path.join(dir, file)]: the
    normalized [dir], closed by a separator unless nothing is left of it. *)
Definition dir_prefix (dir : string) : string :=
  let isAbsolute := starts_with_slash dir in
  let segs := normalizeSegments (negb isAbsolute) (split_slash dir) in
  (if isAbsolute then "/" else "")
  +:+ match segs with
      | [] => ""
      | _ => String.concat "/" segs +:+ "/"
      end.

(** ** Sample inputs *)

(** A backend whose leveled methods always return, and one that throws on
    every call. *)
Definition never_throws
  : list Call → handle → LogLevel → string → list JsVal → option JsVal :=
  λ _ _ _ _ _, None.

Definition always_throws
  : list Call → handle → LogLevel → string → list JsVal → option JsVal :=
  λ _ _ _ _ _, Some (JStr "EIO").

Definition dev_env : ProcessEnv :=
  {| NODE_ENV := None; npm_package_version := None |}.

Definition prod_env : ProcessEnv :=
  {| NODE_ENV := Some "production"; npm_package_version := Some "9.8.7" |}.

(** A root for ["svc"] with two children, the first of which has a child
    of its own:
<<
      0 --- 1 --- 3
       \--- 2
>> *)
Definition sample_tree : KWorld :=
  mkWorld {["svc" := 0]}
    [ {| logger := 0; children := [1; 2] |};
      {| logger := 1; children := [3] |};
      {| logger := 2; children := [] |};
      {| logger := 3; children := [] |} ]
    ["debug"; "debug"; "debug"; "debug"]
    []
    dev_env.

(** The bindings of the test suite, [{name: "modA", foo: "bar"}], and
    bindings that carry a [module] of their own. *)
Definition modA_bindings : JsObj :=
  <["name" := JStr "modA"]> {["foo" := JStr "bar"]}.

Definition colliding_bindings : JsObj :=
  <["name" := JStr "modA"]> {["module" := JStr "mine"]}.

(** ** The message format of the pretty stream *)

(** Truthiness of a value, as the conditional operator sees it. *)
Definition js_truthy (v : JsVal) : bool :=
  match v with
  | JUndefined | JNull => false
  | JBool b => b
  | JNum n => bool_decide (n ≠ 0%Z)
  | JStr s => bool_decide (s ≠ "")
  end.

(** The text a template literal puts in for a value.  A number is printed
    in decimal when it is a safe integer, which is what [Number] does for
    these; the other numbers are not covered ([None]). *)
Definition template_text (v : JsVal) : option string :=
  match v with
  | JUndefined => Some "undefined"
  | JNull => Some "null"
  | JBool b => Some (if b then "true" else "false")
  | JNum n =>
      if bool_decide (Z.abs n ≤ 9007199254740992)%Z then Some (pretty n)
      else None
  | JStr s => Some s
  end.

(** [log[messageKey]] of a parsed record: an own field, [undefined] for an
    absent one; a member inherited from [Object.prototype] is not covered
    ([None]). *)
Definition record_message (log : JsObj) (messageKey : string) : option JsVal :=
  match log !! messageKey with
  | Some v => Some v
  | None =>
      if decide (messageKey ∈ Object_prototype_keys) then None
      else Some JUndefined
  end.

(** The [messageFormat] callback given to [pino-pretty]:
    [[service|module] message]. *)
Definition messageFormat_fn (log : JsObj) (messageKey : string)
  : option string :=
  servicePart ←
    (if js_truthy (get_prop log "service")
     then template_text (get_prop log "service") else Some "");
  modulePart ←
    (if js_truthy (get_prop log "module")
     then template_text (get_prop log "module") else Some "");
  message ← record_message log messageKey ≫= template_text;
  Some ("[" +:+ servicePart +:+ "|" +:+ modulePart +:+ "] " +:+ message).

(** ** Runs of the single-instance version *)

Abbreviation SWorld := (World (option loc)).

Module SingleRun.
Inductive Op : Type :=
| OpLoggerFn (serviceName : option string)
| OpFnChild (bindings : JsObj)
| OpFnSetLogLevel (level : LogLevel)
| OpChild (this : loc) (bindings : JsObj)
| OpSetLogLevel (this : loc) (level : LogLevel)
| OpFatal (this : loc) (message : string) (args : list JsVal)
| OpError (this : loc) (message : string) (args : list JsVal)
| OpWarn (this : loc) (message : string) (args : list JsVal)
| OpInfo (this : loc) (message : string) (args : list JsVal)
| OpDebug (this : loc) (message : string) (args : list JsVal).

Inductive Value : Type :=
| VLogger (l : loc)
| VVoid.

(** The instance a method is called on, if any. *)
Definition receiver (op : Op) : option loc :=
  match op with
  | OpLoggerFn _ | OpFnChild _ | OpFnSetLogLevel _ => None
  | OpChild this _ | OpSetLogLevel this _
  | OpFatal this _ _ | OpError this _ _ | OpWarn this _ _
  | OpInfo this _ _ | OpDebug this _ _ => Some this
  end.

Section Calls.
Variable pkg_name : option string.
Variable dirname : string.
Variable emit_throws :
  list Call → handle → LogLevel → string → list JsVal → option JsVal.

Definition child : loc → JsObj → M (option loc) loc :=
  Logger.child (Single.DEFAULT_SERVICE_NAME pkg_name)
    (Single.prodDestination dirname).

(** Callable default export for ease of use. *)
Definition LoggerFn (serviceName : option string) : M (option loc) loc :=
  Single.getInstance pkg_name dirname serviceName.

(** [LoggerFn.child = (bindings) => Logger.getInstance().child(bindings)]. *)
Definition LoggerFn_child (bindings : JsObj) : M (option loc) loc :=
  root ← Single.getInstance pkg_name dirname None;
  child root bindings.

(** [LoggerFn.setLogLevel = (level) =>
    Logger.getInstance().setLogLevel(level)]. *)
Definition LoggerFn_setLogLevel (level : LogLevel) : M (option loc) unit :=
  root ← Single.getInstance pkg_name dirname None;
  Logger.setLogLevel root level.

Definition exec (op : Op) : M (option loc) Value :=
  match op with
  | OpLoggerFn s => l ← LoggerFn s; mret (VLogger l)
  | OpFnChild b => l ← LoggerFn_child b; mret (VLogger l)
  | OpFnSetLogLevel level => LoggerFn_setLogLevel level;; mret VVoid
  | OpChild this b => l ← child this b; mret (VLogger l)
  | OpSetLogLevel this level => Logger.setLogLevel this level;; mret VVoid
  | OpFatal this m args => Logger.fatal emit_throws this m args;; mret VVoid
  | OpError this m args => Logger.error emit_throws this m args;; mret VVoid
  | OpWarn this m args => Logger.warn emit_throws this m args;; mret VVoid
  | OpInfo this m args => Logger.info emit_throws this m args;; mret VVoid
  | OpDebug this m args => Logger.debug emit_throws this m args;; mret VVoid
  end.

(** One thing happens: a call of the interface returns or throws, or the
    process environment is changed from outside. *)
Inductive step (w : SWorld) : SWorld → Prop :=
| step_call op w' : world_of (exec op w) = Some w' → step w w'
| step_env e : step w (set_env e w).

Definition steps : relation SWorld := rtc step.

(** The world when the module has been loaded. *)
Definition init (e : ProcessEnv) : SWorld := mkWorld None [] [] [] e.

Definition reachable (w : SWorld) : Prop := ∃ e, steps (init e) w.

(** Running a list of calls one after the other; a call on a reference
    that points to nothing is passed over. *)
Definition run (ops : list Op) (w : SWorld) : SWorld :=
  foldl (λ w op, default w (world_of (exec op w))) w ops.
End Calls.
End SingleRun.

(** Running a list of calls of the keyed version one after the other; a
    call on a reference that points to nothing is passed over. *)
Definition run_keyed (LOG_DIR : option string) (cwd : string)
    (emit_throws :
       list Call → handle → LogLevel → string → list JsVal → option JsVal)
    (ops : list KeyedRun.Op) (w : KWorld) : KWorld :=
  foldl (λ w op,
           default w (world_of (KeyedRun.exec LOG_DIR cwd emit_throws op w)))
        w ops.

(** Is this call a construction of a handle by the factory? *)
Definition is_factory_call (c : Call) : bool :=
  match c with
  | CallPino _ _ _ => true
  | _ => false
  end.

(** A run of the keyed version: two roots, children below the first. *)
Definition sample_ops : list KeyedRun.Op :=
  [ KeyedRun.OpGetInstance (Some "svc");
    KeyedRun.OpChild 0 modA_bindings;
    KeyedRun.OpGetInstance None;
    KeyedRun.OpChild 1 colliding_bindings;
    KeyedRun.OpSetLogLevel 1 WARN;
    KeyedRun.OpInfo 3 "imsg" [JNum 4] ].

(** A run of the single-instance version that starts with
    [LoggerFn.child]. *)
Definition sample_single_ops : list SingleRun.Op :=
  [ SingleRun.OpFnChild modA_bindings;
    SingleRun.OpLoggerFn (Some "late");
    SingleRun.OpChild 1 colliding_bindings;
    SingleRun.OpFnChild colliding_bindings ].

(** The worlds these two runs end in, from a fresh process. *)
Definition sample_run : KWorld :=
  run_keyed None "/srv/app" never_throws sample_ops (KeyedRun.init dev_env).

Definition sample_single_run : SWorld :=
  SingleRun.run (Some "@yyberi/logger") "/srv/app/dist" never_throws
    sample_single_ops (SingleRun.init dev_env).

(** What the backend was asked for and what the wrapper holds agree: the
    handle of the instance at [l] is the handle number [l]; an instance is
    a cached root or a child; a root is cached under a key that is its
    service name, and was made by one call of the factory; an instance is
    a child of another exactly when the handle of the one was derived
    from the handle of the other. *)
Definition ledger (w : KWorld) : Prop :=
  length (levels w) = length (objs w)
  ∧ (∀ l o, objs w !! l = Some o → logger o = l)
  ∧ (∀ l, l < length (objs w) →
       (∃ k, registry w !! k = Some l) ∨ (∃ p, is_child (objs w) p l))
  ∧ (∀ k l p, registry w !! k = Some l → ¬ is_child (objs w) p l)
  ∧ (∀ k l, registry w !! k = Some l →
       k ≠ "" ∧ (k ∉ Object_prototype_keys)
       ∧ ∃ cfg stream, CallPino cfg stream l ∈ calls w
                       ∧ opt_base cfg !! "service" = Some (JStr k))
  ∧ (∀ cfg stream h, CallPino cfg stream h ∈ calls w →
       ∃ k, registry w !! k = Some h
            ∧ opt_base cfg !! "service" = Some (JStr k))
  ∧ length (filter (λ c, is_factory_call c = true) (calls w))
    = size (registry w)
  ∧ (∀ p c, is_child (objs w) p c ↔ ∃ b, CallChild p b c ∈ calls w).

(** A string of white space only. *)
Fixpoint all_js_space (s : string) : bool :=
  match s with
  | EmptyString => true
  | String c s' => is_js_space c && all_js_space s'
  end.

(** What holds of every world of the single-instance version: it is
    well-formed; the handle of the instance at [l] is the handle number
    [l]; before the root is made there is nothing, and afterwards the
    root is the instance 0, every instance is at or below it, and the
    first call to the backend, and no other, is a call of the factory. *)
Definition single_ok (w : SWorld) : Prop :=
  wf w
  ∧ length (levels w) = length (objs w)
  ∧ (∀ l o, objs w !! l = Some o → logger o = l)
  ∧ match registry w with
    | None => objs w = [] ∧ calls w = []
    | Some r =>
        r = 0 ∧ 0 < length (objs w)
        ∧ (∀ l, l < length (objs w) → descendant (objs w) 0 l)
        ∧ ∃ cfg stream rest,
            calls w = CallPino cfg stream 0 :: rest
            ∧ Forall (λ c, is_factory_call c = false) rest
    end.

(** * Properties *)

(** ** Running the monad *)

Lemma bind_Ok {R A B} (m : M R A) (k : A → M R B) (w w' : World R) (a : A) :
  m w = Ok a w' → (m ≫= k) w = k a w'.
Proof. intros H. unfold mbind, M_bind. by rewrite H. Qed.

Lemma bind_Throw {R A B} (m : M R A) (k : A → M R B) (w w' : World R) e :
  m w = Throw e w' → (m ≫= k) w = Throw e w'.
Proof. intros H. unfold mbind, M_bind. by rewrite H. Qed.

Lemma bind_Stuck {R A B} (m : M R A) (k : A → M R B) (w : World R) :
  m w = Stuck → (m ≫= k) w = Stuck.
Proof. intros H. unfold mbind, M_bind. by rewrite H. Qed.

(** ** [child] *)

Section ChildFacts.
Context {R : Type}.
Variable DEFAULT_SERVICE_NAME : string.
Variable prodDestination : string.

Abbreviation child' := (@Logger.child R DEFAULT_SERVICE_NAME prodDestination).

(** The bindings [child] derives: the fields other than [name], and
    [module] bound to what [name] was bound to. *)
Lemma child_runs (w : World R) this self lvl bindings :
  objs w !! this = Some self →
  levels w !! logger self = Some lvl →
  child' this bindings w =
    Ok (length (objs w))
       (mkWorld (registry w)
          (<[this := {| logger := logger self;
                        children := children self ++ [length (objs w)] |}]>
             (objs w ++ [{| logger := length (levels w); children := [] |}]))
          (levels w ++ [lvl])
          (calls w ++ [CallChild (logger self)
                         (<["module" := get_prop bindings "name"]>
                            (delete "name" bindings))
                         (length (levels w))])
          (env w)).
Proof.
  intros Hthis Hlvl. unfold Logger.child.
  erewrite bind_Ok; last by (unfold Logger.deref; rewrite Hthis).
  erewrite bind_Ok; last by (unfold handle_child; rewrite Hlvl).
  erewrite bind_Ok; last by (simpl; unfold Logger.alloc; simpl).
  erewrite bind_Ok; last first.
  { unfold Logger.push_child. simpl.
    rewrite lookup_app_l; last by eapply lookup_lt_Some.
    by rewrite Hthis. }
  done.
Qed.

(** C3.  When [bindings] has a [name] field bound to [n], [child] asks the
    handle of the receiver for a child with exactly the remaining fields
    merged with [{module: n}]; these bindings have no [name] key.  The new
    instance wraps the handle the backend returned, it is appended to the
    [children] of the receiver, and it is what [child] returns.  No other
    instance changes. *)
Theorem child_renames_name (w : World R) this self lvl bindings n :
  objs w !! this = Some self →
  levels w !! logger self = Some lvl →
  bindings !! "name" = Some n →
  let rest := delete "name" bindings in
  let derived := {["module" := n]} ∪ rest in
  ∃ w' l' h',
    child' this bindings w = Ok l' w'
    ∧ calls w' = calls w ++ [CallChild (logger self) derived h']
    ∧ derived !! "name" = None
    ∧ levels w !! h' = None
    ∧ objs w !! l' = None
    ∧ objs w' !! l' = Some {| logger := h'; children := [] |}
    ∧ objs w' !! this
      = Some {| logger := logger self; children := children self ++ [l'] |}
    ∧ ∀ m, m ≠ this → m ≠ l' → objs w' !! m = objs w !! m.
Proof.
  intros Hthis Hlvl Hname rest derived.
  pose proof (lookup_lt_Some _ _ _ Hthis) as Hlt.
  eexists _, _, _. split; [by eapply child_runs|]. simpl.
  assert (get_prop bindings "name" = n) as -> by (unfold get_prop; by rewrite Hname).
  split_and!.
  - by rewrite insert_union_singleton_l.
  - subst derived rest. rewrite lookup_union_r; [by rewrite lookup_delete_eq|].
    by rewrite lookup_singleton_ne.
  - by apply lookup_ge_None.
  - by apply lookup_ge_None.
  - rewrite list_lookup_insert_ne; [|lia].
    by rewrite lookup_app_r, Nat.sub_diag.
  - rewrite list_lookup_insert_eq; [done|]. rewrite length_app. lia.
  - intros m Hm1 Hm2. rewrite list_lookup_insert_ne; [|done].
    destruct (decide (m < length (objs w))).
    + by rewrite lookup_app_l.
    + rewrite !lookup_ge_None_2; [done|lia|]. rewrite length_app. simpl. lia.
Qed.

(** C10.  When [bindings] has both a [name] and a [module] field, the
    bindings handed to the backend bind [module] to the value of [name];
    the value [bindings] gave for [module] is dropped.  The fields other
    than these two are handed on as they are. *)
Theorem child_module_collision (w : World R) this self lvl bindings n m :
  objs w !! this = Some self →
  levels w !! logger self = Some lvl →
  bindings !! "name" = Some n →
  bindings !! "module" = Some m →
  ∃ w' l' h' derived,
    child' this bindings w = Ok l' w'
    ∧ calls w' = calls w ++ [CallChild (logger self) derived h']
    ∧ derived !! "module" = Some n
    ∧ ∀ k, k ≠ "module" → k ≠ "name" → derived !! k = bindings !! k.
Proof.
  intros Hthis Hlvl Hname Hmod.
  eexists _, _, _, _. split; [by eapply child_runs|]. simpl.
  split; [done|].
  assert (get_prop bindings "name" = n) as -> by (unfold get_prop; by rewrite Hname).
  split; [by rewrite lookup_insert_eq|].
  intros k Hk1 Hk2. rewrite lookup_insert_ne; [|done]. by rewrite lookup_delete_ne.
Qed.
End ChildFacts.

(** ** The leveled methods *)

Section EmitFacts.
Context {R : Type}.
Variable emit_throws :
  list Call → handle → LogLevel → string → list JsVal → option JsVal.

(** C8.  Each of [fatal], [error], [warn], [info] and [debug], called on
    an instance (a root or one made by [child]), calls the method of the
    same name of the wrapped handle with the same message and the same
    arguments in the same order, and does nothing else: it returns when
    that call returns and throws what that call throws. *)
Theorem leveled_methods_forward (w : World R) this self message args :
  objs w !! this = Some self →
  let sent method :=
    record_call (CallEmit (logger self) method message args) w in
  let outcome method :=
    match emit_throws (calls w) (logger self) method message args with
    | Some e => Throw e (sent method)
    | None => Ok tt (sent method)
    end in
  (Logger.fatal emit_throws this message args w
     = handle_fatal emit_throws (logger self) message args w
   ∧ Logger.fatal emit_throws this message args w = outcome FATAL)
  ∧ (Logger.error emit_throws this message args w
       = handle_error emit_throws (logger self) message args w
     ∧ Logger.error emit_throws this message args w = outcome ERROR)
  ∧ (Logger.warn emit_throws this message args w
       = handle_warn emit_throws (logger self) message args w
     ∧ Logger.warn emit_throws this message args w = outcome WARN)
  ∧ (Logger.info emit_throws this message args w
       = handle_info emit_throws (logger self) message args w
     ∧ Logger.info emit_throws this message args w = outcome INFO)
  ∧ (Logger.debug emit_throws this message args w
       = handle_debug emit_throws (logger self) message args w
     ∧ Logger.debug emit_throws this message args w = outcome DEBUG).
Proof.
  intros Hthis sent outcome.
  unfold Logger.fatal, Logger.error, Logger.warn, Logger.info, Logger.debug.
  split_and!;
    (erewrite bind_Ok; last by (unfold Logger.deref; rewrite Hthis));
    reflexivity.
Qed.
End EmitFacts.

(** ** Well-formed worlds, pre-order and descendants *)

Lemma wf_shape_ok {R} (w : World R) :
  wf w → shape_ok (objs w) (length (levels w)).
Proof.
  intros (Hc & Hh & _ & _) p o Hp. split.
  - rewrite Forall_forall in Hh. apply Hh. by eapply list_elem_of_lookup_2.
  - intros c Hin. rewrite Forall_lookup in Hc.
    specialize (Hc p (p, o)). rewrite list_lookup_imap, Hp in Hc.
    specialize (Hc eq_refl). simpl in Hc. rewrite Forall_forall in Hc. by apply Hc.
Qed.

Lemma wf_handle_inj {R} (w : World R) p q o o' :
  wf w → objs w !! p = Some o → objs w !! q = Some o' →
  logger o = logger o' → p = q.
Proof.
  intros (_ & _ & Hnd & _) Hp Hq Heq.
  eapply NoDup_lookup; [exact Hnd| |].
  - rewrite list_lookup_fmap, Hp. reflexivity.
  - rewrite list_lookup_fmap, Hq. simpl. by rewrite Heq.
Qed.

Lemma NoDup_concat_unique {A} (ls : list (list A)) i j l1 l2 x :
  NoDup (concat ls) → ls !! i = Some l1 → ls !! j = Some l2 →
  x ∈ l1 → x ∈ l2 → i = j.
Proof.
  revert i j. induction ls as [|l ls IH]; intros i j Hnd Hi Hj H1 H2; [done|].
  simpl in Hnd. apply NoDup_app in Hnd as (_ & Hdisj & Hnd').
  assert (∀ k l', ls !! k = Some l' → x ∈ l' → x ∈ concat ls) as Hin.
  { intros k l' Hk Hx. apply list_elem_of_In, in_concat. exists l'.
    split; apply list_elem_of_In; [by eapply list_elem_of_lookup_2 | done]. }
  destruct i as [|i], j as [|j]; simpl in *; simplify_eq; [done| | |].
  - exfalso. eapply Hdisj; eauto.
  - exfalso. eapply Hdisj; eauto.
  - f_equal. by eapply IH.
Qed.

Lemma wf_unique_parent {R} (w : World R) p q c :
  wf w → is_child (objs w) p c → is_child (objs w) q c → p = q.
Proof.
  intros (_ & _ & _ & Hnd) (o & Hp & Hc) (o' & Hq & Hc').
  eapply (NoDup_concat_unique _ p q (children o) (children o') c); eauto.
  - by rewrite list_lookup_fmap, Hp.
  - by rewrite list_lookup_fmap, Hq.
Qed.

Lemma descendant_ge os nh this m :
  shape_ok os nh → descendant os this m → this ≤ m.
Proof.
  intros Hs. induction 1 as [|x y z (o & Hx & Hy) _ IH]; [done|].
  destruct (Hs x o Hx) as [_ Hb]. specialize (Hb y Hy). lia.
Qed.

Lemma preorder_functional os :
  ∀ this order, preorder os this order →
    ∀ order', preorder os this order' → order = order'.
Proof.
  apply (preorder_mut os
    (λ this order _, ∀ order', preorder os this order' → order = order')
    (λ cs below _, ∀ below', preorder_children os cs below' → below = below')).
  - intros this self below Hthis _ IH order' H'. inversion H'; simplify_eq.
    f_equal. by apply IH.
  - intros below' H'. by inversion H'.
  - intros c cs first others _ IH1 _ IH2 below' H'. inversion H'; simplify_eq.
    f_equal; [by apply IH1 | by apply IH2].
Qed.

Lemma preorder_children_elem os cs below c :
  preorder_children os cs below → c ∈ cs →
  ∃ oc, preorder os c oc ∧ ∀ m, m ∈ oc → m ∈ below.
Proof.
  induction 1 as [|c' cs first others Hc' Hcs IH]; intros Hin.
  - by apply elem_of_nil in Hin.
  - apply elem_of_cons in Hin as [->|Hin].
    + exists first. split; [done|]. intros m Hm. apply elem_of_app. by left.
    + destruct (IH Hin) as (oc & Hoc & Hsub). exists oc. split; [done|].
      intros m Hm. apply elem_of_app. right. by apply Hsub.
Qed.

Lemma preorder_sound os :
  ∀ this order, preorder os this order →
    ∀ m, m ∈ order → descendant os this m.
Proof.
  intros this order H.
  apply (preorder_mut os
    (λ this order _, ∀ m, m ∈ order → descendant os this m)
    (λ cs below _, ∀ m, m ∈ below → ∃ c, c ∈ cs ∧ descendant os c m));
    [| | |exact H].
  - intros t self below Ht _ IH m Hm. apply elem_of_cons in Hm as [->|Hm].
    + apply rtc_refl.
    + destruct (IH m Hm) as (c & Hc & Hd). eapply rtc_l; [|exact Hd].
      by exists self.
  - intros m Hm. by apply elem_of_nil in Hm.
  - intros c cs first others _ IH1 _ IH2 m Hm.
    apply elem_of_app in Hm as [Hm|Hm].
    + exists c. split; [by left | by apply IH1].
    + destruct (IH2 m Hm) as (c' & Hc' & Hd). exists c'. split; [by right|done].
Qed.

Lemma preorder_complete os this m :
  descendant os this m → ∀ order, preorder os this order → m ∈ order.
Proof.
  induction 1 as [x|x y z (o & Hx & Hy) _ IH]; intros order Hpre.
  - inversion Hpre; subst. by left.
  - inversion Hpre as [t self below Ht Hch]; simplify_eq.
    destruct (preorder_children_elem _ _ _ y Hch Hy) as (oc & Hoc & Hsub).
    right. apply Hsub. by apply IH.
Qed.

Lemma preorder_head os this order :
  preorder os this order → ∃ below, order = this :: below.
Proof. inversion 1; eauto. Qed.

Lemma preorder_children_functional os cs below below' :
  preorder_children os cs below → preorder_children os cs below' →
  below = below'.
Proof.
  intros H. revert below'.
  induction H as [|c cs first others Hc _ IH]; intros below' H'.
  - by inversion H'.
  - inversion H'; simplify_eq. f_equal; [|by apply IH].
    by eapply preorder_functional.
Qed.

Lemma descendant_valid os nh this m :
  shape_ok os nh → this < length os → descendant os this m → m < length os.
Proof.
  intros Hs Hthis. induction 1 as [|x y z (o & Hx & Hy) _ IH]; [done|].
  apply IH. destruct (Hs x o Hx) as [_ Hb]. by apply Hb.
Qed.

(** ** The cascade of [setLogLevel] *)

Section CascadeFacts.
Context {R : Type}.
Implicit Types w : World R.

Lemma set_levels_app hs1 hs2 lvl w :
  set_levels (hs1 ++ hs2) lvl w = set_levels hs2 lvl (set_levels hs1 lvl w).
Proof.
  unfold set_levels. simpl. by rewrite foldl_app, fmap_app, app_assoc.
Qed.

Lemma set_levels_length hs lvl w :
  length (levels (set_levels hs lvl w)) = length (levels w).
Proof.
  unfold set_levels. simpl. generalize (levels w).
  induction hs as [|h hs IH]; intros lv; simpl; [done|].
  by rewrite IH, length_insert.
Qed.

Lemma set_levels_lookup hs lvl w h :
  (∀ h', h' ∈ hs → h' < length (levels w)) →
  levels (set_levels hs lvl w) !! h
  = if decide (h ∈ hs) then Some lvl else levels w !! h.
Proof.
  unfold set_levels. simpl. generalize (levels w).
  induction hs as [|h0 hs IH] using rev_ind; intros lv Hb.
  - destruct (decide (h ∈ [])) as [Hin|]; [by apply elem_of_nil in Hin | done].
  - rewrite foldl_app. simpl.
    assert (length (foldl (λ lv0 h1, <[h1:=lvl]> lv0) lv hs) = length lv) as Hlen.
    { clear. revert lv. induction hs as [|a hs IH]; intros lv; simpl; [done|].
      by rewrite IH, length_insert. }
    destruct (decide (h = h0)) as [->|Hne].
    + rewrite list_lookup_insert_eq.
      * rewrite decide_True; [done|]. apply elem_of_app. right. by left.
      * rewrite Hlen. apply Hb. apply elem_of_app. right. by left.
    + rewrite list_lookup_insert_ne by done. rewrite IH.
      * destruct (decide (h ∈ hs)) as [Hin|Hnin].
        -- rewrite decide_True; [done|]. apply elem_of_app. by left.
        -- rewrite decide_False; [done|]. intros [?|Hin]%elem_of_app; [done|].
           apply list_elem_of_singleton in Hin. done.
      * intros h' Hh'. apply Hb. apply elem_of_app. by left.
Qed.

Lemma handle_set_level_runs h lvl w :
  h < length (levels w) →
  handle_set_level h lvl w = Ok tt (set_levels [h] lvl w).
Proof.
  intros Hlt. unfold handle_set_level.
  destruct (lookup_lt_is_Some_2 _ _ Hlt) as [x ->]. done.
Qed.

Lemma forEach_cascade (f : loc → M R unit) os nh lvl cs :
  (∀ c, c ∈ cs → ∀ wi, objs wi = os → length (levels wi) = nh →
     ∃ oc, preorder os c oc
           ∧ f c wi = Ok tt (set_levels (handle_at os <$> oc) lvl wi)) →
  ∀ wi, objs wi = os → length (levels wi) = nh →
    ∃ below, preorder_children os cs below
             ∧ forEach cs f wi = Ok tt (set_levels (handle_at os <$> below) lvl wi).
Proof.
  induction cs as [|c cs IH]; intros Hf wi Hos Hnh.
  - exists []. split; [constructor|]. simpl. unfold set_levels. simpl.
    rewrite app_nil_r. by destruct wi.
  - destruct (Hf c ltac:(by left) wi Hos Hnh) as (oc & Hoc & Hrun).
    destruct (IH (λ c' Hc', Hf c' ltac:(by right))
                (set_levels (handle_at os <$> oc) lvl wi))
      as (below & Hbelow & Hrest).
    { done. }
    { by rewrite set_levels_length. }
    exists (oc ++ below). split; [by constructor|].
    simpl. erewrite bind_Ok by exact Hrun.
    by rewrite Hrest, fmap_app, set_levels_app.
Qed.

Lemma setLogLevel_rec_spec level fuel :
  ∀ this w,
    shape_ok (objs w) (length (levels w)) →
    this < length (objs w) →
    length (objs w) ≤ fuel + this →
    ∃ order, preorder (objs w) this order
             ∧ Logger.setLogLevel_rec fuel this level w
               = Ok tt (set_levels (handle_at (objs w) <$> order)
                          (LogLevel_value level) w).
Proof.
  induction fuel as [|fuel IH]; intros this w Hs Hthis Hfuel; [lia|].
  destruct (lookup_lt_is_Some_2 _ _ Hthis) as [self Hself].
  destruct (Hs this self Hself) as [Hh Hcs].
  destruct (forEach_cascade
              (λ c, Logger.setLogLevel_rec fuel c level)
              (objs w) (length (levels w)) (LogLevel_value level) (children self))
    with (wi := set_levels [logger self] (LogLevel_value level) w)
    as (below & Hbelow & Hrun).
  { intros c Hc wi Hos Hnh. destruct (Hcs c Hc) as [Hlt Hlen].
    destruct (IH c wi) as (oc & Hoc & Hrun).
    - by rewrite Hos, Hnh.
    - by rewrite Hos.
    - rewrite Hos. lia.
    - exists oc. by rewrite Hos in Hoc, Hrun. }
  { done. }
  { by rewrite set_levels_length. }
  exists (this :: below). split; [by econstructor|].
  simpl. erewrite bind_Ok; last by (unfold Logger.deref; rewrite Hself).
  erewrite bind_Ok; last by apply handle_set_level_runs.
  rewrite Hrun. f_equal.
  replace (handle_at (objs w) this) with (logger self)
    by (unfold handle_at; by rewrite Hself).
  by rewrite <- set_levels_app.
Qed.

Lemma setLogLevel_spec level this w :
  shape_ok (objs w) (length (levels w)) →
  this < length (objs w) →
  ∃ order, preorder (objs w) this order
           ∧ Logger.setLogLevel this level w
             = Ok tt (set_levels (handle_at (objs w) <$> order)
                        (LogLevel_value level) w).
Proof.
  intros Hs Hthis. unfold Logger.setLogLevel.
  apply setLogLevel_rec_spec; [done..|lia].
Qed.

(** The recursion budget does not show: a call is the assignment of the
    level followed by the calls on the children. *)
Lemma setLogLevel_unfold level this self w :
  shape_ok (objs w) (length (levels w)) →
  objs w !! this = Some self →
  Logger.setLogLevel this level w
  = (handle_set_level (logger self) (LogLevel_value level);;
     forEach (children self) (λ c, Logger.setLogLevel c level)) w.
Proof.
  intros Hs Hself. pose proof (lookup_lt_Some _ _ _ Hself) as Hthis.
  destruct (setLogLevel_spec level this w Hs Hthis) as (order & Hpre & ->).
  destruct (Hs this self Hself) as [Hh Hcs].
  destruct (forEach_cascade
              (λ c, Logger.setLogLevel c level)
              (objs w) (length (levels w)) (LogLevel_value level) (children self))
    with (wi := set_levels [logger self] (LogLevel_value level) w)
    as (below & Hbelow & Hrun).
  { intros c Hc wi Hos Hnh. destruct (Hcs c Hc) as [Hlt Hlen].
    destruct (setLogLevel_spec level c wi) as (oc & Hoc & Hrun).
    - by rewrite Hos, Hnh.
    - by rewrite Hos.
    - exists oc. by rewrite Hos in Hoc, Hrun. }
  { done. }
  { by rewrite set_levels_length. }
  erewrite bind_Ok; last by apply handle_set_level_runs.
  rewrite Hrun. f_equal.
  inversion Hpre as [t self' below' Hself' Hbelow']; simplify_eq.
  rewrite (preorder_children_functional _ _ _ _ Hbelow' Hbelow).
  rewrite fmap_cons.
  replace (handle_at (objs w) this) with (logger self)
    by (unfold handle_at; by rewrite Hself).
  by rewrite <- set_levels_app.
Qed.

Lemma preorder_handles os nh this order h :
  shape_ok os nh → this < length os → preorder os this order →
  h ∈ handle_at os <$> order ↔
  ∃ m o, descendant os this m ∧ os !! m = Some o ∧ logger o = h.
Proof.
  intros Hs Hthis Hpre. rewrite list_elem_of_fmap. split.
  - intros (m & -> & Hm). pose proof (preorder_sound _ _ _ Hpre m Hm) as Hd.
    pose proof (descendant_valid _ _ _ _ Hs Hthis Hd) as Hlt.
    destruct (lookup_lt_is_Some_2 _ _ Hlt) as [o Ho].
    exists m, o. split_and!; [done..|]. unfold handle_at. by rewrite Ho.
  - intros (m & o & Hd & Ho & <-). exists m. split.
    + unfold handle_at. by rewrite Ho.
    + by eapply preorder_complete.
Qed.

(** C4.  In a well-formed world [setLogLevel(level)] is the assignment of
    [level] to the handle of the receiver followed by [setLogLevel(level)]
    on each entry of its [children], in the order of that list.  It
    returns, and the calls it makes to the backend are the level
    assignments to the handles of the instances below the receiver in
    depth-first pre-order, the receiver first. *)
Theorem setLogLevel_cascade w this self level :
  wf w →
  objs w !! this = Some self →
  Logger.setLogLevel this level w
  = (handle_set_level (logger self) (LogLevel_value level);;
     forEach (children self) (λ c, Logger.setLogLevel c level)) w
  ∧ ∃ w' below sent,
      Logger.setLogLevel this level w = Ok tt w'
      ∧ preorder (objs w) this (this :: below)
      ∧ calls w' = calls w ++ CallSetLevel (logger self) (LogLevel_value level) :: sent
      ∧ Forall2 (λ m c, ∃ o, objs w !! m = Some o
                             ∧ c = CallSetLevel (logger o) (LogLevel_value level))
                below sent
      ∧ objs w' = objs w.
Proof.
  intros Hwf Hself. apply wf_shape_ok in Hwf as Hs.
  pose proof (lookup_lt_Some _ _ _ Hself) as Hthis.
  split; [by apply setLogLevel_unfold|].
  destruct (setLogLevel_spec level this w Hs Hthis) as (order & Hpre & Hrun).
  destruct (preorder_head _ _ _ Hpre) as [below ->].
  eexists _, below, _. split; [exact Hrun|]. split; [done|]. simpl.
  replace (handle_at (objs w) this) with (logger self)
    by (unfold handle_at; by rewrite Hself).
  split; [reflexivity|]. split; [|done].
  apply Forall2_fmap_r, Forall2_fmap_r, Forall_Forall2_diag, Forall_forall.
  intros m Hm.
  assert (descendant (objs w) this m) as Hd.
  { eapply preorder_sound; [exact Hpre|]. by right. }
  pose proof (descendant_valid _ _ _ _ Hs Hthis Hd) as Hlt.
  destruct (lookup_lt_is_Some_2 _ _ Hlt) as [o Ho].
  exists o. split; [done|]. unfold handle_at. by rewrite Ho.
Qed.

(** C5.  In a well-formed world [setLogLevel(level)] on an instance
    returns and leaves the tree as it is.  Afterwards the handle of the
    receiver and of every instance below it has level [level]; the handle
    of every other instance, and every handle that belongs to none of
    these, has the level it had before.  Ancestors of the receiver and the
    other children of its parent are not below it, so they keep their
    level. *)
Theorem setLogLevel_frame w this self level :
  wf w →
  objs w !! this = Some self →
  ∃ w',
    Logger.setLogLevel this level w = Ok tt w'
    ∧ objs w' = objs w
    ∧ registry w' = registry w
    ∧ (∀ m o, objs w !! m = Some o →
         (descendant (objs w) this m →
            levels w' !! logger o = Some (LogLevel_value level))
         ∧ (¬ descendant (objs w) this m →
            levels w' !! logger o = levels w !! logger o))
    ∧ (∀ h, (∀ m o, descendant (objs w) this m → objs w !! m = Some o →
               logger o ≠ h) →
         levels w' !! h = levels w !! h)
    ∧ (∀ a, descendant (objs w) a this → a ≠ this →
         ¬ descendant (objs w) this a)
    ∧ (∀ p s, is_child (objs w) p this → is_child (objs w) p s → s ≠ this →
         ¬ descendant (objs w) this s).
Proof.
  intros Hwf Hself. apply wf_shape_ok in Hwf as Hs.
  pose proof (lookup_lt_Some _ _ _ Hself) as Hthis.
  destruct (setLogLevel_spec level this w Hs Hthis) as (order & Hpre & Hrun).
  eexists. split; [exact Hrun|]. split; [done|]. split; [done|].
  assert (∀ h', h' ∈ handle_at (objs w) <$> order → h' < length (levels w)) as Hb.
  { intros h' (m & o & _ & Ho & <-)%(preorder_handles _ _ _ _ _ Hs Hthis Hpre).
    by apply (Hs m o). }
  split_and!.
  - intros m o Ho. split; intros Hd; rewrite set_levels_lookup by done.
    + rewrite decide_True; [done|].
      apply (preorder_handles _ _ _ _ _ Hs Hthis Hpre). by exists m, o.
    + rewrite decide_False; [done|].
      intros (m' & o' & Hd' & Ho' & Heq)%(preorder_handles _ _ _ _ _ Hs Hthis Hpre).
      by rewrite (wf_handle_inj w m m' o o' Hwf Ho Ho' (eq_sym Heq)) in Hd.
  - intros h Hh. rewrite set_levels_lookup by done.
    rewrite decide_False; [done|].
    intros (m' & o' & Hd' & Ho' & Heq)%(preorder_handles _ _ _ _ _ Hs Hthis Hpre).
    by eapply Hh.
  - intros a Ha Hne Hd.
    pose proof (descendant_ge _ _ _ _ Hs Ha).
    pose proof (descendant_ge _ _ _ _ Hs Hd). lia.
  - intros p s Hp Hps Hne Hd.
    apply rtc_inv_r in Hd as [->|(q & Hq & Hqs)]; [done|].
    assert (q = p) as -> by by eapply wf_unique_parent.
    pose proof (descendant_ge _ _ _ _ Hs Hq).
    destruct Hp as (o & Ho & Hin). destruct (Hs p o Ho) as [_ Hc].
    specialize (Hc this Hin). lia.
Qed.
End CascadeFacts.

(** ** Paths *)

Lemma append_cons x (a b : string) : String x a +:+ b = String x (a +:+ b).
Proof. reflexivity. Qed.

Lemma append_assoc (a b c : string) : (a +:+ b) +:+ c = a +:+ (b +:+ c).
Proof.
  induction a as [|x a IH]; [done|]. rewrite !append_cons. by rewrite IH.
Qed.

Lemma append_eq_nil (a b : string) : a +:+ b = "" → b = "".
Proof. destruct a; [done|]. rewrite append_cons. discriminate. Qed.

Lemma split_slash_nonempty (s : string) : split_slash s ≠ [].
Proof.
  destruct s as [|c s]; simpl; [done|].
  destruct (decide _); [done|]. by destruct (split_slash s).
Qed.

Lemma split_slash_join (a b : string) :
  split_slash (a +:+ "/" +:+ b) = split_slash a ++ split_slash b.
Proof.
  induction a as [|c a IH]; [done|].
  rewrite append_cons. simpl.
  destruct (decide _); [by rewrite IH|].
  rewrite IH. pose proof (split_slash_nonempty a).
  by destruct (split_slash a).
Qed.

Lemma ends_with_slash_append (a f : string) :
  f ≠ "" → ends_with_slash (a +:+ f) = ends_with_slash f.
Proof.
  intros Hf. induction a as [|c a IH]; [done|].
  rewrite append_cons. simpl. rewrite IH. destruct (a +:+ f) eqn:E; [|done].
  by apply append_eq_nil in E.
Qed.

Lemma concat_slash_snoc (segs : list string) (f : string) :
  String.concat "/" (segs ++ [f])
  = match segs with
    | [] => ""
    | _ => String.concat "/" segs +:+ "/"
    end +:+ f.
Proof.
  induction segs as [|x segs IH]; [done|].
  destruct segs as [|y segs].
  { change (x +:+ "/" +:+ f = (x +:+ "/") +:+ f). by rewrite append_assoc. }
  change (String.concat "/" ((x :: y :: segs) ++ [f]))
    with (x +:+ "/" +:+ String.concat "/" ((y :: segs) ++ [f])).
  rewrite IH.
  change (String.concat "/" (x :: y :: segs))
    with (x +:+ "/" +:+ String.concat "/" (y :: segs)).
  by rewrite !append_assoc.
Qed.

Lemma normalizeSegments_snoc allow segs f :
  f ≠ "" → f ≠ "." → f ≠ ".." →
  normalizeSegments allow (segs ++ [f]) = normalizeSegments allow segs ++ [f].
Proof.
  intros H1 H2 H3. unfold normalizeSegments. rewrite fold_left_app. simpl.
  unfold normalize_step at 1.
  rewrite decide_False by (by intros [?|?]).
  by rewrite decide_False.
Qed.

(** Joining a directory and a file name that holds no separator and is
    none of [""], ["."] and [".."] yields the normalized directory followed
    by the file name. *)
Lemma path_join_file (dir f : string) :
  split_slash f = [f] → starts_with_slash f = false →
  ends_with_slash f = false →
  f ≠ "" → f ≠ "." → f ≠ ".." →
  path_join [dir; f] = dir_prefix dir +:+ f.
Proof.
  intros Hsplit Hstart Hend H1 H2 H3. unfold path_join, dir_prefix.
  destruct (decide (dir = "")) as [->|Hdir].
  - rewrite filter_cons_False by (by intros ?).
    rewrite filter_cons_True, filter_nil by done.
    change (String.concat "/" [f]) with f.
    unfold path_normalize. rewrite decide_False by done.
    rewrite Hstart, Hend, Hsplit.
    change [f] with ([] ++ [f]). rewrite normalizeSegments_snoc by done.
    change (String.concat "/" (normalizeSegments (negb false) [] ++ [f])) with f.
    by rewrite decide_False.
  - rewrite !filter_cons_True, filter_nil by done.
    change (String.concat "/" [dir; f]) with (dir +:+ "/" +:+ f).
    unfold path_normalize.
    rewrite decide_False by (destruct dir; [done|discriminate]).
    replace (starts_with_slash (dir +:+ "/" +:+ f)) with (starts_with_slash dir)
      by (by destruct dir).
    replace (ends_with_slash (dir +:+ "/" +:+ f)) with false.
    2:{ symmetry. rewrite <- append_assoc. by rewrite ends_with_slash_append. }
    rewrite split_slash_join, Hsplit, normalizeSegments_snoc by done.
    rewrite concat_slash_snoc.
    rewrite decide_False.
    2:{ intros E. by apply append_eq_nil in E. }
    destruct (starts_with_slash dir); [|done].
    by rewrite append_assoc.
Qed.

Lemma path_join_app_log (dir : string) :
  path_join [dir; "app.log"] = dir_prefix dir +:+ "app.log".
Proof. by apply path_join_file. Qed.

Lemma path_join_logs (dir : string) :
  path_join [dir; "logs"] = dir_prefix dir +:+ "logs".
Proof. by apply path_join_file. Qed.

(** ** Constructing a root *)

Section RootFacts.
Context {R : Type}.
Variable DEFAULT_SERVICE_NAME : string.
Variable prodDestination : string.

(** The new instance of a root and the single call that makes its handle. *)
Lemma constructor_root_runs (w : World R) (name : string) :
  Logger.constructor DEFAULT_SERVICE_NAME prodDestination (ParamString name) w
  = let cfg_stream :=
      if decide (Logger.normalized_env (env w) = "production")
      then (Logger.prodConfig prodDestination (env w) name, None)
      else (Logger.devConfig name, Some prettyStream) in
    Ok (length (objs w))
       (mkWorld (registry w)
          (objs w ++ [{| logger := length (levels w); children := [] |}])
          (levels w ++ [opt_level cfg_stream.1])
          (calls w ++ [CallPino cfg_stream.1 cfg_stream.2 (length (levels w))])
          (env w)).
Proof.
  unfold Logger.constructor.
  erewrite bind_Ok; last by (unfold Logger.get_env).
  by destruct (decide _).
Qed.

(** Without an argument the root gets the default service name. *)
Lemma constructor_undefined (w : World R) :
  Logger.constructor DEFAULT_SERVICE_NAME prodDestination ParamUndefined w
  = Logger.constructor DEFAULT_SERVICE_NAME prodDestination
      (ParamString DEFAULT_SERVICE_NAME) w.
Proof. reflexivity. Qed.
End RootFacts.

(** ** [getInstance] of the keyed registry *)

Section KeyedFacts.
Variable LOG_DIR : option string.
Variable cwd : string.

Abbreviation getInstance' := (Keyed.getInstance LOG_DIR cwd).

(** The world after a new root has been made and cached under [name]. *)
Lemma getInstance_runs (w : World (gmap string loc)) (s : option string) :
  let name := or_default s Keyed.DEFAULT_SERVICE_NAME in
  getInstance' s w =
    match registry w !! name with
    | Some l => Ok (RefLogger l) w
    | None =>
        if decide (name ∈ Object_prototype_keys) then Ok (RefInherited name) w
        else
          let cfg_stream :=
            if decide (Logger.normalized_env (env w) = "production")
            then (Logger.prodConfig (Keyed.logFile LOG_DIR cwd) (env w) name, None)
            else (Logger.devConfig name, Some prettyStream) in
          Ok (RefLogger (length (objs w)))
             (mkWorld (<[name := length (objs w)]> (registry w))
                (objs w ++ [{| logger := length (levels w); children := [] |}])
                (levels w ++ [opt_level cfg_stream.1])
                (calls w ++ [CallPino cfg_stream.1 cfg_stream.2 (length (levels w))])
                (env w))
    end.
Proof.
  intros name. unfold Keyed.getInstance. fold name.
  erewrite bind_Ok; last by (unfold Keyed.get_instance).
  destruct (registry w !! name) as [l|] eqn:Hreg.
  - cbn [truthy]. erewrite bind_Ok; last reflexivity.
    unfold Keyed.get_instance. by rewrite Hreg.
  - destruct (decide (name ∈ Object_prototype_keys)) as [Hin|Hnin].
    + cbn [truthy]. erewrite bind_Ok; last reflexivity.
      unfold Keyed.get_instance. by rewrite Hreg, decide_True.
    + cbn [truthy]. erewrite bind_Ok; last first.
      { erewrite bind_Ok; last by apply constructor_root_runs.
        reflexivity. }
      unfold Keyed.get_instance. cbn [registry]. by rewrite lookup_insert_eq.
Qed.
End KeyedFacts.

(** ** Invariants of a run *)

Lemma wf_alt {R} (w : World R) :
  wf w ↔
  shape_ok (objs w) (length (levels w))
  ∧ NoDup (logger <$> objs w)
  ∧ NoDup (concat (children <$> objs w)).
Proof.
  split.
  - intros Hwf. split; [by apply wf_shape_ok|]. by destruct Hwf as (_ & _ & ? & ?).
  - intros (Hs & Hh & Hc). split_and!; [| |done..].
    + apply Forall_lookup. intros i [p o] Hi.
      rewrite list_lookup_imap in Hi.
      destruct (objs w !! i) as [o'|] eqn:Ho; simplify_eq/=.
      apply Forall_forall. intros c Hc'. by eapply Hs.
    + apply Forall_forall. intros o Ho.
      apply list_elem_of_lookup_1 in Ho as [i Hi]. by apply (Hs i o).
Qed.

Lemma wf_same_shape {R R'} (w : World R) (w' : World R') :
  wf w → objs w' = objs w → length (levels w') = length (levels w) → wf w'.
Proof.
  rewrite !wf_alt. intros (Hs & Hh & Hc) Ho Hl. by rewrite Ho, Hl.
Qed.

Lemma concat_children_bound os nh c :
  shape_ok os nh → c ∈ concat (children <$> os) → c < length os.
Proof.
  intros Hs Hc. apply list_elem_of_In, in_concat in Hc as (cs & Hcs & Hc).
  apply list_elem_of_In, list_elem_of_fmap in Hcs as (o & -> & Ho).
  apply list_elem_of_lookup_1 in Ho as [p Hp].
  destruct (Hs p o Hp) as [_ Hb]. apply Hb. by apply list_elem_of_In.
Qed.

Lemma concat_insert_snoc {A} (ls : list (list A)) i l x :
  ls !! i = Some l → concat (<[i := l ++ [x]]> ls) ≡ₚ x :: concat ls.
Proof.
  revert i. induction ls as [|l0 ls IH]; intros i Hi; [done|].
  destruct i as [|i]; simpl in *; simplify_eq.
  - rewrite <- app_assoc. simpl. symmetry. apply Permutation_middle.
  - rewrite (IH i Hi). symmetry. apply Permutation_middle.
Qed.

(** A new root keeps the world well-formed. *)
Lemma wf_new_root {R R'} (w : World R) (r' : R') lvl cs e :
  wf w →
  wf (mkWorld r' (objs w ++ [{| logger := length (levels w); children := [] |}])
        (levels w ++ [lvl]) cs e).
Proof.
  rewrite !wf_alt. simpl. intros (Hs & Hh & Hc). split_and!.
  - intros p o Hp. rewrite !length_app. simpl.
    apply lookup_app_Some in Hp as [Hp|[Hge Hp]].
    + destruct (Hs p o Hp) as [H1 H2]. split; [lia|].
      intros c Hc'. specialize (H2 c Hc'). lia.
    + apply list_lookup_singleton_Some in Hp as [_ <-]. simpl. split; [lia|].
      intros c Hc'. by apply elem_of_nil in Hc'.
  - rewrite fmap_app. simpl. apply NoDup_app. split_and!; [done| |apply NoDup_singleton].
    intros h Hin Hin'. apply list_elem_of_singleton in Hin'. subst h.
    apply list_elem_of_fmap in Hin as (o & Ho & Hin).
    apply list_elem_of_lookup_1 in Hin as [p Hp].
    destruct (Hs p o Hp) as [H1 _]. lia.
  - rewrite fmap_app, concat_app. simpl. by rewrite app_nil_r.
Qed.

(** So does a new child. *)
Lemma wf_new_child {R R'} (w : World R) (r' : R') this self lvl cs e :
  wf w →
  objs w !! this = Some self →
  wf (mkWorld r'
        (<[this := {| logger := logger self;
                      children := children self ++ [length (objs w)] |}]>
           (objs w ++ [{| logger := length (levels w); children := [] |}]))
        (levels w ++ [lvl]) cs e).
Proof.
  intros Hwf Hself. pose proof (lookup_lt_Some _ _ _ Hself) as Hlt.
  apply wf_alt in Hwf as (Hs & Hh & Hc). apply wf_alt. simpl. split_and!.
  - intros p o Hp. rewrite length_insert, !length_app. simpl.
    destruct (decide (p = this)) as [->|Hne].
    + rewrite list_lookup_insert_eq in Hp
        by (rewrite length_app; simpl; lia).
      simplify_eq. simpl. destruct (Hs this self Hself) as [H1 H2].
      split; [lia|]. intros c [Hc'|Hc']%elem_of_app.
      * specialize (H2 c Hc'). lia.
      * apply list_elem_of_singleton in Hc'. lia.
    + rewrite list_lookup_insert_ne in Hp by done.
      apply lookup_app_Some in Hp as [Hp|[Hge Hp]].
      * destruct (Hs p o Hp) as [H1 H2]. split; [lia|].
        intros c Hc'. specialize (H2 c Hc'). lia.
      * apply list_lookup_singleton_Some in Hp as [_ <-]. simpl. split; [lia|].
        intros c Hc'. by apply elem_of_nil in Hc'.
  - rewrite list_fmap_insert. simpl.
    rewrite list_insert_id.
    2:{ rewrite list_lookup_fmap, lookup_app_l, Hself by done. done. }
    rewrite fmap_app. simpl. apply NoDup_app. split_and!; [done| |apply NoDup_singleton].
    intros h Hin Hin'. apply list_elem_of_singleton in Hin'. subst h.
    apply list_elem_of_fmap in Hin as (o & Ho & Hin).
    apply list_elem_of_lookup_1 in Hin as [p Hp].
    destruct (Hs p o Hp) as [H1 _]. lia.
  - rewrite list_fmap_insert, fmap_app. simpl.
    rewrite insert_app_l by (by rewrite length_fmap).
    rewrite concat_app. simpl. rewrite app_nil_r.
    rewrite concat_insert_snoc by (by rewrite list_lookup_fmap, Hself).
    apply NoDup_cons. split; [|done].
    intros Hin. apply (concat_children_bound _ _ _ Hs) in Hin. lia.
Qed.

Lemma world_of_bind_ret {R A B} (m : M R A) (f : A → B) (w : World R) :
  world_of ((x ← m; mret (f x)) w) = world_of (m w).
Proof. unfold mbind, M_bind. by destruct (m w). Qed.

Lemma deref_None {R A} (this : loc) (k : LoggerObj → M R A) (w : World R) :
  objs w !! this = None → (self ← Logger.deref this; k self) w = Stuck.
Proof. intros H. apply bind_Stuck. unfold Logger.deref. by rewrite H. Qed.

Lemma setLogLevel_None {R} this level (w : World R) :
  objs w !! this = None → Logger.setLogLevel this level w = Stuck.
Proof.
  intros H. unfold Logger.setLogLevel.
  destruct (length (objs w)); [done|]. by apply deref_None.
Qed.

Lemma obj_eta (o : LoggerObj) :
  {| logger := logger o; children := children o ++ [] |} = o.
Proof. destruct o. simpl. by rewrite app_nil_r. Qed.

Section RunFacts.
Variable LOG_DIR : option string.
Variable cwd : string.
Variable emit_throws :
  list Call → handle → LogLevel → string → list JsVal → option JsVal.

Import KeyedRun.

Abbreviation exec' := (exec LOG_DIR cwd emit_throws).
Abbreviation step' := (step LOG_DIR cwd emit_throws).
Abbreviation steps' := (steps LOG_DIR cwd emit_throws).
Abbreviation reachable' := (reachable LOG_DIR cwd emit_throws).

Lemma reg_ok_alt (w : KWorld) :
  reg_ok w ↔
  (∀ k l, registry w !! k = Some l → l < length (objs w))
  ∧ (∀ k k' l, registry w !! k = Some l → registry w !! k' = Some l → k = k').
Proof.
  unfold reg_ok. rewrite !map_Forall_lookup. split.
  - intros [H1 H2]. split; [done|]. intros k k' l Hk Hk'.
    specialize (H2 k l Hk). rewrite map_Forall_lookup in H2.
    by apply (H2 k' l Hk').
  - intros [H1 H2]. split; [done|]. intros k l Hk.
    apply map_Forall_lookup. intros k' l' Hk' <-. by eapply H2.
Qed.

Lemma reg_ok_grow (w w' : KWorld) :
  reg_ok w → registry w' = registry w → length (objs w) ≤ length (objs w') →
  reg_ok w'.
Proof.
  rewrite !reg_ok_alt. intros [H1 H2] -> Hle. split; [|done].
  intros k l Hk. specialize (H1 k l Hk). lia.
Qed.

(** The effect of a leveled method on the world. *)
Lemma emit_world (w : KWorld) h method message args :
  world_of (handle_emit emit_throws method h message args w)
  = Some (record_call (CallEmit h method message args) w).
Proof. unfold handle_emit. by destruct emit_throws. Qed.

(** What a call that returns or throws leaves behind. *)
Lemma exec_inv op (w w' : KWorld) :
  wf w →
  world_of (exec' op w) = Some w' →
  wf w'
  ∧ (reg_ok w → reg_ok w')
  ∧ (∀ k l, registry w !! k = Some l → registry w' !! k = Some l)
  ∧ (∀ k, k ∈ Object_prototype_keys →
       registry w !! k = None → registry w' !! k = None)
  ∧ (∀ l o, objs w !! l = Some o →
       objs w' !! l
       = Some {| logger := logger o; children := children o ++ appended op w l |}).
Proof.
  intros Hwf Hrun.
  assert (∀ w1 : KWorld,
            wf w1 → registry w1 = registry w → objs w1 = objs w →
            wf w1 ∧ (reg_ok w → reg_ok w1)
            ∧ (∀ k l, registry w !! k = Some l → registry w1 !! k = Some l)
            ∧ (∀ k, k ∈ Object_prototype_keys →
                 registry w !! k = None → registry w1 !! k = None)
            ∧ (∀ l o, objs w !! l = Some o →
                 objs w1 !! l
                 = Some {| logger := logger o; children := children o ++ [] |}))
    as Hsame.
  { intros w1 Hwf1 Hr Ho. split_and!; [done| | | |].
    - intros Hreg. eapply reg_ok_grow; [done..|]. by rewrite Ho.
    - by rewrite Hr.
    - by rewrite Hr.
    - intros l o Hl. by rewrite Ho, obj_eta. }
  assert (∀ this message args method,
            world_of ((self ← Logger.deref this;
                       handle_emit emit_throws method (logger self) message args) w)
            = Some w' →
            wf w' ∧ (reg_ok w → reg_ok w')
            ∧ (∀ k l, registry w !! k = Some l → registry w' !! k = Some l)
            ∧ (∀ k, k ∈ Object_prototype_keys →
                 registry w !! k = None → registry w' !! k = None)
            ∧ (∀ l o, objs w !! l = Some o →
                 objs w' !! l
                 = Some {| logger := logger o; children := children o ++ [] |}))
    as Hemit.
  { intros this message args method Hw.
    destruct (objs w !! this) as [self|] eqn:Hself.
    - erewrite bind_Ok in Hw; last by (unfold Logger.deref; rewrite Hself).
      rewrite emit_world in Hw. simplify_eq.
      apply Hsame; [|done..]. by eapply wf_same_shape.
    - by rewrite deref_None in Hw. }
  destruct op as [s|this b|this level|this m args|this m args|this m args
                  |this m args|this m args];
    unfold exec in Hrun; rewrite world_of_bind_ret in Hrun;
    unfold appended; try (by eapply Hemit).
  - (* getInstance *)
    rewrite getInstance_runs in Hrun. cbv zeta in Hrun.
    destruct (registry w !! or_default s Keyed.DEFAULT_SERVICE_NAME) as [l|] eqn:Hreg.
    { simpl in Hrun. simplify_eq. by apply Hsame. }
    destruct (decide (_ ∈ Object_prototype_keys)).
    { simpl in Hrun. simplify_eq. by apply Hsame. }
    simpl in Hrun. simplify_eq. split_and!.
    + by apply wf_new_root.
    + rewrite !reg_ok_alt. simpl. intros [H1 H2]. split.
      * intros k l [[<- <-]|[Hne Hk]]%lookup_insert_Some; rewrite length_app; simpl;
          [lia|]. specialize (H1 k l Hk). lia.
      * intros k k' l [[<- <-]|[Hne Hk]]%lookup_insert_Some
                      [[Heq Hl]|[Hne' Hk']]%lookup_insert_Some; subst; try done.
        -- specialize (H1 k' _ Hk'). lia.
        -- specialize (H1 k _ Hk). lia.
        -- by eapply H2.
    + simpl. intros k l Hk. rewrite lookup_insert_ne; [done|].
      intros Heq. rewrite <- Heq in Hk. by rewrite Hreg in Hk.
    + simpl. intros k Hin Hk. rewrite lookup_insert_ne; [done|]. by intros <-.
    + simpl. intros l o Hl. rewrite obj_eta. by apply lookup_app_l_Some.
  - (* child *)
    unfold child in Hrun.
    destruct (objs w !! this) as [self|] eqn:Hself.
    2:{ unfold Logger.child in Hrun. by rewrite deref_None in Hrun. }
    destruct (wf_shape_ok w Hwf this self Hself) as [Hh _].
    destruct (lookup_lt_is_Some_2 _ _ Hh) as [lvl Hlvl].
    erewrite child_runs in Hrun by done. simpl in Hrun. simplify_eq.
    pose proof (lookup_lt_Some _ _ _ Hself) as Hlt.
    split_and!.
    + by apply wf_new_child.
    + intros Hreg. eapply reg_ok_grow; [done..|]. simpl.
      rewrite length_insert, length_app. lia.
    + done.
    + done.
    + simpl. intros l o Hl. destruct (decide (this = l)) as [->|Hne].
      * simplify_eq. rewrite list_lookup_insert_eq; [done|].
        rewrite length_app. lia.
      * rewrite list_lookup_insert_ne by done. rewrite obj_eta.
        by apply lookup_app_l_Some.
  - (* setLogLevel *)
    destruct (objs w !! this) as [self|] eqn:Hself.
    2:{ by rewrite setLogLevel_None in Hrun. }
    destruct (setLogLevel_spec level this w) as (order & _ & Hspec).
    { by apply wf_shape_ok. }
    { by eapply lookup_lt_Some. }
    rewrite Hspec in Hrun. simpl in Hrun. simplify_eq.
    apply Hsame; [|done..].
    eapply wf_same_shape; [done..|]. apply set_levels_length.
Qed.
Lemma extends_refl (w : KWorld) : extends w w.
Proof. split_and!; [done..|]. intros l o Hl. by exists o. Qed.

Lemma extends_trans (w1 w2 w3 : KWorld) :
  extends w1 w2 → extends w2 w3 → extends w1 w3.
Proof.
  intros (A1 & B1 & C1) (A2 & B2 & C2). split_and!.
  - intros k l Hk. by apply A2, A1.
  - intros k Hin Hk. by apply B2, B1.
  - intros l o Hl. destruct (C1 l o Hl) as (o' & Hl' & Hh' & Hp').
    destruct (C2 l o' Hl') as (o'' & Hl'' & Hh'' & Hp'').
    exists o''. split_and!; [done|congruence|by etrans].
Qed.

Lemma step_inv (w w' : KWorld) :
  wf w → step' w w' → wf w' ∧ (reg_ok w → reg_ok w') ∧ extends w w'.
Proof.
  intros Hwf [op w1 Hrun|e].
  - destruct (exec_inv op w w1 Hwf Hrun) as (H1 & H2 & H3 & H4 & H5).
    split_and!; [done..|]. split_and!; [done..|].
    intros l o Hl. eexists. split_and!; [by apply H5|done|].
    by apply prefix_app_r.
  - split_and!; [by eapply wf_same_shape|done|exact (extends_refl w)].
Qed.

Lemma steps_inv (w w' : KWorld) :
  wf w → steps' w w' → wf w' ∧ (reg_ok w → reg_ok w') ∧ extends w w'.
Proof.
  intros Hwf Hsteps. induction Hsteps as [w|w w1 w2 Hstep _ IH].
  - split_and!; [done..|apply extends_refl].
  - destruct (step_inv w w1 Hwf Hstep) as (H1 & H2 & H3).
    destruct (IH H1) as (H1' & H2' & H3').
    split_and!; [done|auto|by eapply extends_trans].
Qed.

(** Every world a run can reach is well-formed, and so is its registry. *)
Lemma reachable_wf (w : KWorld) : reachable' w → wf w ∧ reg_ok w.
Proof.
  intros [e Hsteps].
  assert (wf (init e)) as Hwf0 by (repeat split; constructor).
  assert (reg_ok (init e)) as Hreg0 by (split; apply map_Forall_empty).
  destruct (steps_inv _ _ Hwf0 Hsteps) as (H1 & H2 & _). auto.
Qed.

(** In a well-formed world a call on an existing instance returns or
    throws; it is never stuck. *)
Lemma exec_progress op (w : KWorld) :
  wf w →
  (∀ this, receiver op = Some this → this < length (objs w)) →
  ∃ w', world_of (exec' op w) = Some w'.
Proof.
  intros Hwf Hrecv.
  assert (∀ this, receiver op = Some this → ∃ self, objs w !! this = Some self)
    as Hself.
  { intros this Hthis. apply lookup_lt_is_Some_2. by apply Hrecv. }
  pose proof (wf_shape_ok w Hwf) as Hs.
  destruct op as [s|this b|this level|this m args|this m args|this m args
                  |this m args|this m args];
    unfold exec; rewrite world_of_bind_ret;
    try (destruct (Hself this eq_refl) as [self Hthis]).
  - rewrite getInstance_runs. cbv zeta.
    destruct (registry w !! _); [by eexists|].
    destruct (decide _); by eexists.
  - destruct (Hs this self Hthis) as [Hh _].
    destruct (lookup_lt_is_Some_2 _ _ Hh) as [lvl Hlvl].
    unfold child. erewrite child_runs by done. by eexists.
  - destruct (setLogLevel_spec level this w Hs) as (order & _ & ->);
      [by eapply lookup_lt_Some|]. by eexists.
  - unfold Logger.fatal. erewrite bind_Ok; last by (unfold Logger.deref; rewrite Hthis).
    unfold handle_fatal. rewrite emit_world. by eexists.
  - unfold Logger.error. erewrite bind_Ok; last by (unfold Logger.deref; rewrite Hthis).
    unfold handle_error. rewrite emit_world. by eexists.
  - unfold Logger.warn. erewrite bind_Ok; last by (unfold Logger.deref; rewrite Hthis).
    unfold handle_warn. rewrite emit_world. by eexists.
  - unfold Logger.info. erewrite bind_Ok; last by (unfold Logger.deref; rewrite Hthis).
    unfold handle_info. rewrite emit_world. by eexists.
  - unfold Logger.debug. erewrite bind_Ok; last by (unfold Logger.deref; rewrite Hthis).
    unfold handle_debug. rewrite emit_world. by eexists.
Qed.

(** C9.  Every call of the public interface on an existing instance of a
    well-formed world returns or throws, and it leaves each instance with
    the handle it had and with the children it had, in the same order.
    Only [child] adds to a list of children: one entry, the instance it
    creates, at the end of the list of the receiver. *)
Theorem children_append_only op (w : KWorld) :
  wf w →
  (∀ this, receiver op = Some this → this < length (objs w)) →
  ∃ w',
    world_of (exec' op w) = Some w'
    ∧ (∀ l o, objs w !! l = Some o →
         objs w' !! l
         = Some {| logger := logger o;
                   children := children o ++
                     match op with
                     | OpChild this _ =>
                         if decide (this = l) then [length (objs w)] else []
                     | _ => []
                     end |})
    ∧ match op with
      | OpChild _ _ =>
          objs w !! length (objs w) = None
          ∧ is_Some (objs w' !! length (objs w))
      | _ => True
      end.
Proof.
  intros Hwf Hrecv.
  destruct (exec_progress op w Hwf Hrecv) as [w' Hrun].
  exists w'. split; [done|].
  destruct (exec_inv op w w' Hwf Hrun) as (_ & _ & _ & _ & H5).
  split; [exact H5|].
  destruct op as [| this b | | | | | |]; try done.
  split; [by apply lookup_ge_None|].
  unfold exec in Hrun. rewrite world_of_bind_ret in Hrun.
  destruct (lookup_lt_is_Some_2 _ _ (Hrecv this eq_refl)) as [self Hthis].
  destruct (wf_shape_ok w Hwf this self Hthis) as [Hh _].
  destruct (lookup_lt_is_Some_2 _ _ Hh) as [lvl Hlvl].
  unfold child in Hrun. erewrite child_runs in Hrun by done.
  simpl in Hrun. simplify_eq. simpl.
  apply lookup_lt_is_Some_2. rewrite length_insert, length_app. simpl. lia.
Qed.
(** ** The registry *)

Lemma default_not_inherited :
  Keyed.DEFAULT_SERVICE_NAME ∉ Object_prototype_keys.
Proof. by apply (bool_decide_unpack _). Qed.

(** Once a root is cached under the key of [s1], every later
    [getInstance(s1)] returns it and changes nothing; so does
    [getInstance(s2)] when [s2] has the same key, and a name with another
    key gets another root. *)
Lemma cached_stable (w1 : KWorld) (s1 : string) (l1 : loc) :
  wf w1 → reg_ok w1 →
  registry w1 !! key_of s1 = Some l1 →
  ∀ w2, steps' w1 w2 →
    Keyed.getInstance LOG_DIR cwd (Some s1) w2 = Ok (RefLogger l1) w2
    ∧ ∀ s2,
        (key_of s2 = key_of s1 →
           Keyed.getInstance LOG_DIR cwd (Some s2) w2 = Ok (RefLogger l1) w2)
        ∧ (key_of s2 ≠ key_of s1 → key_of s2 ∉ Object_prototype_keys →
             ∃ l2 w3,
               Keyed.getInstance LOG_DIR cwd (Some s2) w2 = Ok (RefLogger l2) w3
               ∧ l2 ≠ l1
               ∧ registry w3 !! key_of s2 = Some l2
               ∧ is_Some (objs w3 !! l2)).
Proof.
  intros Hwf Hreg Hl w2 Hsteps.
  destruct (steps_inv w1 w2 Hwf Hsteps) as (Hwf2 & Hreg2 & (Hmono & _ & _)).
  specialize (Hreg2 Hreg). apply reg_ok_alt in Hreg2 as [Hb Hinj].
  pose proof (Hmono _ _ Hl) as Hl2.
  assert (∀ s, key_of s = key_of s1 →
            Keyed.getInstance LOG_DIR cwd (Some s) w2 = Ok (RefLogger l1) w2)
    as Hsame.
  { intros s Hs. rewrite getInstance_runs. cbv zeta. fold (key_of s).
    by rewrite Hs, Hl2. }
  split; [by apply Hsame|]. intros s2. split; [by apply Hsame|].
  intros Hne Hnin. rewrite getInstance_runs. cbv zeta. fold (key_of s2).
  destruct (registry w2 !! key_of s2) as [l2|] eqn:Hl2'.
  - exists l2, w2. split_and!; [done| |done|].
    + intros ->. apply Hne. by eapply Hinj.
    + apply lookup_lt_is_Some_2. by eapply Hb.
  - rewrite decide_False by done. eexists _, _. split_and!; [done| | |].
    + specialize (Hb _ _ Hl2). lia.
    + simpl. by rewrite lookup_insert_eq.
    + simpl. apply lookup_lt_is_Some_2. rewrite length_app. simpl. lia.
Qed.

(** C1, as the code has it.  The key of a service name is the name itself,
    or the default service name when the name is empty.  Take names whose
    keys are not property names inherited from [Object.prototype].  In a
    well-formed world [getInstance(s1)] returns a root that is cached
    under the key of [s1].  After any further run, [getInstance(s1)]
    returns the identical root and changes nothing; [getInstance(s2)]
    returns that same root when the key of [s2] is the key of [s1], and a
    different root when it is not. *)
Theorem getInstance_identity (w : KWorld) (s1 : string) :
  wf w → reg_ok w →
  key_of s1 ∉ Object_prototype_keys →
  ∃ l1 w1,
    Keyed.getInstance LOG_DIR cwd (Some s1) w = Ok (RefLogger l1) w1
    ∧ registry w1 !! key_of s1 = Some l1
    ∧ is_Some (objs w1 !! l1)
    ∧ ∀ w2, steps' w1 w2 →
        Keyed.getInstance LOG_DIR cwd (Some s1) w2 = Ok (RefLogger l1) w2
        ∧ ∀ s2,
            (key_of s2 = key_of s1 →
               Keyed.getInstance LOG_DIR cwd (Some s2) w2 = Ok (RefLogger l1) w2)
            ∧ (key_of s2 ≠ key_of s1 → key_of s2 ∉ Object_prototype_keys →
                 ∃ l2 w3,
                   Keyed.getInstance LOG_DIR cwd (Some s2) w2
                   = Ok (RefLogger l2) w3
                   ∧ l2 ≠ l1
                   ∧ registry w3 !! key_of s2 = Some l2
                   ∧ is_Some (objs w3 !! l2)).
Proof.
  intros Hwf Hreg Hnin.
  pose proof (getInstance_runs LOG_DIR cwd w (Some s1)) as Hrun.
  cbv zeta in Hrun. fold (key_of s1) in Hrun.
  destruct (registry w !! key_of s1) as [l|] eqn:Hl.
  - (* already cached *)
    eexists _, _. split; [exact Hrun|]. split; [done|]. split.
    + apply reg_ok_alt in Hreg as [Hb _]. apply lookup_lt_is_Some_2. by eapply Hb.
    + by apply cached_stable.
  - (* a new root *)
    rewrite decide_False in Hrun by done.
    eexists _, _. split; [exact Hrun|].
    match type of Hrun with _ = Ok _ ?x => set (w1 := x) in * end.
    assert (world_of (exec' (OpGetInstance (Some s1)) w) = Some w1) as Hexec.
    { unfold exec. by rewrite world_of_bind_ret, Hrun. }
    destruct (exec_inv _ _ _ Hwf Hexec) as (Hwf1 & Hreg1 & _).
    assert (registry w1 !! key_of s1 = Some (length (objs w))) as Hl1
      by (subst w1; simpl; by rewrite lookup_insert_eq).
    split; [done|]. split.
    + subst w1. simpl. apply lookup_lt_is_Some_2. rewrite length_app. simpl. lia.
    + apply cached_stable; auto.
Qed.

(** C2.  In the keyed registry, [getInstance] without an argument, or
    with the empty string, behaves as [getInstance] with the default
    service name: the same
    value and the same world come out.  A call with the default name right
    after it returns the identical value.  If no root was cached under the
    default name, the root that is made is configured with the default
    service name. *)
Theorem getInstance_default (w : KWorld) (s : option string) :
  s = None ∨ s = Some "" →
  Keyed.getInstance LOG_DIR cwd s w
  = Keyed.getInstance LOG_DIR cwd (Some Keyed.DEFAULT_SERVICE_NAME) w
  ∧ ∃ r w1,
      Keyed.getInstance LOG_DIR cwd s w = Ok r w1
      ∧ Keyed.getInstance LOG_DIR cwd (Some Keyed.DEFAULT_SERVICE_NAME) w1 = Ok r w1
      ∧ Keyed.getInstance LOG_DIR cwd s w1 = Ok r w1
      ∧ match registry w !! Keyed.DEFAULT_SERVICE_NAME with
        | Some l => r = RefLogger l ∧ w1 = w
        | None =>
            ∃ cfg stream,
              r = RefLogger (length (objs w))
              ∧ calls w1 = calls w ++ [CallPino cfg stream (length (levels w))]
              ∧ opt_base cfg !! "service" = Some (JStr Keyed.DEFAULT_SERVICE_NAME)
              ∧ objs w1 !! length (objs w)
                = Some {| logger := length (levels w); children := [] |}
              ∧ registry w1 !! Keyed.DEFAULT_SERVICE_NAME = Some (length (objs w))
        end.
Proof.
  intros Hs.
  assert (∀ w', Keyed.getInstance LOG_DIR cwd s w'
                = Keyed.getInstance LOG_DIR cwd (Some Keyed.DEFAULT_SERVICE_NAME) w')
    as Heq by (by destruct Hs as [-> | ->]).
  split; [apply Heq|]. rewrite !Heq.
  pose proof default_not_inherited as Hnin.
  assert (∀ w' l, registry w' !! Keyed.DEFAULT_SERVICE_NAME = Some l →
            Keyed.getInstance LOG_DIR cwd (Some Keyed.DEFAULT_SERVICE_NAME) w'
            = Ok (RefLogger l) w') as Hhit.
  { intros w' l Hl. rewrite getInstance_runs. cbv zeta.
    change (or_default _ _) with Keyed.DEFAULT_SERVICE_NAME. by rewrite Hl. }
  destruct (registry w !! Keyed.DEFAULT_SERVICE_NAME) as [l|] eqn:Hl.
  - exists (RefLogger l), w. rewrite !Heq, !(Hhit w l) by done. done.
  - rewrite getInstance_runs. cbv zeta.
    change (or_default _ _) with Keyed.DEFAULT_SERVICE_NAME.
    rewrite Hl, decide_False by done.
    eexists _, _. split; [reflexivity|].
    rewrite !Heq.
    rewrite !(Hhit _ (length (objs w))) by (simpl; by rewrite lookup_insert_eq).
    split_and!; [done..|]. eexists _, _. split_and!; [done..| | |].
    + destruct (decide _); simpl.
      * rewrite lookup_insert_ne by done. rewrite lookup_insert_ne by done.
        by rewrite lookup_singleton_eq.
      * by rewrite lookup_singleton_eq.
    + simpl. by rewrite lookup_app_r, Nat.sub_diag.
    + simpl. by rewrite lookup_insert_eq.
Qed.
(** ** The configuration of a root *)

(** C7.  Constructing a root makes exactly one call to the backend, the
    construction of its handle.  When the trimmed, lower-cased value of
    [NODE_ENV] (the empty string when it is unset or empty) is
    ["production"], the call has the production configuration and no
    stream; otherwise it has the pretty stream and a configuration with
    level ["debug"], base fields [{service: name}] and nothing else.  An
    unset [NODE_ENV] selects the latter.  [getInstance] constructs a root
    this way when its key is neither cached nor inherited, and calls the
    backend in no other case. *)
Theorem root_configuration (w : KWorld) (name : string) (s : option string) :
  let production :=
    toLowerCase (trim (or_default (NODE_ENV (env w)) "")) = "production" in
  let made :=
    if decide production
    then (Logger.prodConfig (Keyed.logFile LOG_DIR cwd) (env w) name, None)
    else ({| opt_transport := None;
             opt_level := "debug";
             opt_timestamp := None;
             opt_messageKey := None;
             opt_base := {["service" := JStr name]} |},
          Some prettyStream) in
  (∃ w1,
     Keyed.constructor LOG_DIR cwd (ParamString name) w
     = Ok (length (objs w)) w1
     ∧ calls w1 = calls w ++ [CallPino made.1 made.2 (length (levels w))]
     ∧ objs w1 = objs w ++ [{| logger := length (levels w); children := [] |}]
     ∧ levels w1 = levels w ++ [opt_level made.1])
  ∧ match NODE_ENV (env w) with
    | None => made.2 = Some prettyStream
    | Some _ => True
    end
  ∧ ∃ r w2,
      Keyed.getInstance LOG_DIR cwd s w = Ok r w2
      ∧ match registry w !! or_default s Keyed.DEFAULT_SERVICE_NAME with
        | Some _ => calls w2 = calls w
        | None =>
            if decide (or_default s Keyed.DEFAULT_SERVICE_NAME
                       ∈ Object_prototype_keys)
            then calls w2 = calls w
            else ∃ cfg stream h, calls w2 = calls w ++ [CallPino cfg stream h]
        end.
Proof.
  intros production made. split_and!.
  - unfold Keyed.constructor. rewrite constructor_root_runs. cbv zeta.
    eexists. split; [reflexivity|]. simpl.
    unfold made, production, Logger.normalized_env, Logger.devConfig.
    by destruct (decide _).
  - unfold made, production. destruct (NODE_ENV (env w)) eqn:E; [done|].
    by rewrite decide_False.
  - rewrite getInstance_runs. cbv zeta.
    destruct (registry w !! _); [by eexists _, _|].
    destruct (decide (_ ∈ _)); [by eexists _, _|].
    eexists _, _. split; [done|]. simpl. by eexists _, _, _.
Qed.

(** C6.  In the keyed version, with [NODE_ENV] equal to ["production"],
    [npm_package_version] equal to ["9.8.7"] and no root cached for
    ["svcProd"],
    [getInstance("svcProd")] constructs the handle of the root with level
    ["info"], one transport target of kind ["pino/file"] whose destination
    is the file [app.log] in the log directory, message key ["message"],
    and base fields exactly [env], [version] and [service] with the values
    ["production"], ["9.8.7"] and ["svcProd"].  The log directory is
    [LOG_DIR], or [logs] in the working directory when [LOG_DIR] is not
    set. *)
Theorem production_config (w : KWorld) :
  NODE_ENV (env w) = Some "production" →
  npm_package_version (env w) = Some "9.8.7" →
  registry w !! "svcProd" = None →
  ∃ w1 cfg t,
    Keyed.getInstance LOG_DIR cwd (Some "svcProd") w
    = Ok (RefLogger (length (objs w))) w1
    ∧ calls w1 = calls w ++ [CallPino cfg None (length (levels w))]
    ∧ opt_level cfg = "info"
    ∧ opt_transport cfg = Some [t]
    ∧ target t = "pino/file"
    ∧ target_level t = "info"
    ∧ destination t = path_join [Keyed.logDir LOG_DIR cwd; "app.log"]
    ∧ destination t = dir_prefix (Keyed.logDir LOG_DIR cwd) +:+ "app.log"
    ∧ Keyed.logDir LOG_DIR cwd
      = match LOG_DIR with
        | Some dir => dir
        | None => dir_prefix cwd +:+ "logs"
        end
    ∧ opt_messageKey cfg = Some "message"
    ∧ opt_base cfg
      = list_to_map [("env", JStr "production"); ("version", JStr "9.8.7");
                     ("service", JStr "svcProd")].
Proof.
  intros Henv Hver Hreg.
  rewrite getInstance_runs. cbv zeta.
  change (or_default (Some "svcProd") _) with "svcProd".
  rewrite Hreg.
  rewrite decide_False by (by apply (bool_decide_unpack _)).
  rewrite decide_True by (unfold Logger.normalized_env; by rewrite Henv).
  eexists _, _, _. split; [reflexivity|]. simpl.
  split_and!; try reflexivity.
  - apply path_join_app_log.
  - unfold Keyed.logDir. destruct LOG_DIR; [done|]. apply path_join_logs.
  - unfold Logger.prodConfig. simpl. by rewrite Henv, Hver.
Qed.
End RunFacts.

(** ** The single-instance version *)

(** In the version with [static instance], the first call makes the root
    and every later call returns it, whatever name is asked for. *)
Lemma single_instance_shared pkg_name dirname (w : World (option loc))
    (s1 s2 : option string) :
  ∃ l w1,
    Single.getInstance pkg_name dirname s1 w = Ok l w1
    ∧ Single.getInstance pkg_name dirname s2 w1 = Ok l w1.
Proof.
  unfold Single.getInstance.
  destruct (registry w) as [l|] eqn:Hreg.
  - exists l, w. split.
    + erewrite bind_Ok; last by (unfold Single.get_instance). by rewrite Hreg.
    + erewrite bind_Ok; last by (unfold Single.get_instance). by rewrite Hreg.
  - assert (∃ w1, Single.constructor pkg_name dirname
                    (match s1 with
                     | Some s => ParamString s
                     | None => ParamUndefined
                     end) w = Ok (length (objs w)) w1) as [w1 Hnew].
    { unfold Single.constructor.
      destruct s1; [|rewrite constructor_undefined];
        rewrite constructor_root_runs; by eexists. }
    eexists _, _. split.
    + erewrite bind_Ok; last by (unfold Single.get_instance). rewrite Hreg.
      erewrite bind_Ok; last exact Hnew. reflexivity.
    + done.
Qed.

(** ** Worked instances *)

(** The claim C1 does not hold as it is written: the empty string and the
    default service name are distinct service names, and [getInstance]
    returns the same root for both. *)
Lemma getInstance_empty_name_shares_default_root :
  "" ≠ Keyed.DEFAULT_SERVICE_NAME
  ∧ ∃ w1 w2,
      Keyed.getInstance None "/srv/app" (Some "") (KeyedRun.init dev_env)
      = Ok (RefLogger 0) w1
      ∧ Keyed.getInstance None "/srv/app" (Some Keyed.DEFAULT_SERVICE_NAME) w1
        = Ok (RefLogger 0) w2.
Proof.
  split; [done|]. eexists _, _. split; reflexivity.
Qed.

(** The claim C2 does not hold of the single-instance version: there the
    empty string is not replaced, and the first call [getInstance("")]
    makes the root with the service name [""], which is not the default
    service name. *)
Lemma single_getInstance_empty_name_not_default :
  Single.DEFAULT_SERVICE_NAME (Some "@yyberi/logger") = "@yyberi/logger"
  ∧ ∃ w1 cfg stream,
      Single.getInstance (Some "@yyberi/logger") "/srv/app/dist" (Some "")
        (SingleRun.init dev_env) = Ok 0 w1
      ∧ calls w1 = [CallPino cfg stream 0]
      ∧ opt_base cfg !! "service" = Some (JStr "")
      ∧ opt_base cfg !! "service"
        ≠ Some (JStr (Single.DEFAULT_SERVICE_NAME (Some "@yyberi/logger"))).
Proof.
  split; [reflexivity|].
  exists (mkWorld (Some 0) [ {| logger := 0; children := [] |} ] ["debug"]
            [CallPino (Logger.devConfig "") (Some prettyStream) 0] dev_env),
         (Logger.devConfig ""), (Some prettyStream).
  split; [vm_compute; reflexivity|]. split; [reflexivity|].
  assert (opt_base (Logger.devConfig "") !! "service" = Some (JStr "")) as Hs
    by (vm_compute; reflexivity).
  split; [exact Hs|]. rewrite Hs. discriminate.
Qed.

(** The claim C6 does not hold of the single-instance version: there the
    production destination is [logs/app.log] beside the directory of the
    module, whatever [LOG_DIR] and the working directory are.  With the
    module in [/srv/app/dist] it is [/srv/app/logs/app.log], whereas the
    log file of the keyed version is [/my/logs/app.log] for
    [LOG_DIR=/my/logs], and [/work/logs/app.log] in the working directory
    [/work] without [LOG_DIR]. *)
Lemma single_production_destination_ignores_LOG_DIR :
  ∃ w1 cfg t,
    NODE_ENV prod_env = Some "production"
    ∧ npm_package_version prod_env = Some "9.8.7"
    ∧ Single.getInstance (Some "@yyberi/logger") "/srv/app/dist"
        (Some "svcProd") (SingleRun.init prod_env) = Ok 0 w1
    ∧ calls w1 = [CallPino cfg None 0]
    ∧ opt_transport cfg = Some [t]
    ∧ destination t = "/srv/app/logs/app.log"
    ∧ Keyed.logFile (Some "/my/logs") "/work" = "/my/logs/app.log"
    ∧ Keyed.logFile None "/work" = "/work/logs/app.log".
Proof.
  set (cfg := Logger.prodConfig (Single.prodDestination "/srv/app/dist")
                prod_env "svcProd").
  exists (mkWorld (Some 0) [ {| logger := 0; children := [] |} ] ["info"]
            [CallPino cfg None 0] prod_env),
         cfg,
         {| target := "pino/file"; target_level := "info";
            destination := Single.prodDestination "/srv/app/dist";
            mkdir := true; sync := false |}.
  split; [reflexivity|]. split; [reflexivity|].
  split; [vm_compute; reflexivity|]. split; [reflexivity|].
  split; [reflexivity|].
  split; [vm_compute; reflexivity|].
  split; vm_compute; reflexivity.
Qed.

Lemma sample_tree_wf : wf sample_tree.
Proof. apply (bool_decide_unpack _). vm_compute. exact I. Defined.

Lemma sample_tree_reg_ok : KeyedRun.reg_ok sample_tree.
Proof. apply (bool_decide_unpack _). vm_compute. exact I. Defined.

(** C1 at the sample tree, for the name ["billing"]. *)
Lemma getInstance_identity_witness :
  wf sample_tree ∧ KeyedRun.reg_ok sample_tree
  ∧ (key_of "billing" ∉ Object_prototype_keys)
  ∧ ∃ l1 w1,
      Keyed.getInstance None "/srv/app" (Some "billing") sample_tree
      = Ok (RefLogger l1) w1
      ∧ ∀ w2, KeyedRun.steps None "/srv/app" never_throws w1 w2 →
          Keyed.getInstance None "/srv/app" (Some "billing") w2
          = Ok (RefLogger l1) w2.
Proof.
  assert (key_of "billing" ∉ Object_prototype_keys) as Hnin.
  { apply (bool_decide_unpack _). vm_compute. exact I. }
  split; [exact sample_tree_wf|]. split; [exact sample_tree_reg_ok|].
  split; [exact Hnin|].
  destruct (getInstance_identity None "/srv/app" never_throws sample_tree
              "billing" sample_tree_wf sample_tree_reg_ok Hnin)
    as (l1 & w1 & Hrun & _ & _ & Hlater).
  exists l1, w1. split; [exact Hrun|].
  intros w2 Hsteps. exact (proj1 (Hlater w2 Hsteps)).
Defined.

(** C2 at the sample tree, for the empty string. *)
Lemma getInstance_default_witness :
  (Some "" = None ∨ Some "" = Some "")
  ∧ Keyed.getInstance None "/srv/app" (Some "") sample_tree
    = Keyed.getInstance None "/srv/app" (Some Keyed.DEFAULT_SERVICE_NAME)
        sample_tree.
Proof.
  split; [by right|].
  exact (proj1 (getInstance_default None "/srv/app" sample_tree (Some "")
                  (or_intror eq_refl))).
Defined.

(** C3 at the root of the sample tree, with the bindings of the test
    suite. *)
Lemma child_renames_name_witness :
  objs sample_tree !! 0 = Some {| logger := 0; children := [1; 2] |}
  ∧ levels sample_tree !! 0 = Some "debug"
  ∧ modA_bindings !! "name" = Some (JStr "modA")
  ∧ ∃ w' l' h',
      Logger.child Keyed.DEFAULT_SERVICE_NAME "/srv/app/logs/app.log"
        0 modA_bindings sample_tree = Ok l' w'
      ∧ calls w'
        = calls sample_tree
          ++ [CallChild 0 ({["module" := JStr "modA"]}
                             ∪ delete "name" modA_bindings) h'].
Proof.
  assert (modA_bindings !! "name" = Some (JStr "modA")) as Hname
    by (vm_compute; reflexivity).
  split; [reflexivity|]. split; [reflexivity|]. split; [exact Hname|].
  destruct (child_renames_name Keyed.DEFAULT_SERVICE_NAME "/srv/app/logs/app.log"
              sample_tree 0 {| logger := 0; children := [1; 2] |} "debug"
              modA_bindings (JStr "modA") eq_refl eq_refl Hname)
    as (w' & l' & h' & Hrun & Hcalls & _).
  exists w', l', h'. split; [exact Hrun | exact Hcalls].
Defined.

(** C4 at the first child of the sample tree. *)
Lemma setLogLevel_cascade_witness :
  wf sample_tree
  ∧ objs sample_tree !! 1 = Some {| logger := 1; children := [3] |}
  ∧ ∃ w' below sent,
      Logger.setLogLevel 1 WARN sample_tree = Ok tt w'
      ∧ preorder (objs sample_tree) 1 (1 :: below)
      ∧ calls w' = calls sample_tree ++ CallSetLevel 1 "warn" :: sent.
Proof.
  split; [exact sample_tree_wf|]. split; [reflexivity|].
  destruct (setLogLevel_cascade sample_tree 1 {| logger := 1; children := [3] |}
              WARN sample_tree_wf eq_refl)
    as (_ & w' & below & sent & Hrun & Hpre & Hcalls & _).
  exists w', below, sent. split; [exact Hrun|]. split; [exact Hpre | exact Hcalls].
Defined.

(** C5 at the first child of the sample tree: the root and the second
    child are not below it. *)
Lemma setLogLevel_frame_witness :
  wf sample_tree
  ∧ objs sample_tree !! 1 = Some {| logger := 1; children := [3] |}
  ∧ ∃ w',
      Logger.setLogLevel 1 WARN sample_tree = Ok tt w'
      ∧ objs w' = objs sample_tree
      ∧ levels w' !! 1 = Some "warn".
Proof.
  split; [exact sample_tree_wf|]. split; [reflexivity|].
  destruct (setLogLevel_frame sample_tree 1 {| logger := 1; children := [3] |}
              WARN sample_tree_wf eq_refl)
    as (w' & Hrun & Hobjs & _ & Hlevels & _).
  exists w'. split; [exact Hrun|]. split; [exact Hobjs|].
  exact (proj1 (Hlevels 1 {| logger := 1; children := [3] |} eq_refl)
           (rtc_refl _ 1)).
Defined.

(** C6 when the module has just been loaded with [LOG_DIR=/my/logs]. *)
Lemma production_config_witness :
  NODE_ENV (env (KeyedRun.init prod_env)) = Some "production"
  ∧ npm_package_version (env (KeyedRun.init prod_env)) = Some "9.8.7"
  ∧ registry (KeyedRun.init prod_env) !! "svcProd" = None
  ∧ ∃ w1 cfg t,
      Keyed.getInstance (Some "/my/logs") "/srv/app" (Some "svcProd")
        (KeyedRun.init prod_env) = Ok (RefLogger 0) w1
      ∧ calls w1 = [CallPino cfg None 0]
      ∧ opt_transport cfg = Some [t]
      ∧ destination t = dir_prefix "/my/logs" +:+ "app.log".
Proof.
  assert (registry (KeyedRun.init prod_env) !! "svcProd" = None) as Hfree
    by (vm_compute; reflexivity).
  split; [reflexivity|]. split; [reflexivity|]. split; [exact Hfree|].
  destruct (production_config (Some "/my/logs") "/srv/app"
              (KeyedRun.init prod_env) eq_refl eq_refl Hfree)
    as (w1 & cfg & t & Hrun & Hcalls & _ & Htr & _ & _ & _ & Hdest & _).
  exists w1, cfg, t. split; [exact Hrun|]. split; [exact Hcalls|].
  split; [exact Htr | exact Hdest].
Defined.

(** C8 at the deepest instance of the sample tree, with a backend that
    throws. *)
Lemma leveled_methods_forward_witness :
  objs sample_tree !! 3 = Some {| logger := 3; children := [] |}
  ∧ Logger.warn always_throws 3 "wmsg" [JNum 3] sample_tree
    = handle_warn always_throws 3 "wmsg" [JNum 3] sample_tree.
Proof.
  split; [reflexivity|].
  destruct (leveled_methods_forward always_throws sample_tree 3
              {| logger := 3; children := [] |} "wmsg" [JNum 3] eq_refl)
    as (_ & _ & [Hwarn _] & _).
  exact Hwarn.
Defined.

(** C9 for [child] on the first child of the sample tree. *)
Lemma children_append_only_witness :
  wf sample_tree
  ∧ (∀ this, KeyedRun.receiver (KeyedRun.OpChild 1 modA_bindings) = Some this →
       this < length (objs sample_tree))
  ∧ ∃ w',
      world_of (KeyedRun.exec None "/srv/app" never_throws
                  (KeyedRun.OpChild 1 modA_bindings) sample_tree) = Some w'
      ∧ objs w' !! 1 = Some {| logger := 1; children := [3; 4] |}
      ∧ objs w' !! 0 = Some {| logger := 0; children := [1; 2] |}.
Proof.
  assert (∀ this, KeyedRun.receiver (KeyedRun.OpChild 1 modA_bindings) = Some this →
            this < length (objs sample_tree)) as Hrecv.
  { intros this H. injection H as <-. simpl. lia. }
  split; [exact sample_tree_wf|]. split; [exact Hrecv|].
  destruct (children_append_only None "/srv/app" never_throws
              (KeyedRun.OpChild 1 modA_bindings) sample_tree
              sample_tree_wf Hrecv)
    as (w' & Hrun & Hkeep & _).
  exists w'. split; [exact Hrun|]. split.
  - exact (Hkeep 1 {| logger := 1; children := [3] |} eq_refl).
  - exact (Hkeep 0 {| logger := 0; children := [1; 2] |} eq_refl).
Defined.

(** C10 at the root of the sample tree: the [module] of the caller is
    lost. *)
Lemma child_module_collision_witness :
  objs sample_tree !! 0 = Some {| logger := 0; children := [1; 2] |}
  ∧ levels sample_tree !! 0 = Some "debug"
  ∧ colliding_bindings !! "name" = Some (JStr "modA")
  ∧ colliding_bindings !! "module" = Some (JStr "mine")
  ∧ ∃ w' l' h' derived,
      Logger.child Keyed.DEFAULT_SERVICE_NAME "/srv/app/logs/app.log"
        0 colliding_bindings sample_tree = Ok l' w'
      ∧ calls w' = calls sample_tree ++ [CallChild 0 derived h']
      ∧ derived !! "module" = Some (JStr "modA").
Proof.
  assert (colliding_bindings !! "name" = Some (JStr "modA")) as Hname
    by (vm_compute; reflexivity).
  assert (colliding_bindings !! "module" = Some (JStr "mine")) as Hmodule
    by (vm_compute; reflexivity).
  split; [reflexivity|]. split; [reflexivity|]. split; [exact Hname|].
  split; [exact Hmodule|].
  destruct (child_module_collision Keyed.DEFAULT_SERVICE_NAME
              "/srv/app/logs/app.log" sample_tree 0
              {| logger := 0; children := [1; 2] |} "debug"
              colliding_bindings (JStr "modA") (JStr "mine")
              eq_refl eq_refl Hname Hmodule)
    as (w' & l' & h' & derived & Hrun & Hcalls & Hmod & _).
  exists w', l', h', derived. split; [exact Hrun|]. split; [exact Hcalls | exact Hmod].
Defined.

(** ** The scenarios of the test suite, evaluated *)

Example normalized_production :
  Logger.normalized_env {| NODE_ENV := Some "  PRODuction ";
                           npm_package_version := None |} = "production".
Proof. vm_compute. reflexivity. Qed.

Example log_file_of_test :
  Keyed.logFile (Some "/my/logs") "/srv/app" = "/my/logs/app.log"
  ∧ Keyed.logFile None "/srv/app" = "/srv/app/logs/app.log".
Proof. split; vm_compute; reflexivity. Qed.

Example child_modA_call :
  ∃ w', Logger.child Keyed.DEFAULT_SERVICE_NAME "/my/logs/app.log" 0
          modA_bindings sample_tree = Ok 4 w'
        ∧ calls w' = [CallChild 0 (<["foo" := JStr "bar"]>
                                     {["module" := JStr "modA"]}) 4]
        ∧ objs w' = [ {| logger := 0; children := [1; 2; 4] |};
                      {| logger := 1; children := [3] |};
                      {| logger := 2; children := [] |};
                      {| logger := 3; children := [] |};
                      {| logger := 4; children := [] |} ].
Proof. eexists. split; [vm_compute; reflexivity|]. split; vm_compute; reflexivity. Qed.

Example setLogLevel_on_first_child :
  ∃ w', Logger.setLogLevel 1 WARN sample_tree = Ok tt w'
        ∧ levels w' = ["debug"; "warn"; "debug"; "warn"]
        ∧ calls w' = [CallSetLevel 1 "warn"; CallSetLevel 3 "warn"].
Proof. eexists. split; [vm_compute; reflexivity|]. split; reflexivity. Qed.

Example setLogLevel_on_root :
  ∃ w', Logger.setLogLevel 0 ERROR sample_tree = Ok tt w'
        ∧ calls w' = [CallSetLevel 0 "error"; CallSetLevel 1 "error";
                      CallSetLevel 3 "error"; CallSetLevel 2 "error"].
Proof. eexists. split; [vm_compute; reflexivity|]. reflexivity. Qed.

Example getInstance_inherited_name :
  Keyed.getInstance None "/srv/app" (Some "constructor") (KeyedRun.init dev_env)
  = Ok (RefInherited "constructor") (KeyedRun.init dev_env).
Proof. vm_compute. reflexivity. Qed.

Example info_throws_when_backend_throws :
  Logger.info always_throws 2 "imsg" [JNum 4] sample_tree
  = Throw (JStr "EIO")
      (record_call (CallEmit 2 INFO "imsg" [JNum 4]) sample_tree).
Proof. vm_compute. reflexivity. Qed.

(** In the single-instance version the empty name is kept as the service
    name, and a second name gets the root of the first. *)
Example single_instance_empty_name :
  ∃ w1, Single.getInstance (Some "@yyberi/logger") "/srv/app/dist" (Some "")
          (mkWorld None [] [] [] dev_env) = Ok 0 w1
        ∧ calls w1 = [CallPino (Logger.devConfig "") (Some prettyStream) 0]
        ∧ Single.getInstance (Some "@yyberi/logger") "/srv/app/dist"
            (Some "other") w1 = Ok 0 w1.
Proof. eexists. split; [vm_compute; reflexivity|]. split; vm_compute; reflexivity. Qed.

(** * Further properties *)

(** ** [child] on bindings without a name *)

Section MoreChildFacts.
Context {R : Type}.
Variable DEFAULT_SERVICE_NAME : string.
Variable prodDestination : string.

(** X1.  When [bindings] has no [name] field, [child] still returns a new
    instance: the backend is asked for a child with all the fields of
    [bindings] and with [module] bound to [undefined].  A [module] field
    of [bindings] is overwritten by that [undefined]. *)
Theorem child_without_name (w : World R) this self lvl (bindings : JsObj) :
  objs w !! this = Some self →
  levels w !! logger self = Some lvl →
  bindings !! "name" = None →
  ∃ w' derived,
    Logger.child DEFAULT_SERVICE_NAME prodDestination this bindings w
    = Ok (length (objs w)) w'
    ∧ calls w' = calls w ++ [CallChild (logger self) derived (length (levels w))]
    ∧ derived !! "module" = Some JUndefined
    ∧ (∀ k, k ≠ "module" → derived !! k = bindings !! k)
    ∧ objs w' !! this
      = Some {| logger := logger self;
                children := children self ++ [length (objs w)] |}.
Proof.
  intros Hthis Hlvl Hname.
  pose proof (lookup_lt_Some _ _ _ Hthis) as Hlt.
  eexists _, _. split; [by eapply child_runs|]. simpl.
  split; [done|].
  assert (get_prop bindings "name" = JUndefined) as ->
    by (unfold get_prop; by rewrite Hname).
  split_and!.
  - by rewrite lookup_insert_eq.
  - intros k Hk. rewrite lookup_insert_ne by done.
    destruct (decide (k = "name")) as [->|Hne].
    + by rewrite lookup_delete_eq, Hname.
    + by rewrite lookup_delete_ne.
  - rewrite list_lookup_insert_eq; [done|]. rewrite length_app. lia.
Qed.
End MoreChildFacts.

(** ** More on the cascade *)

Lemma NoDup_concat_elem {A} (ls : list (list A)) (l : list A) :
  NoDup (concat ls) → l ∈ ls → NoDup l.
Proof.
  induction ls as [|l0 ls IH]; intros Hnd Hin; [by apply elem_of_nil in Hin|].
  simpl in Hnd. apply NoDup_app in Hnd as (H1 & _ & H2).
  apply elem_of_cons in Hin as [->|Hin]; auto.
Qed.

Lemma wf_children_NoDup {R} (w : World R) p o :
  wf w → objs w !! p = Some o → NoDup (children o).
Proof.
  intros (_ & _ & _ & Hnd) Hp. eapply NoDup_concat_elem; [exact Hnd|].
  apply list_elem_of_fmap. exists o. split; [done|].
  by eapply list_elem_of_lookup_2.
Qed.

(** The other children of its parent are not below an instance. *)
Lemma sibling_not_below {R} (w : World R) p a b :
  wf w → is_child (objs w) p a → is_child (objs w) p b → a ≠ b →
  ¬ descendant (objs w) a b.
Proof.
  intros Hwf Hpa Hpb Hne Hd. pose proof (wf_shape_ok w Hwf) as Hs.
  apply rtc_inv_r in Hd as [->|(q & Hq & Hqb)]; [done|].
  assert (q = p) as -> by by eapply wf_unique_parent.
  pose proof (descendant_ge _ _ _ _ Hs Hq).
  destruct Hpa as (o & Ho & Hin). destruct (Hs p o Ho) as [_ Hc].
  specialize (Hc a Hin). lia.
Qed.

(** The instances above an instance form a chain. *)
Lemma ancestors_chain {R} (w : World R) m :
  wf w →
  ∀ a b, descendant (objs w) a m → descendant (objs w) b m →
    descendant (objs w) a b ∨ descendant (objs w) b a.
Proof.
  intros Hwf. pose proof (wf_shape_ok w Hwf) as Hs.
  induction (lt_wf m) as [m _ IH]. intros a b Ha Hb.
  apply rtc_inv_r in Ha as [->|(q & Hq & Hqm)]; [by right|].
  apply rtc_inv_r in Hb as [->|(q' & Hq' & Hqm')].
  { left. eapply rtc_r; eauto. }
  assert (q' = q) as -> by by eapply wf_unique_parent.
  apply (IH q); [|done..].
  destruct Hqm as (o & Ho & Hin). destruct (Hs q o Ho) as [_ Hc].
  specialize (Hc m Hin). lia.
Qed.

Lemma preorder_children_sound os cs below m :
  preorder_children os cs below → m ∈ below →
  ∃ c, c ∈ cs ∧ descendant os c m.
Proof.
  induction 1 as [|c cs first others Hc Hcs IH]; intros Hm.
  - by apply elem_of_nil in Hm.
  - apply elem_of_app in Hm as [Hm|Hm].
    + exists c. split; [by left|]. by eapply preorder_sound.
    + destruct (IH Hm) as (c' & Hc' & Hd). exists c'. split; [by right|done].
Qed.

(** In a well-formed world a pre-order lists no instance twice. *)
Lemma preorder_NoDup {R} (w : World R) :
  wf w → ∀ this order, preorder (objs w) this order → NoDup order.
Proof.
  intros Hwf. pose proof (wf_shape_ok w Hwf) as Hs.
  intros this order H.
  refine (preorder_mut (objs w)
    (λ this order _, NoDup order)
    (λ cs below _,
       NoDup cs →
       (∀ c c', c ∈ cs → c' ∈ cs → c ≠ c' → ¬ descendant (objs w) c c') →
       NoDup below) _ _ _ this order H).
  - intros t self below Ht Hch IH. apply NoDup_cons. split.
    + intros Hin.
      destruct (preorder_children_sound _ _ _ _ Hch Hin) as (c & Hc & Hd).
      pose proof (descendant_ge _ _ _ _ Hs Hd).
      destruct (Hs t self Ht) as [_ Hb]. specialize (Hb c Hc). lia.
    + apply IH; [by eapply wf_children_NoDup|].
      intros c c' Hc Hc' Hne. eapply sibling_not_below; [done| | |done].
      * by exists self.
      * by exists self.
  - intros _ _. constructor.
  - intros c cs first others Hc IH1 Hcs IH2 Hnd Hunrel.
    apply NoDup_cons in Hnd as [Hnotin Hnd].
    apply NoDup_app. split_and!.
    + exact IH1.
    + intros m Hm1 Hm2.
      pose proof (preorder_sound _ _ _ Hc m Hm1) as Hd1.
      destruct (preorder_children_sound _ _ _ _ Hcs Hm2) as (c' & Hc' & Hd2).
      assert (c ≠ c') as Hne by (intros ->; done).
      destruct (ancestors_chain w m Hwf c c' Hd1 Hd2) as [Hd|Hd].
      * eapply (Hunrel c c'); [by left|by right|done|done].
      * eapply (Hunrel c' c); [by right|by left|done|done].
    + apply IH2; [done|].
      intros a b Ha Hb. apply Hunrel; by right.
Qed.

Section MoreCascadeFacts.
Context {R : Type}.
Implicit Types w : World R.

(** The handles a cascade from [this] assigns to. *)
Lemma cascade_runs w this level :
  wf w → this < length (objs w) →
  ∃ order,
    preorder (objs w) this order
    ∧ NoDup order
    ∧ (∀ m, m ∈ order ↔ descendant (objs w) this m)
    ∧ (∀ h, h ∈ handle_at (objs w) <$> order → h < length (levels w))
    ∧ Logger.setLogLevel this level w
      = Ok tt (set_levels (handle_at (objs w) <$> order)
                 (LogLevel_value level) w).
Proof.
  intros Hwf Hthis. pose proof (wf_shape_ok w Hwf) as Hs.
  destruct (setLogLevel_spec level this w Hs Hthis) as (order & Hpre & Hrun).
  exists order. split_and!; [done| | | |done].
  - by eapply preorder_NoDup.
  - intros m. split; [by eapply preorder_sound | intros; by eapply preorder_complete].
  - intros h (m & o & _ & Ho & <-)%(preorder_handles _ _ _ _ _ Hs Hthis Hpre).
    by apply (Hs m o).
Qed.

(** X2.  In a well-formed world a cascade assigns the level exactly once
    to the handle of each instance at or below the receiver, and to no
    other handle: the calls it makes are one level assignment per such
    handle, without repetition. *)
Theorem setLogLevel_each_once w this self level :
  wf w →
  objs w !! this = Some self →
  ∃ w' hs,
    Logger.setLogLevel this level w = Ok tt w'
    ∧ calls w' = calls w ++ ((λ h, CallSetLevel h (LogLevel_value level)) <$> hs)
    ∧ NoDup hs
    ∧ ∀ h, h ∈ hs ↔
           ∃ m o, descendant (objs w) this m ∧ objs w !! m = Some o
                  ∧ logger o = h.
Proof.
  intros Hwf Hself. pose proof (lookup_lt_Some _ _ _ Hself) as Hthis.
  pose proof (wf_shape_ok w Hwf) as Hs.
  destruct (cascade_runs w this level Hwf Hthis)
    as (order & Hpre & Hnd & Hmem & _ & Hrun).
  eexists _, (handle_at (objs w) <$> order). split; [exact Hrun|].
  split; [done|]. split.
  - apply NoDup_fmap_2_strong; [|done]. intros x y Hx Hy Heq.
    apply Hmem in Hx, Hy.
    pose proof (descendant_valid _ _ _ _ Hs Hthis Hx) as Hlx.
    pose proof (descendant_valid _ _ _ _ Hs Hthis Hy) as Hly.
    destruct (lookup_lt_is_Some_2 _ _ Hlx) as [ox Hox].
    destruct (lookup_lt_is_Some_2 _ _ Hly) as [oy Hoy].
    unfold handle_at in Heq. rewrite Hox, Hoy in Heq. simpl in Heq.
    by eapply wf_handle_inj.
  - intros h. exact (preorder_handles _ _ _ _ h Hs Hthis Hpre).
Qed.

(** The levels after a cascade, handle by handle. *)
Lemma cascade_levels w this level :
  wf w → this < length (objs w) →
  ∃ w',
    Logger.setLogLevel this level w = Ok tt w'
    ∧ objs w' = objs w
    ∧ length (levels w') = length (levels w)
    ∧ wf w'
    ∧ (∀ x ox, objs w !! x = Some ox →
         (descendant (objs w) this x →
            levels w' !! logger ox = Some (LogLevel_value level))
         ∧ (¬ descendant (objs w) this x →
            levels w' !! logger ox = levels w !! logger ox)).
Proof.
  intros Hwf Hthis. pose proof (wf_shape_ok w Hwf) as Hs.
  destruct (cascade_runs w this level Hwf Hthis)
    as (order & Hpre & Hnd & Hmem & Hb & Hrun).
  eexists. split; [exact Hrun|]. split; [done|].
  split; [apply set_levels_length|]. split.
  { eapply wf_same_shape; [done..|]. apply set_levels_length. }
  intros x ox Hox. split; intros Hd; rewrite set_levels_lookup by done.
  - rewrite decide_True; [done|].
    apply (preorder_handles _ _ _ _ _ Hs Hthis Hpre). by exists x, ox.
  - rewrite decide_False; [done|].
    intros (m' & o' & Hd' & Ho' & Heq)%(preorder_handles _ _ _ _ _ Hs Hthis Hpre).
    by rewrite (wf_handle_inj w x m' ox o' Hwf Hox Ho' (eq_sym Heq)) in Hd.
Qed.

(** X3.  A later cascade from an instance overrides an earlier one from
    anywhere at or below it: after [setLogLevel(l1)] on [m] and then
    [setLogLevel(l2)] on [this], every handle has the level it would have
    had after [setLogLevel(l2)] on [this] alone. *)
Theorem setLogLevel_later_ancestor_wins w this self m l1 l2 :
  wf w →
  objs w !! this = Some self →
  descendant (objs w) this m →
  ∃ w1 w2 w2',
    Logger.setLogLevel m l1 w = Ok tt w1
    ∧ Logger.setLogLevel this l2 w1 = Ok tt w2
    ∧ Logger.setLogLevel this l2 w = Ok tt w2'
    ∧ levels w2 = levels w2'.
Proof.
  intros Hwf Hself Hdm. pose proof (lookup_lt_Some _ _ _ Hself) as Hthis.
  pose proof (wf_shape_ok w Hwf) as Hs.
  pose proof (descendant_valid _ _ _ _ Hs Hthis Hdm) as Hm.
  destruct (cascade_runs w m l1 Hwf Hm) as (om & _ & _ & Hmemm & Hbm & Hrunm).
  destruct (cascade_runs w this l2 Hwf Hthis)
    as (ot & Hpret & _ & Hmemt & Hbt & Hrunt).
  set (w1 := set_levels (handle_at (objs w) <$> om) (LogLevel_value l1) w) in *.
  assert (wf w1) as Hwf1.
  { eapply wf_same_shape; [exact Hwf|done|]. apply set_levels_length. }
  destruct (cascade_runs w1 this l2 Hwf1) as (ot' & Hpret' & _ & _ & _ & Hrunt').
  { done. }
  change (objs w1) with (objs w) in Hpret', Hrunt'.
  rewrite <- (preorder_functional _ _ _ Hpret _ Hpret') in Hrunt'.
  eexists _, _, _. split; [exact Hrunm|]. split; [exact Hrunt'|].
  split; [exact Hrunt|].
  assert (length (levels w1) = length (levels w)) as Hlen1
    by apply set_levels_length.
  apply list_eq. intros h.
  rewrite (set_levels_lookup _ _ w1)
    by (intros h' Hh'; rewrite Hlen1; by apply Hbt).
  rewrite (set_levels_lookup _ _ w) by done.
  destruct (decide (h ∈ handle_at (objs w) <$> ot)) as [|Hnin]; [done|].
  unfold w1. rewrite set_levels_lookup by done.
  rewrite decide_False; [done|]. intros Hin. apply Hnin.
  apply list_elem_of_fmap in Hin as (x & -> & Hx).
  apply list_elem_of_fmap. exists x. split; [done|].
  apply Hmemt. etrans; [exact Hdm|]. by apply Hmemm.
Qed.

(** X4.  A later cascade from an instance below leaves the rest as the
    earlier cascade made it: after [setLogLevel(l2)] on [this] and then
    [setLogLevel(l1)] on [m] below it, the instances at or below [m] have
    level [l1], the other instances at or below [this] have level [l2],
    and the instances that are not below [this] have the level they had. *)
Theorem setLogLevel_later_descendant_diverges w this self m l1 l2 :
  wf w →
  objs w !! this = Some self →
  descendant (objs w) this m →
  ∃ w1 w2,
    Logger.setLogLevel this l2 w = Ok tt w1
    ∧ Logger.setLogLevel m l1 w1 = Ok tt w2
    ∧ objs w2 = objs w
    ∧ ∀ x ox, objs w !! x = Some ox →
        (descendant (objs w) m x →
           levels w2 !! logger ox = Some (LogLevel_value l1))
        ∧ (descendant (objs w) this x → ¬ descendant (objs w) m x →
           levels w2 !! logger ox = Some (LogLevel_value l2))
        ∧ (¬ descendant (objs w) this x →
           levels w2 !! logger ox = levels w !! logger ox).
Proof.
  intros Hwf Hself Hdm. pose proof (lookup_lt_Some _ _ _ Hself) as Hthis.
  pose proof (wf_shape_ok w Hwf) as Hs.
  pose proof (descendant_valid _ _ _ _ Hs Hthis Hdm) as Hm.
  destruct (cascade_levels w this l2 Hwf Hthis)
    as (w1 & Hrun1 & Hobjs1 & _ & Hwf1 & Hlev1).
  destruct (cascade_levels w1 m l1 Hwf1) as (w2 & Hrun2 & Hobjs2 & _ & _ & Hlev2).
  { by rewrite Hobjs1. }
  rewrite Hobjs1 in Hlev2, Hobjs2.
  exists w1, w2. split_and!; [done..|].
  intros x ox Hox. destruct (Hlev1 x ox Hox) as [Ha1 Hb1].
  destruct (Hlev2 x ox Hox) as [Ha2 Hb2]. split_and!.
  - done.
  - intros Hdx Hnd. rewrite Hb2 by done. by apply Ha1.
  - intros Hnd. rewrite Hb2, Hb1; [done..|].
    intros Hd. apply Hnd. by etrans.
Qed.
End MoreCascadeFacts.

(** ** More on runs of the keyed version *)

Lemma is_child_new_root os h p c :
  is_child (os ++ [{| logger := h; children := [] |}]) p c ↔ is_child os p c.
Proof.
  split.
  - intros (o & Ho & Hc). apply lookup_app_Some in Ho as [Ho|[_ Ho]].
    + by exists o.
    + apply list_lookup_singleton_Some in Ho as [_ <-].
      by apply elem_of_nil in Hc.
  - intros (o & Ho & Hc). exists o. split; [by apply lookup_app_l_Some|done].
Qed.

Lemma is_child_new_child os this self h p c :
  os !! this = Some self →
  is_child (<[this := {| logger := logger self;
                         children := children self ++ [length os] |}]>
              (os ++ [{| logger := h; children := [] |}])) p c
  ↔ is_child os p c ∨ (p = this ∧ c = length os).
Proof.
  intros Hself. pose proof (lookup_lt_Some _ _ _ Hself) as Hlt.
  assert (this < length (os ++ [{| logger := h; children := [] |}])) as Hlt'
    by (rewrite length_app; simpl; lia).
  split.
  - intros (o & Ho & Hc). destruct (decide (p = this)) as [->|Hne].
    + rewrite list_lookup_insert_eq in Ho by done. simplify_eq. simpl in Hc.
      apply elem_of_app in Hc as [Hc|Hc].
      * left. by exists self.
      * right. by apply list_elem_of_singleton in Hc.
    + rewrite list_lookup_insert_ne in Ho by done.
      left. apply (is_child_new_root os h). by exists o.
  - intros [(o & Ho & Hc)|[-> ->]].
    + destruct (decide (p = this)) as [->|Hne].
      * simplify_eq. eexists. rewrite list_lookup_insert_eq by done.
        split; [done|]. simpl. apply elem_of_app. by left.
      * exists o. rewrite list_lookup_insert_ne by done.
        split; [by apply lookup_app_l_Some|done].
    + eexists. rewrite list_lookup_insert_eq by done. split; [done|].
      simpl. apply elem_of_app. right. by left.
Qed.

Lemma root_config_service dest e name :
  opt_base (if decide (Logger.normalized_env e = "production")
            then (Logger.prodConfig dest e name, @None Stream)
            else (Logger.devConfig name, Some prettyStream)).1
  !! "service" = Some (JStr name).
Proof.
  destruct (decide _); simpl.
  - rewrite lookup_insert_ne by done. rewrite lookup_insert_ne by done.
    by rewrite lookup_singleton_eq.
  - by rewrite lookup_singleton_eq.
Qed.

Lemma or_default_nonempty (s : option string) (d : string) :
  d ≠ "" → or_default s d ≠ "".
Proof. intros Hd. destruct s as [s|]; simpl; [|done]. by destruct (decide _). Qed.

Section MoreRunFacts.
Variable LOG_DIR : option string.
Variable cwd : string.
Variable emit_throws :
  list Call → handle → LogLevel → string → list JsVal → option JsVal.

Import KeyedRun.

Abbreviation kexec := (exec LOG_DIR cwd emit_throws).
Abbreviation ksteps := (steps LOG_DIR cwd emit_throws).
Abbreviation kreachable := (reachable LOG_DIR cwd emit_throws).

(** The world a call leaves behind, call by call. *)
Lemma exec_explicit op (w w' : KWorld) :
  wf w →
  world_of (kexec op w) = Some w' →
  match op with
  | OpGetInstance s =>
      let name := or_default s Keyed.DEFAULT_SERVICE_NAME in
      w' = w
      ∨ (registry w !! name = None ∧ (name ∉ Object_prototype_keys)
         ∧ ∃ cfg stream,
             opt_base cfg !! "service" = Some (JStr name)
             ∧ w' = mkWorld (<[name := length (objs w)]> (registry w))
                      (objs w ++ [{| logger := length (levels w);
                                     children := [] |}])
                      (levels w ++ [opt_level cfg])
                      (calls w ++ [CallPino cfg stream (length (levels w))])
                      (env w))
  | OpChild this b =>
      ∃ self lvl derived,
        objs w !! this = Some self ∧ levels w !! logger self = Some lvl
        ∧ w' = mkWorld (registry w)
                 (<[this := {| logger := logger self;
                               children := children self ++ [length (objs w)] |}]>
                    (objs w ++ [{| logger := length (levels w);
                                   children := [] |}]))
                 (levels w ++ [lvl])
                 (calls w ++ [CallChild (logger self) derived (length (levels w))])
                 (env w)
  | OpSetLogLevel this level =>
      ∃ hs, (∀ h, h ∈ hs → h < length (levels w))
            ∧ w' = set_levels hs (LogLevel_value level) w
  | OpFatal this m args | OpError this m args | OpWarn this m args
  | OpInfo this m args | OpDebug this m args =>
      ∃ self method,
        objs w !! this = Some self
        ∧ w' = record_call (CallEmit (logger self) method m args) w
  end.
Proof.
  intros Hwf Hrun.
  assert (∀ this message args method,
            world_of ((self ← Logger.deref this;
                       handle_emit emit_throws method (logger self) message args) w)
            = Some w' →
            ∃ self method,
              objs w !! this = Some self
              ∧ w' = record_call (CallEmit (logger self) method message args) w)
    as Hemit.
  { intros this message args method Hw.
    destruct (objs w !! this) as [self|] eqn:Hself.
    - erewrite bind_Ok in Hw; last by (unfold Logger.deref; rewrite Hself).
      rewrite emit_world in Hw. simplify_eq. by exists self, method.
    - by rewrite deref_None in Hw. }
  destruct op as [s|this b|this level|this m args|this m args|this m args
                  |this m args|this m args];
    unfold exec in Hrun; rewrite world_of_bind_ret in Hrun;
    try (by eapply Hemit).
  - rewrite getInstance_runs in Hrun. cbv zeta in *.
    destruct (registry w !! or_default s Keyed.DEFAULT_SERVICE_NAME) as [l|] eqn:Hreg.
    { simpl in Hrun. simplify_eq. by left. }
    destruct (decide (_ ∈ Object_prototype_keys)).
    { simpl in Hrun. simplify_eq. by left. }
    simpl in Hrun. simplify_eq. right. split_and!; [done..|].
    eexists _, _. split; [apply root_config_service|done].
  - unfold child in Hrun.
    destruct (objs w !! this) as [self|] eqn:Hself.
    2:{ unfold Logger.child in Hrun. by rewrite deref_None in Hrun. }
    destruct (wf_shape_ok w Hwf this self Hself) as [Hh _].
    destruct (lookup_lt_is_Some_2 _ _ Hh) as [lvl Hlvl].
    erewrite child_runs in Hrun by done. simpl in Hrun. simplify_eq.
    by eexists _, _, _.
  - destruct (objs w !! this) as [self|] eqn:Hself.
    2:{ by rewrite setLogLevel_None in Hrun. }
    destruct (cascade_runs w this level Hwf) as (order & _ & _ & _ & Hb & Hspec).
    { by eapply lookup_lt_Some. }
    rewrite Hspec in Hrun. simpl in Hrun. simplify_eq. by eexists.
Qed.

(** Running a list of calls is a run. *)
Lemma run_keyed_steps ops (w : KWorld) :
  ksteps w (run_keyed LOG_DIR cwd emit_throws ops w).
Proof.
  revert w. induction ops as [|op ops IH]; intros w; [apply rtc_refl|].
  simpl. destruct (world_of (kexec op w)) as [w1|] eqn:Hrun; simpl.
  - eapply rtc_l; [by eapply step_call|apply IH].
  - apply IH.
Qed.

Lemma run_keyed_reachable ops e :
  kreachable (run_keyed LOG_DIR cwd emit_throws ops (init e)).
Proof. exists e. apply run_keyed_steps. Qed.

(** X5.  In a well-formed world every call on an existing instance returns
    or throws, and only [setLogLevel] changes the level of a handle: any
    other call leaves the levels of the handles there are as they were,
    and [setLogLevel] makes no new handle. *)
Theorem level_changes_only_by_setLogLevel op (w : KWorld) :
  wf w →
  (∀ this, receiver op = Some this → this < length (objs w)) →
  ∃ w',
    world_of (kexec op w) = Some w'
    ∧ match op with
      | OpSetLogLevel _ _ => length (levels w') = length (levels w)
      | _ => levels w `prefix_of` levels w'
      end.
Proof.
  intros Hwf Hrecv.
  destruct (exec_progress LOG_DIR cwd emit_throws op w Hwf Hrecv) as [w' Hrun].
  exists w'. split; [done|].
  pose proof (exec_explicit op w w' Hwf Hrun) as Hex.
  destruct op; cbv zeta in Hex.
  - destruct Hex as [->|(_ & _ & cfg & stream & _ & ->)]; [done|].
    simpl. by apply prefix_app_r.
  - destruct Hex as (self & lvl & derived & _ & _ & ->). simpl.
    by apply prefix_app_r.
  - destruct Hex as (hs & _ & ->). apply set_levels_length.
  - by destruct Hex as (self & method & _ & ->).
  - by destruct Hex as (self & method & _ & ->).
  - by destruct Hex as (self & method & _ & ->).
  - by destruct Hex as (self & method & _ & ->).
  - by destruct Hex as (self & method & _ & ->).
Qed.

(** A call that is neither a construction nor a derivation of a handle. *)
Lemma ledger_same (w w' : KWorld) extra :
  ledger w →
  registry w' = registry w → objs w' = objs w →
  length (levels w') = length (levels w) →
  calls w' = calls w ++ extra →
  Forall (λ c, match c with
               | CallSetLevel _ _ | CallEmit _ _ _ _ => True
               | _ => False
               end) extra →
  ledger w'.
Proof.
  intros (L1 & L2 & L3 & L4 & L5 & L6 & L7 & L8) Hr Ho Hl Hc Hextra.
  unfold ledger. rewrite Hr, Ho, Hl, Hc.
  assert (∀ c, c ∈ extra → is_factory_call c = false
                            ∧ (∀ p b c', c ≠ CallChild p b c')
                            ∧ (∀ cfg st h, c ≠ CallPino cfg st h)) as Hno.
  { intros c Hin. rewrite Forall_forall in Hextra. specialize (Hextra c Hin).
    by destruct c. }
  split_and!; [done..| | | |].
  - intros k l Hk. destruct (L5 k l Hk) as (H1 & H2 & cfg & stream & Hin & Hs).
    split_and!; [done..|]. exists cfg, stream. split; [|done].
    apply elem_of_app. by left.
  - intros cfg stream h [Hin|Hin]%elem_of_app; [by eapply L6|].
    destruct (Hno _ Hin) as (_ & _ & Hne). by destruct (Hne cfg stream h).
  - rewrite filter_app, length_app, L7.
    replace (filter (λ c, is_factory_call c = true) extra) with (@nil Call);
      [simpl; lia|].
    clear Hextra Hc. induction extra as [|c extra IH]; [done|].
    rewrite filter_cons_False.
    + apply IH. intros c' Hc'. apply Hno. by right.
    + destruct (Hno c) as [Hf _]; [by left|]. by rewrite Hf.
  - intros p c. rewrite L8. split; intros [b Hin]; exists b.
    + apply elem_of_app. by left.
    + apply elem_of_app in Hin as [Hin|Hin]; [done|].
      destruct (Hno _ Hin) as (_ & Hne & _). by destruct (Hne p b c).
Qed.

(** A new root. *)
Lemma ledger_new_root (w : KWorld) name cfg stream :
  wf w → ledger w →
  registry w !! name = None → name ≠ "" → name ∉ Object_prototype_keys →
  opt_base cfg !! "service" = Some (JStr name) →
  ledger (mkWorld (<[name := length (objs w)]> (registry w))
            (objs w ++ [{| logger := length (levels w); children := [] |}])
            (levels w ++ [opt_level cfg])
            (calls w ++ [CallPino cfg stream (length (levels w))])
            (env w)).
Proof.
  intros Hwf (L1 & L2 & L3 & L4 & L5 & L6 & L7 & L8) Hfree Hne Hnin Hsvc.
  pose proof (wf_shape_ok w Hwf) as Hs.
  unfold ledger. simpl. split_and!.
  - rewrite !length_app. simpl. lia.
  - intros l o [Ho|[Hge Ho]]%lookup_app_Some; [by apply L2|].
    apply list_lookup_singleton_Some in Ho as [Hl <-]. simpl. lia.
  - intros l Hl. rewrite length_app in Hl. simpl in Hl.
    destruct (decide (l = length (objs w))) as [->|Hnl].
    + left. exists name. by rewrite lookup_insert_eq.
    + destruct (L3 l ltac:(lia)) as [[k Hk]|[p Hp]].
      * left. exists k. rewrite lookup_insert_ne; [done|]. by intros <-; simplify_eq.
      * right. exists p. by apply is_child_new_root.
  - intros k l p [[<- <-]|[Hnk Hk]]%lookup_insert_Some Hch%is_child_new_root.
    + destruct Hch as (o & Ho & Hin). destruct (Hs p o Ho) as [_ Hb].
      specialize (Hb _ Hin). lia.
    + by eapply L4.
  - intros k l [[<- <-]|[Hnk Hk]]%lookup_insert_Some.
    + split_and!; [done..|]. exists cfg, stream. split; [|done].
      rewrite L1. apply elem_of_app. right. by left.
    + destruct (L5 k l Hk) as (H1 & H2 & cfg' & stream' & Hin & Hs').
      split_and!; [done..|]. exists cfg', stream'. split; [|done].
      apply elem_of_app. by left.
  - intros cfg' stream' h [Hin|Hin]%elem_of_app.
    + destruct (L6 _ _ _ Hin) as (k & Hk & Hs'). exists k. split; [|done].
      rewrite lookup_insert_ne; [done|]. by intros <-; simplify_eq.
    + apply list_elem_of_singleton in Hin. simplify_eq.
      exists name. rewrite L1. by rewrite lookup_insert_eq.
  - rewrite filter_app, length_app, L7. rewrite filter_cons_True by done.
    rewrite filter_nil. simpl. rewrite map_size_insert_None by done. lia.
  - intros p c. rewrite is_child_new_root, L8. split; intros [b Hin]; exists b.
    + apply elem_of_app. by left.
    + apply elem_of_app in Hin as [Hin|Hin]; [done|].
      by apply list_elem_of_singleton in Hin.
Qed.

(** A new child. *)
Lemma ledger_new_child (w : KWorld) this self lvl derived :
  wf w → reg_ok w → ledger w →
  objs w !! this = Some self →
  ledger (mkWorld (registry w)
            (<[this := {| logger := logger self;
                          children := children self ++ [length (objs w)] |}]>
               (objs w ++ [{| logger := length (levels w); children := [] |}]))
            (levels w ++ [lvl])
            (calls w ++ [CallChild (logger self) derived (length (levels w))])
            (env w)).
Proof.
  intros Hwf Hreg (L1 & L2 & L3 & L4 & L5 & L6 & L7 & L8) Hself.
  pose proof (wf_shape_ok w Hwf) as Hs.
  apply reg_ok_alt in Hreg as [Hbound _].
  pose proof (lookup_lt_Some _ _ _ Hself) as Hlt.
  pose proof (L2 _ _ Hself) as Hlog.
  unfold ledger. simpl. split_and!.
  - rewrite length_insert, !length_app. simpl. lia.
  - intros l o Ho. destruct (decide (l = this)) as [->|Hnl].
    + rewrite list_lookup_insert_eq in Ho by (rewrite length_app; simpl; lia).
      by simplify_eq.
    + rewrite list_lookup_insert_ne in Ho by done.
      apply lookup_app_Some in Ho as [Ho|[Hge Ho]]; [by apply L2|].
      apply list_lookup_singleton_Some in Ho as [Hl <-]. simpl. lia.
  - intros l Hl. rewrite length_insert, length_app in Hl. simpl in Hl.
    destruct (decide (l = length (objs w))) as [->|Hnl].
    + right. exists this. apply is_child_new_child; [done|]. by right.
    + destruct (L3 l ltac:(lia)) as [[k Hk]|[p Hp]]; [left; by exists k|].
      right. exists p. apply is_child_new_child; [done|]. by left.
  - intros k l p Hk [Hch|[-> ->]]%is_child_new_child; [by eapply L4| |done].
    specialize (Hbound _ _ Hk). lia.
  - intros k l Hk. destruct (L5 k l Hk) as (H1 & H2 & cfg & stream & Hin & Hsvc).
    split_and!; [done..|]. exists cfg, stream. split; [|done].
    apply elem_of_app. by left.
  - intros cfg stream h [Hin|Hin]%elem_of_app; [by eapply L6|].
    by apply list_elem_of_singleton in Hin.
  - rewrite filter_app, length_app, L7. rewrite filter_cons_False by done.
    rewrite filter_nil. simpl. lia.
  - intros p c. rewrite is_child_new_child by done. rewrite L8.
    split.
    + intros [[b Hin]|[-> ->]].
      * exists b. apply elem_of_app. by left.
      * exists derived. apply elem_of_app. right. rewrite Hlog, L1. by left.
    + intros [b [Hin|Hin]%elem_of_app]; [left; by exists b|].
      apply list_elem_of_singleton in Hin. simplify_eq. right.
      split; [done|]. lia.
Qed.

Lemma step_ledger (w w' : KWorld) :
  wf w → reg_ok w → ledger w →
  step LOG_DIR cwd emit_throws w w' → ledger w'.
Proof.
  intros Hwf Hreg Hled [op w1 Hrun|e].
  2:{ eapply (ledger_same w _ []); [done..|by rewrite app_nil_r|constructor]. }
  pose proof (exec_explicit op w w1 Hwf Hrun) as Hex.
  destruct op; cbv zeta in Hex.
  - destruct Hex as [->|(Hfree & Hnin & cfg & stream & Hsvc & ->)]; [done|].
    apply ledger_new_root; try done.
    apply or_default_nonempty. done.
  - destruct Hex as (self & lvl & derived & Hself & _ & ->).
    by apply ledger_new_child.
  - destruct Hex as (hs & _ & ->).
    eapply (ledger_same w _ _ Hled); [done|done|apply set_levels_length|done|].
    apply Forall_fmap, Forall_forall. by intros h _.
  - destruct Hex as (self & method & _ & ->).
    eapply (ledger_same w _ [_] Hled); [done..|]. by repeat constructor.
  - destruct Hex as (self & method & _ & ->).
    eapply (ledger_same w _ [_] Hled); [done..|]. by repeat constructor.
  - destruct Hex as (self & method & _ & ->).
    eapply (ledger_same w _ [_] Hled); [done..|]. by repeat constructor.
  - destruct Hex as (self & method & _ & ->).
    eapply (ledger_same w _ [_] Hled); [done..|]. by repeat constructor.
  - destruct Hex as (self & method & _ & ->).
    eapply (ledger_same w _ [_] Hled); [done..|]. by repeat constructor.
Qed.

Lemma init_ledger e : ledger (init e).
Proof.
  unfold ledger, init. simpl. split_and!; try done.
  - intros l Hl. lia.
  - intros cfg stream h Hin. by apply elem_of_nil in Hin.
  - intros p c. split.
    + by intros (o & Ho & _).
    + intros [b Hin]. by apply elem_of_nil in Hin.
Qed.

(** Every world a run can reach keeps the books. *)
Lemma reachable_ledger (w : KWorld) : kreachable w → ledger w.
Proof.
  intros [e Hsteps].
  assert (wf (init e)) as Hwf0 by (repeat split; constructor).
  assert (reg_ok (init e)) as Hreg0 by (split; apply map_Forall_empty).
  pose proof (init_ledger e) as Hled0.
  revert Hsteps Hwf0 Hreg0 Hled0. generalize (init e). intros w0 Hsteps.
  induction Hsteps as [w|w w1 w2 Hstep _ IH]; intros Hwf Hreg Hled; [done|].
  destruct (step_inv LOG_DIR cwd emit_throws w w1 Hwf Hstep) as (Hwf1 & Hreg1 & _).
  apply IH; [done|by apply Hreg1|]. by apply (step_ledger w w1).
Qed.

(** X6.  In every world a run of the keyed version reaches, the cached
    roots and the calls of the factory correspond one to one: there are as
    many factory calls as keys, the root cached under a key wraps the
    handle one factory call returned, with that key as the [service] base
    field, and every factory call made the root of some key.  No key is
    the empty string or a name inherited from [Object.prototype]. *)
Theorem one_factory_call_per_key (w : KWorld) :
  kreachable w →
  length (filter (λ c, is_factory_call c = true) (calls w)) = size (registry w)
  ∧ (∀ k l, registry w !! k = Some l →
       k ≠ "" ∧ (k ∉ Object_prototype_keys)
       ∧ ∃ o cfg stream,
           objs w !! l = Some o
           ∧ CallPino cfg stream (logger o) ∈ calls w
           ∧ opt_base cfg !! "service" = Some (JStr k))
  ∧ (∀ cfg stream h, CallPino cfg stream h ∈ calls w →
       ∃ k l o, registry w !! k = Some l ∧ objs w !! l = Some o
                ∧ logger o = h
                ∧ opt_base cfg !! "service" = Some (JStr k)).
Proof.
  intros Hreach.
  destruct (reachable_wf LOG_DIR cwd emit_throws w Hreach) as [Hwf Hreg].
  destruct (reachable_ledger w Hreach) as (L1 & L2 & L3 & L4 & L5 & L6 & L7 & L8).
  apply reg_ok_alt in Hreg as [Hbound _].
  split; [done|]. split.
  - intros k l Hk. destruct (L5 k l Hk) as (H1 & H2 & cfg & stream & Hin & Hsvc).
    split_and!; [done..|].
    destruct (lookup_lt_is_Some_2 _ _ (Hbound _ _ Hk)) as [o Ho].
    exists o, cfg, stream. by rewrite (L2 _ _ Ho).
  - intros cfg stream h Hin. destruct (L6 _ _ _ Hin) as (k & Hk & Hsvc).
    destruct (lookup_lt_is_Some_2 _ _ (Hbound _ _ Hk)) as [o Ho].
    exists k, h, o. split_and!; [done..| |done]. by apply L2.
Qed.

(** X7.  In every world a run of the keyed version reaches, the instances
    form a forest whose roots are the cached roots: each instance is
    either cached under exactly one key or a child of exactly one
    instance, never both, and a child was created after its parent. *)
Theorem instances_form_a_forest (w : KWorld) (l : loc) :
  kreachable w →
  l < length (objs w) →
  ((∃ k, registry w !! k = Some l
         ∧ ∀ k', registry w !! k' = Some l → k' = k)
   ∧ ∀ p, ¬ is_child (objs w) p l)
  ∨ ((∃ p, is_child (objs w) p l ∧ p < l
           ∧ ∀ p', is_child (objs w) p' l → p' = p)
     ∧ ∀ k, registry w !! k ≠ Some l).
Proof.
  intros Hreach Hl.
  destruct (reachable_wf LOG_DIR cwd emit_throws w Hreach) as [Hwf Hreg].
  destruct (reachable_ledger w Hreach) as (L1 & L2 & L3 & L4 & _).
  apply reg_ok_alt in Hreg as [_ Hinj]. pose proof (wf_shape_ok w Hwf) as Hs.
  destruct (L3 l Hl) as [[k Hk]|[p Hp]].
  - left. split.
    + exists k. split; [done|]. intros k' Hk'. by eapply Hinj.
    + intros p. by eapply L4.
  - right. split.
    + exists p. split_and!; [done| |].
      * destruct Hp as (o & Ho & Hin). destruct (Hs p o Ho) as [_ Hb].
        by apply Hb.
      * intros p' Hp'. by eapply wf_unique_parent.
    + intros k Hk. by eapply L4.
Qed.

(** X8.  In every world a run of the keyed version reaches, the wrapper
    and the backend agree on the tree: there is one handle per instance,
    no two instances wrap the same handle, and an instance is a child of
    another exactly when its handle is what a [child] call on the handle
    of the other returned. *)
Theorem tree_mirrors_backend (w : KWorld) :
  reachable LOG_DIR cwd emit_throws w →
  length (levels w) = length (objs w)
  ∧ (∀ l l' o o', objs w !! l = Some o → objs w !! l' = Some o' →
       logger o = logger o' → l = l')
  ∧ (∀ p c op oc, objs w !! p = Some op → objs w !! c = Some oc →
       c ∈ children op ↔ ∃ b, CallChild (logger op) b (logger oc) ∈ calls w).
Proof.
  intros Hreach.
  destruct (reachable_ledger w Hreach) as (L1 & L2 & _ & _ & _ & _ & _ & L8).
  split; [done|]. split.
  - intros l l' o o' Ho Ho' Heq.
    by rewrite <- (L2 _ _ Ho), <- (L2 _ _ Ho').
  - intros p c op oc Hp Hc. rewrite (L2 _ _ Hp), (L2 _ _ Hc), <- L8.
    split.
    + intros Hin. by exists op.
    + intros (o & Ho & Hin). by simplify_eq.
Qed.
End MoreRunFacts.

(** ** The reading of [NODE_ENV] *)

Lemma trimStart_split (s : string) :
  ∃ pre, s = pre +:+ trimStart s ∧ all_js_space pre = true.
Proof.
  induction s as [|c s IH]; [by exists ""|].
  simpl. destruct (is_js_space c) eqn:Hc; [|by exists ""].
  destruct IH as (pre & Hs & Hpre). exists (String c pre). split.
  - rewrite append_cons. by rewrite <- Hs.
  - simpl. by rewrite Hc.
Qed.

Lemma trimEnd_split (s : string) :
  ∃ post, s = trimEnd s +:+ post ∧ all_js_space post = true.
Proof.
  induction s as [|c s IH]; [by exists ""|].
  simpl. destruct IH as (post & Hs & Hpost).
  destruct (trimEnd s) as [|c' t] eqn:Ht.
  - destruct (is_js_space c) eqn:Hc.
    + exists (String c post). split; [by rewrite Hs|]. simpl. by rewrite Hc.
    + exists post. split; [|done]. rewrite append_cons. by rewrite <- Hs.
  - exists post. split; [|done]. rewrite append_cons. by rewrite <- Hs.
Qed.

Lemma trimStart_spaces (pre s : string) :
  all_js_space pre = true → trimStart (pre +:+ s) = trimStart s.
Proof.
  induction pre as [|c pre IH]; [done|].
  intros [Hc Hpre]%andb_true_iff. rewrite append_cons. simpl.
  rewrite Hc. by apply IH.
Qed.

Lemma trimEnd_all_space (post : string) :
  all_js_space post = true → trimEnd post = "".
Proof.
  induction post as [|c post IH]; [done|]. simpl.
  intros [Hc Hpost]%andb_true_iff. by rewrite IH, Hc.
Qed.

Lemma trimEnd_spaces (s post : string) :
  all_js_space post = true → trimEnd (s +:+ post) = trimEnd s.
Proof.
  intros Hpost. induction s as [|c s IH]; [by apply trimEnd_all_space|].
  rewrite append_cons. simpl. by rewrite IH.
Qed.

Lemma space_not_lowered (c : ascii) :
  is_js_space c = true → lower_char c = c.
Proof.
  unfold is_js_space, lower_char. intros H%bool_decide_eq_true.
  rewrite bool_decide_eq_false_2; [done|]. lia.
Qed.

Lemma toLowerCase_production (core : string) :
  toLowerCase core = "production" →
  ∃ c0 c1 c2 c3 c4 c5 c6 c7 c8 c9,
    core = String c0 (String c1 (String c2 (String c3 (String c4 (String c5
             (String c6 (String c7 (String c8 (String c9 "")))))))))
    ∧ is_js_space c0 = false ∧ is_js_space c9 = false.
Proof.
  intros H.
  assert (∀ c t, lower_char c = t → is_js_space t = false →
            is_js_space c = false) as Hns.
  { intros c t Hc Ht. destruct (is_js_space c) eqn:E; [|done].
    rewrite space_not_lowered in Hc by done. subst. congruence. }
  do 10 (destruct core as [|? core]; [discriminate|]; simpl in H;
         injection H as ? H).
  destruct core; [|discriminate].
  eexists _, _, _, _, _, _, _, _, _, _. split; [reflexivity|].
  split; eapply Hns; eauto.
Qed.

(** X9.  A root is constructed with the production configuration exactly
    when [NODE_ENV] is set to a text that consists of white space, a text
    that is ["production"] once its capital letters are made small, and
    white space again. *)
Theorem production_mode_iff (e : ProcessEnv) :
  Logger.normalized_env e = "production" ↔
  ∃ pre core post,
    NODE_ENV e = Some (pre +:+ core +:+ post)
    ∧ all_js_space pre = true ∧ all_js_space post = true
    ∧ toLowerCase core = "production".
Proof.
  unfold Logger.normalized_env. split.
  - intros H.
    destruct (NODE_ENV e) as [raw|] eqn:Hraw; [|by vm_compute in H].
    simpl in H. destruct (decide (raw = "")); [by vm_compute in H|].
    destruct (trimStart_split raw) as (pre & Hs & Hpre).
    destruct (trimEnd_split (trimStart raw)) as (post & Ht & Hpost).
    exists pre, (trim raw), post. split_and!; [|done..].
    unfold trim. by rewrite <- Ht, <- Hs.
  - intros (pre & core & post & Hraw & Hpre & Hpost & Hcore).
    rewrite Hraw. simpl.
    destruct (toLowerCase_production core Hcore)
      as (c0 & c1 & c2 & c3 & c4 & c5 & c6 & c7 & c8 & c9 & -> & H0 & H9).
    rewrite decide_False.
    2:{ destruct pre; [discriminate|]. rewrite append_cons. discriminate. }
    unfold trim. rewrite trimStart_spaces by done.
    match goal with |- context [trimStart ?s] =>
      replace (trimStart s) with s by (rewrite append_cons; simpl; by rewrite H0)
    end.
    rewrite trimEnd_spaces by done.
    match goal with |- toLowerCase (trimEnd ?s) = _ =>
      replace (trimEnd s) with s by (simpl; by rewrite H9)
    end.
    exact Hcore.
Qed.

Section MoreRootFacts.
Context {R : Type}.
Variable DEFAULT_SERVICE_NAME : string.
Variable prodDestination : string.

(** X10.  Whenever the production configuration is chosen, [NODE_ENV] is
    set and not empty, and the base fields of the root are exactly [env],
    [version] and [service]: [env] is the text of [NODE_ENV] as it is, not
    its normalized reading, and [version] is [npm_package_version], or
    [undefined] when that is not set.  The one transport target writes to
    the production destination, creating the directory, asynchronously. *)
Theorem production_base_fields (w : World R) (name : string) :
  Logger.normalized_env (env w) = "production" →
  ∃ raw w1 cfg t,
    NODE_ENV (env w) = Some raw ∧ raw ≠ ""
    ∧ Logger.constructor DEFAULT_SERVICE_NAME prodDestination
        (ParamString name) w = Ok (length (objs w)) w1
    ∧ calls w1 = calls w ++ [CallPino cfg None (length (levels w))]
    ∧ opt_base cfg
      = list_to_map [("env", JStr raw);
                     ("version", env_val (npm_package_version (env w)));
                     ("service", JStr name)]
    ∧ opt_transport cfg = Some [t]
    ∧ destination t = prodDestination ∧ mkdir t = true ∧ sync t = false.
Proof.
  intros Hprod.
  destruct (NODE_ENV (env w)) as [raw|] eqn:Hraw.
  2:{ unfold Logger.normalized_env in Hprod. rewrite Hraw in Hprod.
      by vm_compute in Hprod. }
  assert (raw ≠ "") as Hne.
  { intros ->. unfold Logger.normalized_env in Hprod. rewrite Hraw in Hprod.
    by vm_compute in Hprod. }
  rewrite constructor_root_runs. cbv zeta. rewrite decide_True by done.
  eexists raw, _, _, _. split_and!; try reflexivity; try done.
  simpl. by rewrite Hraw.
Qed.
End MoreRootFacts.

(** ** The message format *)

(** X11.  On a record whose [service] and [module] fields are texts or
    absent and whose message is a text or absent, [messageFormat] yields
    ["[service|module] message"], with nothing for an absent field and
    ["undefined"] for an absent message. *)
Theorem messageFormat_of_texts (log : JsObj) (messageKey : string) :
  (∀ k, k = "service" ∨ k = "module" ∨ k = messageKey →
        log !! k = None ∨ ∃ s, log !! k = Some (JStr s)) →
  messageKey ∉ Object_prototype_keys →
  let field k := match log !! k with Some (JStr s) => s | _ => "" end in
  let message :=
    match log !! messageKey with Some (JStr s) => s | _ => "undefined" end in
  messageFormat_fn log messageKey
  = Some ("[" +:+ field "service" +:+ "|" +:+ field "module" +:+ "] "
          +:+ message).
Proof.
  intros Htexts Hkey field message.
  assert (∀ k, k = "service" ∨ k = "module" →
            (if js_truthy (get_prop log k)
             then template_text (get_prop log k) else Some "")
            = Some (field k)) as Hfield.
  { intros k Hk. unfold field, get_prop.
    destruct (Htexts k) as [->|[s ->]]; [tauto|done|]. simpl.
    case_bool_decide; [done|]. by f_equal. }
  unfold messageFormat_fn.
  rewrite (Hfield "service") by tauto. rewrite (Hfield "module") by tauto.
  simpl. unfold record_message, message.
  destruct (Htexts messageKey) as [->|[s ->]]; [tauto| |done].
  by rewrite decide_False.
Qed.

Section MessageOfChild.
Context {R : Type}.
Variable DEFAULT_SERVICE_NAME : string.
Variable prodDestination : string.

(** X12.  The lines of a child get its name as the [module] of the prefix:
    when [child] is called with a name that is a text, every record that
    carries the base fields of a development root for [svc], the bindings
    [child] handed to the backend, and a text as its message, is rendered
    as ["[svc|name] message"]. *)
Theorem messageFormat_of_child (w : World R) this self lvl
    (bindings : JsObj) (n svc : string) :
  objs w !! this = Some self →
  levels w !! logger self = Some lvl →
  bindings !! "name" = Some (JStr n) →
  ∃ w' l' derived h',
    Logger.child DEFAULT_SERVICE_NAME prodDestination this bindings w
    = Ok l' w'
    ∧ calls w' = calls w ++ [CallChild (logger self) derived h']
    ∧ ∀ (log : JsObj) messageKey msg,
        opt_base (Logger.devConfig svc) ⊆ log →
        derived ⊆ log →
        log !! messageKey = Some (JStr msg) →
        messageFormat_fn log messageKey
        = Some ("[" +:+ svc +:+ "|" +:+ n +:+ "] " +:+ msg).
Proof.
  intros Hthis Hlvl Hname.
  eexists _, _, _, _. split; [by eapply child_runs|]. simpl.
  split; [done|]. intros log messageKey msg Hbase Hderived Hmsg.
  assert (log !! "service" = Some (JStr svc)) as Hs.
  { eapply lookup_weaken; [|exact Hbase]. simpl. by rewrite lookup_singleton_eq. }
  assert (log !! "module" = Some (JStr n)) as Hm.
  { eapply lookup_weaken; [|exact Hderived].
    rewrite lookup_insert_eq. unfold get_prop. by rewrite Hname. }
  unfold messageFormat_fn, get_prop, record_message.
  rewrite Hs, Hm, Hmsg. simpl.
  repeat case_bool_decide; subst; done.
Qed.
End MessageOfChild.

(** ** The single-instance version, more *)

Lemma descendant_mono os os' a b :
  (∀ p c, is_child os p c → is_child os' p c) →
  descendant os a b → descendant os' a b.
Proof.
  intros Hsub. induction 1 as [|x y z Hxy _ IH]; [apply rtc_refl|].
  eapply rtc_l; [by apply Hsub|done].
Qed.

Lemma emit_world_any {R} emit_throws (w : World R) h method message args :
  world_of (handle_emit emit_throws method h message args w)
  = Some (record_call (CallEmit h method message args) w).
Proof. unfold handle_emit. by destruct emit_throws. Qed.

Section SingleFacts.
Variable pkg_name : option string.
Variable dirname : string.
Variable emit_throws :
  list Call → handle → LogLevel → string → list JsVal → option JsVal.

Import SingleRun.

Abbreviation sname :=
  (λ s : option string,
     match s with
     | Some n => n
     | None => Single.DEFAULT_SERVICE_NAME pkg_name
     end).

(** The root the first call makes. *)
Abbreviation new_root_world :=
  (λ (w : SWorld) (s : option string),
     let cfg_stream :=
       if decide (Logger.normalized_env (env w) = "production")
       then (Logger.prodConfig (Single.prodDestination dirname) (env w) (sname s),
             None)
       else (Logger.devConfig (sname s), Some prettyStream) in
     mkWorld (Some (length (objs w)))
       (objs w ++ [{| logger := length (levels w); children := [] |}])
       (levels w ++ [opt_level cfg_stream.1])
       (calls w ++ [CallPino cfg_stream.1 cfg_stream.2 (length (levels w))])
       (env w)).

Lemma single_getInstance_runs (w : SWorld) (s : option string) :
  Single.getInstance pkg_name dirname s w
  = match registry w with
    | Some l => Ok l w
    | None => Ok (length (objs w)) (new_root_world w s)
    end.
Proof.
  unfold Single.getInstance.
  erewrite bind_Ok; last by (unfold Single.get_instance).
  destruct (registry w) as [l|]; [done|].
  unfold Single.constructor. destruct s as [n|].
  - erewrite bind_Ok; last by apply constructor_root_runs. reflexivity.
  - erewrite bind_Ok; last first.
    { rewrite constructor_undefined. apply constructor_root_runs. }
    reflexivity.
Qed.

(** X13.  In the single-instance version the first call decides the
    service name: the name given, also when it is the empty string, or
    the default name when none is given.  Every later call, whatever name
    it gives, returns that root and changes nothing. *)
Theorem single_first_name_sticks (w : SWorld) (s : option string) :
  registry w = None →
  ∃ w1 cfg stream,
    Single.getInstance pkg_name dirname s w = Ok (length (objs w)) w1
    ∧ calls w1 = calls w ++ [CallPino cfg stream (length (levels w))]
    ∧ opt_base cfg !! "service"
      = Some (JStr (match s with
                    | Some n => n
                    | None => nullish_default pkg_name "ads-mqtt"
                    end))
    ∧ ∀ s', Single.getInstance pkg_name dirname s' w1
            = Ok (length (objs w)) w1.
Proof.
  intros Hreg. rewrite single_getInstance_runs, Hreg.
  eexists _, _, _. split; [reflexivity|]. split; [reflexivity|]. split.
  - apply root_config_service.
  - intros s'. by rewrite single_getInstance_runs.
Qed.

Lemma single_ok_init e : single_ok (init e).
Proof.
  split; [repeat split; constructor|]. split; [done|]. split; [|done].
  intros l o Hl. simpl in Hl. by destruct l.
Qed.

Lemma single_ok_new_root (w : SWorld) s :
  single_ok w → registry w = None → single_ok (new_root_world w s).
Proof.
  intros (Hwf & Hlen & Hlog & Hreg) Hnone. rewrite Hnone in Hreg.
  destruct Hreg as [Hobjs Hcalls].
  assert (levels w = []) as Hlevels
    by (apply length_zero_iff_nil; by rewrite Hlen, Hobjs).
  split; [by apply wf_new_root|]. simpl. rewrite Hobjs, Hcalls, Hlevels. simpl.
  split; [done|]. split.
  { intros [|l] o Hl; simpl in Hl; [by simplify_eq|by destruct l]. }
  split_and!; [done|lia| |].
  - intros l Hl. assert (l = 0) as -> by lia. apply rtc_refl.
  - eexists _, _, []. split; [done|constructor].
Qed.

Lemma single_ok_child (w : SWorld) this self lvl derived r :
  single_ok w → registry w = Some r →
  objs w !! this = Some self →
  single_ok
    (mkWorld (registry w)
       (<[this := {| logger := logger self;
                     children := children self ++ [length (objs w)] |}]>
          (objs w ++ [{| logger := length (levels w); children := [] |}]))
       (levels w ++ [lvl])
       (calls w ++ [CallChild (logger self) derived (length (levels w))])
       (env w)).
Proof.
  intros (Hwf & Hlen & Hlog & Hreg) Hsome Hself. rewrite Hsome in Hreg.
  destruct Hreg as (-> & Hpos & Hdesc & cfg & stream & rest & Hcalls & Hrest).
  pose proof (lookup_lt_Some _ _ _ Hself) as Hlt.
  split; [by apply wf_new_child|]. simpl. split.
  { rewrite length_insert, !length_app. simpl. lia. }
  split.
  { intros l o Ho. destruct (decide (l = this)) as [->|Hnl].
    - rewrite list_lookup_insert_eq in Ho by (rewrite length_app; simpl; lia).
      simplify_eq. simpl. by apply Hlog.
    - rewrite list_lookup_insert_ne in Ho by done.
      apply lookup_app_Some in Ho as [Ho|[Hge Ho]]; [by apply Hlog|].
      apply list_lookup_singleton_Some in Ho as [Hl <-]. simpl. lia. }
  rewrite Hsome. split_and!; [done| | |].
  - rewrite length_insert, length_app. simpl. lia.
  - intros l Hl. rewrite length_insert, length_app in Hl. simpl in Hl.
    assert (∀ x, descendant (objs w) 0 x →
              descendant (<[this := {| logger := logger self;
                                       children := children self ++ [length (objs w)] |}]>
                            (objs w ++ [{| logger := length (levels w);
                                           children := [] |}])) 0 x) as Hmono.
    { intros x. apply descendant_mono. intros p c Hpc.
      apply is_child_new_child; [done|]. by left. }
    destruct (decide (l = length (objs w))) as [->|Hnl].
    + eapply rtc_r; [apply Hmono, (Hdesc this Hlt)|].
      apply is_child_new_child; [done|]. by right.
    + apply Hmono, Hdesc. lia.
  - exists cfg, stream, (rest ++ [CallChild (logger self) derived (length (levels w))]).
    split; [by rewrite Hcalls|]. apply Forall_app. split; [done|].
    by repeat constructor.
Qed.

Lemma single_ok_same (w w' : SWorld) extra :
  single_ok w →
  registry w' = registry w → objs w' = objs w →
  length (levels w') = length (levels w) →
  calls w' = calls w ++ extra →
  Forall (λ c, is_factory_call c = false) extra →
  (registry w = None → extra = []) →
  single_ok w'.
Proof.
  intros (Hwf & Hlen & Hlog & Hreg) Hr Ho Hl Hc Hextra Hnone.
  split; [by eapply wf_same_shape|]. rewrite Hr, Ho, Hl, Hc.
  split; [done|]. split; [done|].
  destruct (registry w) as [r|].
  - destruct Hreg as (-> & Hpos & Hdesc & cfg & stream & rest & Hcalls & Hrest).
    split_and!; [done..|]. exists cfg, stream, (rest ++ extra).
    split; [by rewrite Hcalls|]. by apply Forall_app.
  - rewrite Hnone by done. by rewrite app_nil_r.
Qed.

(** Calls on an instance keep the world in order. *)
Lemma single_ok_child_call (w w' : SWorld) this b :
  single_ok w → world_of (child pkg_name dirname this b w) = Some w' →
  single_ok w'.
Proof.
  intros Hok Hrun. pose proof Hok as (Hwf & Hlen & Hlog & Hreg).
  unfold child in Hrun.
  destruct (objs w !! this) as [self|] eqn:Hself.
  2:{ unfold Logger.child in Hrun. by rewrite deref_None in Hrun. }
  destruct (wf_shape_ok w Hwf this self Hself) as [Hh _].
  destruct (lookup_lt_is_Some_2 _ _ Hh) as [lvl Hlvl].
  erewrite child_runs in Hrun by done. simpl in Hrun. simplify_eq.
  assert (∃ r, registry w = Some r) as [r Hr].
  { destruct (registry w) as [r|]; [by exists r|].
    destruct Hreg as [Hobjs _]. by rewrite Hobjs in Hself. }
  by eapply single_ok_child.
Qed.

Lemma single_ok_setLogLevel (w w' : SWorld) this level :
  single_ok w → world_of (Logger.setLogLevel this level w) = Some w' →
  single_ok w'.
Proof.
  intros Hok Hrun. pose proof Hok as (Hwf & Hlen & Hlog & Hreg).
  destruct (objs w !! this) as [self|] eqn:Hself.
  2:{ by rewrite setLogLevel_None in Hrun. }
  destruct (cascade_runs w this level Hwf) as (order & _ & _ & _ & Hb & Hspec).
  { by eapply lookup_lt_Some. }
  rewrite Hspec in Hrun. simpl in Hrun. simplify_eq.
  eapply (single_ok_same w _ _ Hok); [done|done|apply set_levels_length|done| |].
  - apply Forall_fmap, Forall_forall. by intros h _.
  - intros Hnone. rewrite Hnone in Hreg. destruct Hreg as [Hobjs _].
    by rewrite Hobjs in Hself.
Qed.

Lemma single_ok_emit (w w' : SWorld) this method m args :
  single_ok w →
  world_of ((self ← Logger.deref this;
             handle_emit emit_throws method (logger self) m args) w) = Some w' →
  single_ok w'.
Proof.
  intros Hok Hrun. pose proof Hok as (Hwf & Hlen & Hlog & Hreg).
  destruct (objs w !! this) as [self|] eqn:Hself.
  2:{ by rewrite deref_None in Hrun. }
  erewrite bind_Ok in Hrun; last by (unfold Logger.deref; rewrite Hself).
  rewrite emit_world_any in Hrun. simplify_eq.
  eapply (single_ok_same w _ [_] Hok); [done..|by repeat constructor|].
  intros Hnone. rewrite Hnone in Hreg. destruct Hreg as [Hobjs _].
  by rewrite Hobjs in Hself.
Qed.

(** After [getInstance] the root exists and the world is in order. *)
Lemma single_ok_getInstance (w : SWorld) s :
  single_ok w →
  ∃ w1, Single.getInstance pkg_name dirname s w = Ok 0 w1
        ∧ single_ok w1 ∧ registry w1 = Some 0
        ∧ (registry w = Some 0 → w1 = w)
        ∧ (registry w = None → w1 = new_root_world w s).
Proof.
  intros Hok. rewrite single_getInstance_runs.
  pose proof Hok as (Hwf & Hlen & Hlog & Hreg).
  destruct (registry w) as [r|] eqn:Hr.
  - destruct Hreg as (-> & _). exists w. by rewrite Hr.
  - destruct Hreg as [Hobjs _].
    assert (length (objs w) = 0) as Hz by (by rewrite Hobjs).
    exists (new_root_world w s). split_and!; [by rewrite Hz| |simpl; by rewrite Hz|done|done].
    by apply single_ok_new_root.
Qed.

Lemma step_single_ok (w w' : SWorld) :
  single_ok w → step pkg_name dirname emit_throws w w' → single_ok w'.
Proof.
  intros Hok [op w1 Hrun|e].
  2:{ eapply (single_ok_same w _ [] Hok); [done..|by rewrite app_nil_r|constructor|done]. }
  destruct op as [s|b|level|this b|this level|this m args|this m args
                  |this m args|this m args|this m args];
    unfold exec in Hrun; rewrite world_of_bind_ret in Hrun.
  - unfold LoggerFn in Hrun.
    destruct (single_ok_getInstance w s Hok) as (w2 & Hget & Hok2 & _).
    rewrite Hget in Hrun. simpl in Hrun. by simplify_eq.
  - unfold LoggerFn_child in Hrun.
    destruct (single_ok_getInstance w None Hok) as (w2 & Hget & Hok2 & _).
    erewrite bind_Ok in Hrun by exact Hget.
    by eapply single_ok_child_call.
  - unfold LoggerFn_setLogLevel in Hrun.
    destruct (single_ok_getInstance w None Hok) as (w2 & Hget & Hok2 & _).
    erewrite bind_Ok in Hrun by exact Hget.
    by eapply single_ok_setLogLevel.
  - by eapply single_ok_child_call.
  - by eapply single_ok_setLogLevel.
  - by eapply single_ok_emit.
  - by eapply single_ok_emit.
  - by eapply single_ok_emit.
  - by eapply single_ok_emit.
  - by eapply single_ok_emit.
Qed.

Lemma reachable_single_ok (w : SWorld) :
  reachable pkg_name dirname emit_throws w → single_ok w.
Proof.
  intros [e Hsteps]. pose proof (single_ok_init e) as Hok.
  revert Hsteps Hok. generalize (init e). intros w0 Hsteps.
  induction Hsteps as [w|w w1 w2 Hstep _ IH]; intros Hok; [done|].
  apply IH. by eapply step_single_ok.
Qed.

Lemma run_single_steps ops (w : SWorld) :
  steps pkg_name dirname emit_throws w (run pkg_name dirname emit_throws ops w).
Proof.
  revert w. induction ops as [|op ops IH]; intros w; [apply rtc_refl|].
  simpl. destruct (world_of (exec pkg_name dirname emit_throws op w))
    as [w1|] eqn:Hrun; simpl.
  - eapply rtc_l; [by eapply step_call|apply IH].
  - apply IH.
Qed.

Lemma run_single_reachable ops e :
  reachable pkg_name dirname emit_throws
    (run pkg_name dirname emit_throws ops (init e)).
Proof. exists e. apply run_single_steps. Qed.

(** X14.  In every world a run of the single-instance version reaches,
    either nothing has been made yet, or there is one root, the instance
    0: every instance is at or below it, and the backend has seen exactly
    one call of the factory, as its first call. *)
Theorem single_one_root (w : SWorld) :
  reachable pkg_name dirname emit_throws w →
  (registry w = None ∧ objs w = [] ∧ calls w = [])
  ∨ (registry w = Some 0
     ∧ (∀ l, l < length (objs w) → descendant (objs w) 0 l)
     ∧ length (filter (λ c, is_factory_call c = true) (calls w)) = 1
     ∧ ∃ cfg stream, calls w !! 0 = Some (CallPino cfg stream 0)).
Proof.
  intros Hreach. destruct (reachable_single_ok w Hreach) as (_ & _ & _ & Hreg).
  destruct (registry w) as [r|]; [right|left; by destruct Hreg].
  destruct Hreg as (-> & _ & Hdesc & cfg & stream & rest & Hcalls & Hrest).
  split_and!; [done..| |].
  - rewrite Hcalls, filter_cons_True by done. simpl. f_equal.
    clear Hcalls. induction Hrest as [|c rest Hc _ IH]; [done|].
    rewrite filter_cons_False; [done|]. by rewrite Hc.
  - exists cfg, stream. by rewrite Hcalls.
Qed.

(** X15.  [LoggerFn.child] is [child] on the root: it returns a new
    instance that is appended to the children of the instance 0, after
    one [child] call on the handle of the root.  When no root exists yet,
    the root is made first, with the default service name, so that the
    backend sees a factory call and then the [child] call. *)
Theorem LoggerFn_child_on_root (w : SWorld) (bindings : JsObj) :
  reachable pkg_name dirname emit_throws w →
  ∃ w0 w' root,
    Single.getInstance pkg_name dirname None w = Ok 0 w0
    ∧ objs w0 !! 0 = Some root
    ∧ LoggerFn_child pkg_name dirname bindings w = Ok (length (objs w0)) w'
    ∧ objs w' !! 0
      = Some {| logger := 0; children := children root ++ [length (objs w0)] |}
    ∧ calls w'
      = calls w0
        ++ [CallChild 0 (<["module" := get_prop bindings "name"]>
                           (delete "name" bindings)) (length (levels w0))]
    ∧ match registry w with
      | Some _ => calls w0 = calls w
      | None =>
          ∃ cfg stream,
            calls w0 = [CallPino cfg stream 0]
            ∧ opt_base cfg !! "service"
              = Some (JStr (nullish_default pkg_name "ads-mqtt"))
      end.
Proof.
  intros Hreach. pose proof (reachable_single_ok w Hreach) as Hok.
  destruct (single_ok_getInstance w None Hok)
    as (w0 & Hget & Hok0 & Hreg0 & Hhit & Hmiss).
  pose proof Hok0 as (Hwf0 & Hlen0 & Hlog0 & Hr0). rewrite Hreg0 in Hr0.
  destruct Hr0 as (_ & Hpos & _).
  destruct (lookup_lt_is_Some_2 _ _ Hpos) as [root Hroot].
  pose proof (Hlog0 _ _ Hroot) as Hlogroot.
  destruct (wf_shape_ok w0 Hwf0 0 root Hroot) as [Hh _].
  destruct (lookup_lt_is_Some_2 _ _ Hh) as [lvl Hlvl].
  eexists w0, _, root. split; [done|]. split; [done|]. split.
  { unfold LoggerFn_child. erewrite bind_Ok by exact Hget.
    unfold child. by erewrite child_runs. }
  simpl. rewrite Hlogroot. split_and!.
  - rewrite list_lookup_insert_eq; [done|]. rewrite length_app. lia.
  - done.
  - pose proof Hok as (_ & _ & _ & Hr). destruct (registry w) as [r|] eqn:Hreg.
    + destruct Hr as (-> & _). by rewrite Hhit.
    + destruct Hr as (Hobjs & Hcalls). rewrite Hmiss by done. simpl.
      assert (levels w = []) as Hlevels.
      { apply length_zero_iff_nil. destruct Hok as (_ & -> & _). by rewrite Hobjs. }
      rewrite Hcalls, Hlevels. simpl. eexists _, _. split; [done|].
      apply root_config_service.
Qed.

(** X16.  [LoggerFn.setLogLevel] is global: in every world a run of the
    single-instance version reaches it returns, the root exists
    afterwards, and every handle there is has the level given. *)
Theorem LoggerFn_setLogLevel_global (w : SWorld) (level : LogLevel) :
  reachable pkg_name dirname emit_throws w →
  ∃ w',
    LoggerFn_setLogLevel pkg_name dirname level w = Ok tt w'
    ∧ registry w' = Some 0
    ∧ 0 < length (levels w')
    ∧ length (levels w') = length (objs w')
    ∧ ∀ h lvl, levels w' !! h = Some lvl → lvl = LogLevel_value level.
Proof.
  intros Hreach. pose proof (reachable_single_ok w Hreach) as Hok.
  destruct (single_ok_getInstance w None Hok)
    as (w0 & Hget & Hok0 & Hreg0 & _).
  pose proof Hok0 as (Hwf0 & Hlen0 & Hlog0 & Hr0). rewrite Hreg0 in Hr0.
  destruct Hr0 as (_ & Hpos & Hdesc & _).
  destruct (cascade_levels w0 0 level Hwf0 Hpos)
    as (w' & Hrun & Hobjs & Hlen & _ & Hlev).
  exists w'. split.
  { unfold LoggerFn_setLogLevel. by erewrite bind_Ok by exact Hget. }
  assert (registry w' = Some 0) as Hreg'.
  { destruct (cascade_runs w0 0 level Hwf0 Hpos) as (order & _ & _ & _ & _ & Hspec).
    rewrite Hspec in Hrun. by simplify_eq. }
  split_and!; [done|lia|by rewrite Hlen, Hobjs|].
  intros h lvl Hh. pose proof (lookup_lt_Some _ _ _ Hh) as Hlt.
  rewrite Hlen, Hlen0 in Hlt.
  destruct (lookup_lt_is_Some_2 _ _ Hlt) as [o Ho].
  destruct (Hlev h o Ho) as [Hset _].
  rewrite (Hlog0 _ _ Ho) in Hset. rewrite Hset in Hh by by apply Hdesc.
  by simplify_eq.
Qed.
End SingleFacts.

(** ** Roots of the keyed version *)

Section MoreKeyedFacts.
Variable LOG_DIR : option string.
Variable cwd : string.
Variable emit_throws :
  list Call → handle → LogLevel → string → list JsVal → option JsVal.

(** X17.  In every world a run of the keyed version reaches, roots cached
    under different keys are different instances with nothing in common
    below them, so [setLogLevel] on one root returns and leaves the level
    of every instance at or below the other root as it was. *)
Theorem setLogLevel_roots_independent (w : KWorld) k1 k2 r1 r2 level :
  KeyedRun.reachable LOG_DIR cwd emit_throws w →
  registry w !! k1 = Some r1 →
  registry w !! k2 = Some r2 →
  k1 ≠ k2 →
  r1 ≠ r2
  ∧ (∀ x, descendant (objs w) r1 x → ¬ descendant (objs w) r2 x)
  ∧ ∃ w',
      Logger.setLogLevel r1 level w = Ok tt w'
      ∧ ∀ x ox, objs w !! x = Some ox → descendant (objs w) r2 x →
          levels w' !! logger ox = levels w !! logger ox.
Proof.
  intros Hreach Hk1 Hk2 Hne.
  destruct (reachable_wf LOG_DIR cwd emit_throws w Hreach) as [Hwf Hreg].
  destruct (reachable_ledger LOG_DIR cwd emit_throws w Hreach)
    as (_ & _ & _ & L4 & _).
  apply reg_ok_alt in Hreg as [Hbound Hinj].
  assert (r1 ≠ r2) as Hr by (intros ->; apply Hne; by eapply Hinj).
  assert (∀ k r r', registry w !! k = Some r → descendant (objs w) r' r →
            r' = r) as Htop.
  { intros k r r' Hk Hd. apply rtc_inv_r in Hd as [->|(q & _ & Hq)]; [done|].
    by destruct (L4 k r q Hk). }
  assert (∀ x, descendant (objs w) r1 x → ¬ descendant (objs w) r2 x) as Hdisj.
  { intros x H1 H2.
    destruct (ancestors_chain w x Hwf r1 r2 H1 H2) as [Hd|Hd].
    - apply Hr. by eapply (Htop k2).
    - apply Hr. symmetry. by eapply (Htop k1). }
  split; [done|]. split; [done|].
  destruct (cascade_levels w r1 level Hwf (Hbound _ _ Hk1))
    as (w' & Hrun & _ & _ & _ & Hlev).
  exists w'. split; [done|]. intros x ox Hox Hd.
  destruct (Hlev x ox Hox) as [_ Hkeep]. apply Hkeep.
  intros Hd1. by eapply Hdisj.
Qed.

(** X20.  A name that every object inherits from [Object.prototype] is
    never the key of a root: in every world a run of the keyed version
    reaches, [getInstance] with such a name returns the inherited member,
    which is no [Logger], calls nothing and changes nothing. *)
Theorem getInstance_inherited_never_cached (w : KWorld) (name : string) :
  KeyedRun.reachable LOG_DIR cwd emit_throws w →
  name ∈ Object_prototype_keys →
  registry w !! name = None
  ∧ Keyed.getInstance LOG_DIR cwd (Some name) w = Ok (RefInherited name) w.
Proof.
  intros Hreach Hin.
  destruct (reachable_ledger LOG_DIR cwd emit_throws w Hreach)
    as (_ & _ & _ & _ & L5 & _).
  assert (registry w !! name = None) as Hnone.
  { destruct (registry w !! name) as [l|] eqn:Hl; [|done].
    by destruct (L5 name l Hl) as (_ & Hnin & _). }
  split; [done|].
  assert (name ≠ "") as Hne.
  { intros ->. revert Hin. apply (bool_decide_unpack _). vm_compute. exact I. }
  unfold Keyed.getInstance, or_default. rewrite decide_False by done.
  unfold Keyed.get_instance, mbind, M_bind, mret, M_ret.
  rewrite Hnone, decide_True by done. simpl.
  by rewrite Hnone.
Qed.
End MoreKeyedFacts.

(** ** Where the log file is *)

Lemma split_slash_segments (s seg : string) :
  seg ∈ split_slash s → starts_with_slash seg = false.
Proof.
  revert seg. induction s as [|c s IH]; intros seg Hin; simpl in Hin.
  - apply list_elem_of_singleton in Hin. by subst.
  - destruct (decide (c = "/"%char)) as [->|Hc].
    + apply elem_of_cons in Hin as [->|Hin]; [done|by apply IH].
    + pose proof (split_slash_nonempty s) as Hne.
      destruct (split_slash s) as [|seg0 segs]; [done|].
      apply elem_of_cons in Hin as [->|Hin].
      * simpl. by rewrite bool_decide_eq_false_2.
      * apply IH. by right.
Qed.

Lemma normalize_step_segments allow stack seg :
  starts_with_slash seg = false →
  Forall (λ s, s ≠ "" ∧ starts_with_slash s = false) stack →
  Forall (λ s, s ≠ "" ∧ starts_with_slash s = false)
         (normalize_step allow stack seg).
Proof.
  intros Hseg Hstack. unfold normalize_step.
  destruct (decide (seg = "" ∨ seg = ".")) as [|Hn]; [done|].
  assert (seg ≠ "") by tauto.
  destruct (decide (seg = "..")) as [->|].
  - destruct stack as [|top below].
    + destruct allow; by repeat constructor.
    + destruct (decide (top = "..")); [by constructor|].
      by apply Forall_cons in Hstack as [_ ?].
  - by constructor.
Qed.

Lemma normalizeSegments_segments allow segs :
  Forall (λ s, starts_with_slash s = false) segs →
  Forall (λ s, s ≠ "" ∧ starts_with_slash s = false)
         (normalizeSegments allow segs).
Proof.
  intros Hsegs. unfold normalizeSegments. apply Forall_rev.
  assert (Forall (λ s, s ≠ "" ∧ starts_with_slash s = false) (@nil string))
    as Hnil by constructor.
  revert Hnil. generalize (@nil string).
  induction Hsegs as [|seg segs Hseg _ IH]; intros stack Hstack; [done|].
  simpl. apply IH. by apply normalize_step_segments.
Qed.

Lemma dir_prefix_absolute (dir file : string) :
  file ≠ "" → starts_with_slash file = false →
  starts_with_slash (dir_prefix dir +:+ file) = starts_with_slash dir.
Proof.
  intros Hfile Hstart. unfold dir_prefix.
  destruct (starts_with_slash dir) eqn:Habs; [done|].
  change ("" +:+ ?x) with x.
  pose proof (normalizeSegments_segments (negb false) (split_slash dir)) as Hsegs.
  destruct (normalizeSegments (negb false) (split_slash dir)) as [|seg segs].
  - done.
  - assert (seg ≠ "" ∧ starts_with_slash seg = false) as [Hne Hs].
    { assert (Forall (λ s, starts_with_slash s = false) (split_slash dir))
        as Hall.
      { apply Forall_forall. intros s Hs. by eapply split_slash_segments. }
      apply Hsegs in Hall. by apply Forall_cons in Hall as [? _]. }
    destruct seg as [|c seg]; [done|].
    destruct segs; simpl in *; by rewrite ?append_cons.
Qed.

(** X18.  The production destination of the keyed version is the file
    [app.log] directly in the log directory, and it is an absolute path
    exactly when the log directory is one: a relative [LOG_DIR] is not
    resolved against the working directory, and an empty [LOG_DIR] is
    not replaced by the default, so that the destination is then the
    relative path ["app.log"]. *)
Theorem logFile_follows_logDir (LOG_DIR : option string) (cwd : string) :
  Keyed.logFile LOG_DIR cwd
  = dir_prefix (Keyed.logDir LOG_DIR cwd) +:+ "app.log"
  ∧ starts_with_slash (Keyed.logFile LOG_DIR cwd)
    = starts_with_slash (Keyed.logDir LOG_DIR cwd)
  ∧ match LOG_DIR with
    | Some dir =>
        Keyed.logDir LOG_DIR cwd = dir
        ∧ (dir = "" → Keyed.logFile LOG_DIR cwd = "app.log")
    | None =>
        Keyed.logDir LOG_DIR cwd = dir_prefix cwd +:+ "logs"
        ∧ starts_with_slash (Keyed.logDir LOG_DIR cwd)
          = starts_with_slash cwd
    end.
Proof.
  assert (Keyed.logFile LOG_DIR cwd
          = dir_prefix (Keyed.logDir LOG_DIR cwd) +:+ "app.log") as Hfile
    by apply path_join_app_log.
  split; [done|]. split.
  - rewrite Hfile. by apply dir_prefix_absolute.
  - destruct LOG_DIR as [dir|].
    + split; [done|]. intros ->. by vm_compute.
    + unfold Keyed.logDir. simpl. rewrite path_join_logs.
      split; [done|]. by apply dir_prefix_absolute.
Qed.

Lemma concat_slash_logs (segs : list string) :
  String.concat "/" (segs ++ ["logs"; "app.log"])
  = match segs with
    | [] => ""
    | _ => String.concat "/" segs +:+ "/"
    end +:+ "logs/app.log".
Proof.
  change (segs ++ ["logs"; "app.log"]) with (segs ++ ["logs"] ++ ["app.log"]).
  rewrite app_assoc, concat_slash_snoc.
  destruct (segs ++ ["logs"]) eqn:E; [by destruct segs|].
  rewrite <- E, concat_slash_snoc. by rewrite !append_assoc.
Qed.

(** X19.  In the single-instance version the production destination is
    [logs/app.log] beside the directory of the module: when that
    directory is [leaf] in a directory [parent], the destination is
    [logs/app.log] in the normalized [parent]. *)
Theorem single_destination_beside_module (parent leaf : string) :
  parent ≠ "" →
  split_slash leaf = [leaf] →
  leaf ≠ "" → leaf ≠ "." → leaf ≠ ".." →
  Single.prodDestination (parent +:+ "/" +:+ leaf)
  = dir_prefix parent +:+ "logs/app.log".
Proof.
  intros Hparent Hsplit H1 H2 H3. unfold Single.prodDestination, path_join.
  assert (parent +:+ "/" +:+ leaf ≠ "") as Hne.
  { destruct parent; [done|]. rewrite append_cons. discriminate. }
  rewrite !filter_cons_True, filter_nil by done.
  change (String.concat "/" [parent +:+ "/" +:+ leaf; "../logs/app.log"])
    with ((parent +:+ "/" +:+ leaf) +:+ "/" +:+ "../logs/app.log").
  set (p := (parent +:+ "/" +:+ leaf) +:+ "/" +:+ "../logs/app.log").
  assert (p = parent +:+ "/" +:+ (leaf +:+ "/../logs/app.log")) as Hp.
  { unfold p. by rewrite !append_assoc. }
  unfold path_normalize.
  rewrite decide_False by (unfold p; destruct parent; [done|]; rewrite !append_cons; discriminate).
  replace (starts_with_slash p) with (starts_with_slash parent)
    by (rewrite Hp; by destruct parent).
  replace (ends_with_slash p) with false.
  2:{ symmetry. unfold p. rewrite <- append_assoc.
      by rewrite ends_with_slash_append. }
  assert (split_slash p
          = split_slash parent ++ [leaf; ".."; "logs"; "app.log"]) as ->.
  { rewrite Hp, split_slash_join. f_equal.
    change (leaf +:+ "/../logs/app.log") with (leaf +:+ "/" +:+ "../logs/app.log").
    by rewrite split_slash_join, Hsplit. }
  assert (∀ allow,
            normalizeSegments allow
              (split_slash parent ++ [leaf; ".."; "logs"; "app.log"])
            = normalizeSegments allow (split_slash parent) ++ ["logs"; "app.log"])
    as ->.
  { intros allow. unfold normalizeSegments. rewrite fold_left_app. simpl.
    generalize (fold_left (normalize_step allow) (split_slash parent) []).
    intros stack.
    assert (normalize_step allow stack leaf = leaf :: stack) as ->.
    { unfold normalize_step. rewrite decide_False by (by intros [?|?]).
      by rewrite decide_False. }
    assert (normalize_step allow (leaf :: stack) ".." = stack) as ->.
    { unfold normalize_step. simpl. by rewrite decide_False. }
    unfold normalize_step. simpl. by rewrite <- !app_assoc. }
  rewrite concat_slash_logs. unfold dir_prefix.
  rewrite decide_False.
  2:{ intros E. by apply append_eq_nil in E. }
  destruct (starts_with_slash parent); [|done].
  by rewrite append_assoc.
Qed.

(** * The further properties on the sample worlds *)

Lemma sample_run_reachable :
  KeyedRun.reachable None "/srv/app" never_throws sample_run.
Proof. apply run_keyed_reachable. Qed.

Lemma sample_single_run_reachable :
  SingleRun.reachable (Some "@yyberi/logger") "/srv/app/dist" never_throws
    sample_single_run.
Proof. apply run_single_reachable. Qed.

Lemma sample_tree_0_1 : descendant (objs sample_tree) 0 1.
Proof.
  apply rtc_once. exists {| logger := 0; children := [1; 2] |}.
  split; [reflexivity|]. apply list_elem_of_here.
Qed.

(** X1 for bindings without [name] on the first child of the sample
    tree. *)
Lemma child_without_name_witness :
  objs sample_tree !! 1 = Some {| logger := 1; children := [3] |}
  ∧ levels sample_tree !! 1 = Some "debug"
  ∧ ({["foo" := JStr "bar"]} : JsObj) !! "name" = None
  ∧ ∃ w' derived,
      Logger.child "svc" "/srv/app/logs/app.log" 1 {["foo" := JStr "bar"]}
        sample_tree = Ok 4 w'
      ∧ derived !! "module" = Some JUndefined
      ∧ calls w' = [CallChild 1 derived 4].
Proof.
  assert (({["foo" := JStr "bar"]} : JsObj) !! "name" = None) as Hname.
  { vm_compute. reflexivity. }
  split; [reflexivity|]. split; [reflexivity|]. split; [exact Hname|].
  destruct (child_without_name "svc" "/srv/app/logs/app.log" sample_tree 1
              {| logger := 1; children := [3] |} "debug"
              {["foo" := JStr "bar"]} eq_refl eq_refl Hname)
    as (w' & derived & Hrun & Hcalls & Hmod & _).
  exists w', derived. split; [exact Hrun|]. split; [exact Hmod | exact Hcalls].
Defined.

(** X2 at the first child of the sample tree. *)
Lemma setLogLevel_each_once_witness :
  wf sample_tree
  ∧ objs sample_tree !! 1 = Some {| logger := 1; children := [3] |}
  ∧ ∃ w' hs,
      Logger.setLogLevel 1 WARN sample_tree = Ok tt w'
      ∧ calls w' = (λ h, CallSetLevel h "warn") <$> hs
      ∧ NoDup hs.
Proof.
  split; [exact sample_tree_wf|]. split; [reflexivity|].
  destruct (setLogLevel_each_once sample_tree 1
              {| logger := 1; children := [3] |} WARN sample_tree_wf eq_refl)
    as (w' & hs & Hrun & Hcalls & Hnodup & _).
  exists w', hs. split; [exact Hrun|]. split; [exact Hcalls | exact Hnodup].
Defined.

(** X3 for the first child and then the root of the sample tree. *)
Lemma setLogLevel_later_ancestor_wins_witness :
  wf sample_tree
  ∧ objs sample_tree !! 0 = Some {| logger := 0; children := [1; 2] |}
  ∧ descendant (objs sample_tree) 0 1
  ∧ ∃ w1 w2 w2',
      Logger.setLogLevel 1 WARN sample_tree = Ok tt w1
      ∧ Logger.setLogLevel 0 ERROR w1 = Ok tt w2
      ∧ Logger.setLogLevel 0 ERROR sample_tree = Ok tt w2'
      ∧ levels w2 = levels w2'.
Proof.
  split; [exact sample_tree_wf|]. split; [reflexivity|].
  split; [exact sample_tree_0_1|].
  exact (setLogLevel_later_ancestor_wins sample_tree 0
           {| logger := 0; children := [1; 2] |} 1 WARN ERROR
           sample_tree_wf eq_refl sample_tree_0_1).
Defined.

(** X4 for the root and then the first child of the sample tree. *)
Lemma setLogLevel_later_descendant_diverges_witness :
  wf sample_tree
  ∧ objs sample_tree !! 0 = Some {| logger := 0; children := [1; 2] |}
  ∧ descendant (objs sample_tree) 0 1
  ∧ ∃ w1 w2,
      Logger.setLogLevel 0 ERROR sample_tree = Ok tt w1
      ∧ Logger.setLogLevel 1 WARN w1 = Ok tt w2
      ∧ levels w2 !! 1 = Some "warn".
Proof.
  split; [exact sample_tree_wf|]. split; [reflexivity|].
  split; [exact sample_tree_0_1|].
  destruct (setLogLevel_later_descendant_diverges sample_tree 0
              {| logger := 0; children := [1; 2] |} 1 WARN ERROR
              sample_tree_wf eq_refl sample_tree_0_1)
    as (w1 & w2 & Hrun1 & Hrun2 & _ & Hlev).
  exists w1, w2. split; [exact Hrun1|]. split; [exact Hrun2|].
  exact (proj1 (Hlev 1 {| logger := 1; children := [3] |} eq_refl)
           (rtc_refl _ 1)).
Defined.

(** X5 for [child] on the first child of the sample tree. *)
Lemma level_changes_only_by_setLogLevel_witness :
  wf sample_tree
  ∧ (∀ this, KeyedRun.receiver (KeyedRun.OpChild 1 modA_bindings) = Some this →
       this < length (objs sample_tree))
  ∧ ∃ w',
      world_of (KeyedRun.exec None "/srv/app" never_throws
                  (KeyedRun.OpChild 1 modA_bindings) sample_tree) = Some w'
      ∧ levels sample_tree `prefix_of` levels w'.
Proof.
  assert (∀ this, KeyedRun.receiver (KeyedRun.OpChild 1 modA_bindings) = Some this →
            this < length (objs sample_tree)) as Hrecv.
  { intros this H. injection H as <-. simpl. lia. }
  split; [exact sample_tree_wf|]. split; [exact Hrecv|].
  exact (level_changes_only_by_setLogLevel None "/srv/app" never_throws
           (KeyedRun.OpChild 1 modA_bindings) sample_tree
           sample_tree_wf Hrecv).
Defined.

(** X6 after the sample run: two keys, two calls of the factory. *)
Lemma one_factory_call_per_key_witness :
  KeyedRun.reachable None "/srv/app" never_throws sample_run
  ∧ length (filter (λ c, is_factory_call c = true) (calls sample_run))
    = size (registry sample_run).
Proof.
  split; [exact sample_run_reachable|].
  exact (proj1 (one_factory_call_per_key None "/srv/app" never_throws
                  sample_run sample_run_reachable)).
Defined.

(** X7 for the instance 1 of the sample run. *)
Lemma instances_form_a_forest_witness :
  KeyedRun.reachable None "/srv/app" never_throws sample_run
  ∧ 1 < length (objs sample_run)
  ∧ (((∃ k, registry sample_run !! k = Some 1
            ∧ ∀ k', registry sample_run !! k' = Some 1 → k' = k)
      ∧ ∀ p, ¬ is_child (objs sample_run) p 1)
     ∨ ((∃ p, is_child (objs sample_run) p 1 ∧ p < 1
              ∧ ∀ p', is_child (objs sample_run) p' 1 → p' = p)
        ∧ ∀ k, registry sample_run !! k ≠ Some 1)).
Proof.
  assert (1 < length (objs sample_run)) as Hlt by (vm_compute; lia).
  split; [exact sample_run_reachable|]. split; [exact Hlt|].
  exact (instances_form_a_forest None "/srv/app" never_throws sample_run 1
           sample_run_reachable Hlt).
Defined.

(** X8 after the sample run. *)
Lemma tree_mirrors_backend_witness :
  KeyedRun.reachable None "/srv/app" never_throws sample_run
  ∧ length (levels sample_run) = length (objs sample_run).
Proof.
  split; [exact sample_run_reachable|].
  exact (proj1 (tree_mirrors_backend None "/srv/app" never_throws
                  sample_run sample_run_reachable)).
Defined.

(** X10 in a fresh process with [NODE_ENV=production]. *)
Lemma production_base_fields_witness :
  Logger.normalized_env (env (KeyedRun.init prod_env)) = "production"
  ∧ ∃ w1 cfg,
      Logger.constructor "@juntu/logger" "/srv/app/logs/app.log"
        (ParamString "svc") (KeyedRun.init prod_env) = Ok 0 w1
      ∧ calls w1 = [CallPino cfg None 0]
      ∧ opt_base cfg
        = list_to_map [("env", JStr "production");
                       ("version", JStr "9.8.7");
                       ("service", JStr "svc")].
Proof.
  assert (Logger.normalized_env (env (KeyedRun.init prod_env)) = "production")
    as Henv by (vm_compute; reflexivity).
  split; [exact Henv|].
  destruct (production_base_fields "@juntu/logger" "/srv/app/logs/app.log"
              (KeyedRun.init prod_env) "svc" Henv)
    as (raw & w1 & cfg & t & Hraw & _ & Hrun & Hcalls & Hbase & _).
  exists w1, cfg. split; [exact Hrun|]. split; [exact Hcalls|].
  injection Hraw as <-. exact Hbase.
Defined.

(** X11 for a record of a root: no [module]. *)
Lemma messageFormat_of_texts_witness :
  (∀ k, k = "service" ∨ k = "module" ∨ k = "msg" →
        (<["service" := JStr "svc"]> {["msg" := JStr "hello"]} : JsObj) !! k
        = None
        ∨ ∃ s, (<["service" := JStr "svc"]> {["msg" := JStr "hello"]} : JsObj)
               !! k = Some (JStr s))
  ∧ ("msg" ∉ Object_prototype_keys)
  ∧ messageFormat_fn (<["service" := JStr "svc"]> {["msg" := JStr "hello"]})
      "msg" = Some "[svc|] hello".
Proof.
  set (log := (<["service" := JStr "svc"]> {["msg" := JStr "hello"]} : JsObj)).
  assert (∀ k, k = "service" ∨ k = "module" ∨ k = "msg" →
            log !! k = None ∨ ∃ s, log !! k = Some (JStr s)) as Htexts.
  { intros k [-> | [-> | ->]].
    - right. exists "svc". vm_compute. reflexivity.
    - left. vm_compute. reflexivity.
    - right. exists "hello". vm_compute. reflexivity. }
  assert ("msg" ∉ Object_prototype_keys) as Hnin.
  { apply (bool_decide_unpack _). vm_compute. exact I. }
  split; [exact Htexts|]. split; [exact Hnin|].
  pose proof (messageFormat_of_texts log "msg" Htexts Hnin) as Hfmt.
  vm_compute in Hfmt. vm_compute. exact Hfmt.
Defined.

(** X12 for the child [modA] of the root of the sample tree. *)
Lemma messageFormat_of_child_witness :
  objs sample_tree !! 0 = Some {| logger := 0; children := [1; 2] |}
  ∧ levels sample_tree !! 0 = Some "debug"
  ∧ modA_bindings !! "name" = Some (JStr "modA")
  ∧ ∃ w' l' derived h',
      Logger.child "svc" "/srv/app/logs/app.log" 0 modA_bindings sample_tree
      = Ok l' w'
      ∧ calls w' = [CallChild 0 derived h']
      ∧ ∀ (log : JsObj) msg,
          opt_base (Logger.devConfig "svc") ⊆ log →
          derived ⊆ log →
          log !! "msg" = Some (JStr msg) →
          messageFormat_fn log "msg" = Some ("[svc|modA] " +:+ msg).
Proof.
  assert (modA_bindings !! "name" = Some (JStr "modA")) as Hname.
  { vm_compute. reflexivity. }
  split; [reflexivity|]. split; [reflexivity|]. split; [exact Hname|].
  destruct (messageFormat_of_child "svc" "/srv/app/logs/app.log" sample_tree 0
              {| logger := 0; children := [1; 2] |} "debug" modA_bindings
              "modA" "svc" eq_refl eq_refl Hname)
    as (w' & l' & derived & h' & Hrun & Hcalls & Hfmt).
  exists w', l', derived, h'. split; [exact Hrun|]. split; [exact Hcalls|].
  intros log msg Hbase Hderived Hmsg.
  exact (Hfmt log "msg" msg Hbase Hderived Hmsg).
Defined.

(** X13 in a fresh process: the first call names the service. *)
Lemma single_first_name_sticks_witness :
  registry (SingleRun.init dev_env) = None
  ∧ ∃ w1,
      Single.getInstance (Some "@yyberi/logger") "/srv/app/dist"
        (Some "first") (SingleRun.init dev_env) = Ok 0 w1
      ∧ Single.getInstance (Some "@yyberi/logger") "/srv/app/dist"
          (Some "second") w1 = Ok 0 w1.
Proof.
  split; [reflexivity|].
  destruct (single_first_name_sticks (Some "@yyberi/logger") "/srv/app/dist"
              (SingleRun.init dev_env) (Some "first") eq_refl)
    as (w1 & cfg & stream & Hrun & _ & _ & Hlater).
  exists w1. split; [exact Hrun | exact (Hlater (Some "second"))].
Defined.

(** X14 after the sample run of the single-instance version. *)
Lemma single_one_root_witness :
  SingleRun.reachable (Some "@yyberi/logger") "/srv/app/dist" never_throws
    sample_single_run
  ∧ ((registry sample_single_run = None ∧ objs sample_single_run = []
      ∧ calls sample_single_run = [])
     ∨ (registry sample_single_run = Some 0
        ∧ (∀ l, l < length (objs sample_single_run) →
             descendant (objs sample_single_run) 0 l)
        ∧ length (filter (λ c, is_factory_call c = true)
                    (calls sample_single_run)) = 1
        ∧ ∃ cfg stream,
            calls sample_single_run !! 0 = Some (CallPino cfg stream 0))).
Proof.
  split; [exact sample_single_run_reachable|].
  exact (single_one_root (Some "@yyberi/logger") "/srv/app/dist" never_throws
           sample_single_run sample_single_run_reachable).
Defined.

(** X15 after the sample run of the single-instance version. *)
Lemma LoggerFn_child_on_root_witness :
  SingleRun.reachable (Some "@yyberi/logger") "/srv/app/dist" never_throws
    sample_single_run
  ∧ ∃ w' l',
      SingleRun.LoggerFn_child (Some "@yyberi/logger") "/srv/app/dist"
        modA_bindings sample_single_run = Ok l' w'.
Proof.
  split; [exact sample_single_run_reachable|].
  destruct (LoggerFn_child_on_root (Some "@yyberi/logger") "/srv/app/dist"
              never_throws sample_single_run modA_bindings
              sample_single_run_reachable)
    as (w0 & w' & root & _ & _ & Hrun & _).
  exists w', (length (objs w0)). exact Hrun.
Defined.

(** X16 after the sample run of the single-instance version. *)
Lemma LoggerFn_setLogLevel_global_witness :
  SingleRun.reachable (Some "@yyberi/logger") "/srv/app/dist" never_throws
    sample_single_run
  ∧ ∃ w',
      SingleRun.LoggerFn_setLogLevel (Some "@yyberi/logger") "/srv/app/dist"
        ERROR sample_single_run = Ok tt w'
      ∧ ∀ h lvl, levels w' !! h = Some lvl → lvl = "error".
Proof.
  split; [exact sample_single_run_reachable|].
  destruct (LoggerFn_setLogLevel_global (Some "@yyberi/logger")
              "/srv/app/dist" never_throws sample_single_run ERROR
              sample_single_run_reachable)
    as (w' & Hrun & _ & _ & _ & Hall).
  exists w'. split; [exact Hrun | exact Hall].
Defined.

(** X17 after the sample run: the root of ["svc"] and the default root. *)
Lemma setLogLevel_roots_independent_witness :
  KeyedRun.reachable None "/srv/app" never_throws sample_run
  ∧ registry sample_run !! "svc" = Some 0
  ∧ registry sample_run !! "@juntu/logger" = Some 2
  ∧ "svc" ≠ "@juntu/logger"
  ∧ ∃ w',
      Logger.setLogLevel 0 ERROR sample_run = Ok tt w'
      ∧ levels w' !! 2 = levels sample_run !! 2.
Proof.
  assert (registry sample_run !! "svc" = Some 0) as H1
    by (vm_compute; reflexivity).
  assert (registry sample_run !! "@juntu/logger" = Some 2) as H2
    by (vm_compute; reflexivity).
  assert ("svc" ≠ "@juntu/logger") as Hne by discriminate.
  assert (∃ o, objs sample_run !! 2 = Some o ∧ logger o = 2) as (o & Ho & Hh).
  { eexists. split; vm_compute; reflexivity. }
  split; [exact sample_run_reachable|]. split; [exact H1|].
  split; [exact H2|]. split; [exact Hne|].
  destruct (setLogLevel_roots_independent None "/srv/app" never_throws
              sample_run "svc" "@juntu/logger" 0 2 ERROR
              sample_run_reachable H1 H2 Hne)
    as (_ & _ & w' & Hrun & Hkeep).
  exists w'. split; [exact Hrun|].
  rewrite <- Hh. exact (Hkeep 2 o Ho (rtc_refl _ 2)).
Defined.

(** X20 for the name [toString] after the sample run. *)
Lemma getInstance_inherited_never_cached_witness :
  KeyedRun.reachable None "/srv/app" never_throws sample_run
  ∧ "toString" ∈ Object_prototype_keys
  ∧ Keyed.getInstance None "/srv/app" (Some "toString") sample_run
    = Ok (RefInherited "toString") sample_run.
Proof.
  assert ("toString" ∈ Object_prototype_keys) as Hin.
  { apply (bool_decide_unpack _). vm_compute. exact I. }
  split; [exact sample_run_reachable|]. split; [exact Hin|].
  exact (proj2 (getInstance_inherited_never_cached None "/srv/app"
                  never_throws sample_run "toString"
                  sample_run_reachable Hin)).
Defined.

(** X19 for a module in [/srv/app/dist]. *)
Lemma single_destination_beside_module_witness :
  "/srv/app" ≠ ""
  ∧ split_slash "dist" = ["dist"]
  ∧ Single.prodDestination "/srv/app/dist" = "/srv/app/logs/app.log".
Proof.
  split; [discriminate|]. split; [reflexivity|].
  exact (single_destination_beside_module "/srv/app" "dist"
           ltac:(discriminate) eq_refl ltac:(discriminate)
           ltac:(discriminate) ltac:(discriminate)).
Defined.
